(** * commmerce-pos-cli: the serve / build / bundle / package pipeline

    A shallow embedding of [src/commands/serve.js], [build.js] and
    [package.js] together with the statements that the toolchain's
    specification makes about them.

    Conventions of the embedding:
    - a JavaScript string is a [text], the list of its code points
      (every pattern used by the program is delimited by ASCII characters,
      so matching on code points and on UTF-16 code units agree);
    - a file holds [bytes]; [readFile(p, 'utf8')] decodes them, and
      [writeFile(p, string)] encodes the string as UTF-8;
    - the file system is a tree whose directories list their entries in
      the order [readdir] reports them;
    - an [await]ed file-system call that rejects is a [Throw], caught by the
      enclosing [try]/[catch] of the command. *)

From Stdlib Require Import List String Ascii NArith ZArith Bool Arith Lia.
From Stdlib Require Import DecimalString Zify.
From Stdlib Require DecimalPos DecimalFacts.
From Stdlib.Strings Require Byte.
Import ListNotations.

Set Warnings "-register-all".

Local Open Scope string_scope.
Local Open Scope N_scope.
Local Open Scope list_scope.

(* ================================================================== *)
(** * JavaScript strings *)
(* ================================================================== *)

Module Text.

Abbreviation char := N (only parsing).
Abbreviation text := (list N) (only parsing).

(** A string literal of the source. *)
Definition lit (s : string) : text :=
  map N_of_ascii (list_ascii_of_string s).

Fixpoint teqb (a b : text) : bool :=
  match a, b with
  | [], [] => true
  | x :: a', y :: b' => (x =? y) && teqb a' b'
  | _, _ => false
  end.

(** [s.startsWith(p)] *)
Fixpoint starts_with (p s : text) : bool :=
  match p with
  | [] => true
  | x :: p' =>
      match s with
      | [] => false
      | y :: s' => (x =? y) && starts_with p' s'
      end
  end.

(** [s.endsWith(p)] *)
Definition ends_with (p s : text) : bool :=
  starts_with (rev p) (rev s).


(** The first occurrence of [pat] in [s]: the text before it and the text
    after it ([s.indexOf(pat)] with both sides of the cut). *)
Fixpoint cut (pat s : text) : option (text * text) :=
  if starts_with pat s then Some ([], skipn (List.length pat) s)
  else
    match s with
    | [] => None
    | c :: s' =>
        match cut pat s' with
        | Some (pre, post) => Some (c :: pre, post)
        | None => None
        end
    end.

(** Number of positions of [s] at which [pat] occurs. *)
Fixpoint occurrences (pat s : text) : nat :=
  match s with
  | [] => 0%nat
  | _ :: s' => ((if starts_with pat s then 1 else 0) + occurrences pat s')%nat
  end.

(** ECMAScript GetSubstitution for a string pattern (no captures):
    [$$] is a dollar sign, [$&] the matched text, [$`] the text before the
    match, [$'] the text after it; any other [$] stays as it is. *)
Fixpoint get_substitution (matched pre post repl : text) : text :=
  match repl with
  | [] => []
  | c :: r =>
      if c =? 36 then
        match r with
        | d :: r' =>
            if d =? 36 then 36 :: get_substitution matched pre post r'
            else if d =? 38 then matched ++ get_substitution matched pre post r'
            else if d =? 96 then pre ++ get_substitution matched pre post r'
            else if d =? 39 then post ++ get_substitution matched pre post r'
            else c :: get_substitution matched pre post r
        | [] => [c]
        end
      else c :: get_substitution matched pre post r
  end.

(** [s.replace(pat, repl)] with a string pattern: only the first occurrence
    is replaced, and [repl] goes through GetSubstitution. *)
Definition replace_first (pat repl s : text) : text :=
  match cut pat s with
  | Some (pre, post) => pre ++ get_substitution pat pre post repl ++ post
  | None => s
  end.

(** ASCII part of [toLowerCase]. *)
Definition lower (c : char) : char :=
  if (65 <=? c) && (c <=? 90) then c + 32 else c.

Definition to_lower (s : text) : text := map lower s.

(** [s.split(sep)] for a one-character separator. *)
Fixpoint split (sep : char) (s : text) : list text :=
  match s with
  | [] => [[]]
  | c :: s' =>
      if c =? sep then [] :: split sep s'
      else
        match split sep s' with
        | seg :: segs => (c :: seg) :: segs
        | [] => [[c]]
        end
  end.

(** [parts.join(sep)] *)
Fixpoint join (sep : text) (parts : list text) : text :=
  match parts with
  | [] => []
  | [p] => p
  | p :: ps => p ++ sep ++ join sep ps
  end.

End Text.

Import Text.

(* ================================================================== *)
(** * Node's [path] module (POSIX flavour) *)
(* ================================================================== *)

Module Path.

Definition slash : char := 47.
Definition dot : char := 46.

Definition is_absolute (p : text) : bool :=
  match p with
  | c :: _ => c =? slash
  | [] => false
  end.

Definition has_trailing_slash (p : text) : bool :=
  match rev p with
  | c :: _ => c =? slash
  | [] => false
  end.

(** [normalizeString]: the segments are pushed on a stack (kept reversed);
    an empty segment and [.] are dropped, [..] pops the last real segment
    and is otherwise kept only when the path may climb above its start. *)
Fixpoint normalize_segments (allow_above : bool) (stack : list text)
    (segs : list text) : list text :=
  match segs with
  | [] => rev stack
  | seg :: rest =>
      if teqb seg [] || teqb seg [dot] then
        normalize_segments allow_above stack rest
      else if teqb seg [dot; dot] then
        match stack with
        | top :: stack' =>
            if teqb top [dot; dot]
            then normalize_segments allow_above (seg :: stack) rest
            else normalize_segments allow_above stack' rest
        | [] =>
            if allow_above
            then normalize_segments allow_above [seg] rest
            else normalize_segments allow_above [] rest
        end
      else normalize_segments allow_above (seg :: stack) rest
  end.

(** [path.normalize(p)] *)
Definition normalize (p : text) : text :=
  match p with
  | [] => [dot]
  | _ =>
      let abs := is_absolute p in
      let body := join [slash]
                    (normalize_segments (negb abs) [] (split slash p)) in
      match body with
      | [] =>
          if abs then [slash]
          else if has_trailing_slash p then [dot; slash] else [dot]
      | _ =>
          let body' := if has_trailing_slash p then body ++ [slash] else body in
          if abs then slash :: body' else body'
      end
  end.

(** [path.join(a, b)]: empty arguments are skipped, the rest is glued with
    a slash and normalised. *)
Definition join2 (a b : text) : text :=
  match a, b with
  | [], [] => [dot]
  | [], _ => normalize b
  | _, [] => normalize a
  | _, _ => normalize (a ++ slash :: b)
  end.

(** [path.resolve(base, p)] for an absolute [base]: an absolute [p] wins,
    and the result carries no trailing slash. *)
Definition resolve (base p : text) : text :=
  let full := if is_absolute p then p else base ++ slash :: p in
  slash :: join [slash] (normalize_segments false [] (split slash full)).

(** [path.basename(p)] *)
Definition basename (p : text) : text :=
  last (filter (fun s => negb (teqb s [])) (split slash p)) [].

(** [path.extname(p)]: from the last dot of the base name, unless that dot
    is its first character or the base name is [..]. *)
Definition extname (p : text) : text :=
  let b := basename p in
  match cut [dot] (rev b) with
  | None => []
  | Some (rsuffix, rprefix) =>
      match rprefix with
      | [] => []
      | _ =>
          if teqb b [dot; dot] then [] else dot :: rev rsuffix
      end
  end.

(** The segments a path string names once the kernel walks it. *)
Definition components (p : text) : list text :=
  filter (fun s => negb (teqb s [])) (split slash p).

End Path.

(* ================================================================== *)
(** * UTF-8, as [Buffer.toString('utf8')] and [Buffer.from(s)] use it *)
(* ================================================================== *)

Module Utf8.

Abbreviation bytes := (list Byte.byte) (only parsing).

Definition replacement : char := 65533.

(** A multi-byte sequence under way: continuation bytes still expected, the
    code point so far, and the range allowed for the next byte. *)
Record pending := { remaining : nat; acc : N; lo : N; hi : N }.

(** A byte met with no sequence under way. *)
Definition lead (b : N) : text * option pending :=
  if b <=? 127 then ([b], None)
  else if (194 <=? b) && (b <=? 223) then
    ([], Some {| remaining := 1; acc := b - 192; lo := 128; hi := 191 |})
  else if (224 <=? b) && (b <=? 239) then
    ([], Some {| remaining := 2; acc := b - 224;
                 lo := if b =? 224 then 160 else 128;
                 hi := if b =? 237 then 159 else 191 |})
  else if (240 <=? b) && (b <=? 244) then
    ([], Some {| remaining := 3; acc := b - 240;
                 lo := if b =? 240 then 144 else 128;
                 hi := if b =? 244 then 143 else 191 |})
  else ([replacement], None).

(** The decoder replaces every ill-formed subsequence by U+FFFD and takes
    the offending byte up again as the start of a new sequence. *)
Fixpoint decode_from (p : option pending) (bs : list N) : text :=
  match bs with
  | [] => match p with Some _ => [replacement] | None => [] end
  | b :: bs' =>
      match p with
      | None => let '(out, p') := lead b in out ++ decode_from p' bs'
      | Some s =>
          if (lo s <=? b) && (b <=? hi s) then
            let cp := acc s * 64 + (b - 128) in
            match remaining s with
            | S (S k) =>
                decode_from
                  (Some {| remaining := S k; acc := cp; lo := 128; hi := 191 |})
                  bs'
            | _ => cp :: decode_from None bs'
            end
          else
            let '(out, p') := lead b in
            replacement :: out ++ decode_from p' bs'
      end
  end.

Definition decode (bs : bytes) : text :=
  decode_from None (map Byte.to_N bs).

Definition byte_of (n : N) : Byte.byte :=
  match Byte.of_N n with
  | Some b => b
  | None => Byte.x00
  end.

Definition encode_char (c : char) : list N :=
  if c <? 128 then [c]
  else if c <? 2048 then [192 + c / 64; 128 + c mod 64]
  else if ((55296 <=? c) && (c <=? 57343)) || (1114111 <? c) then [239; 191; 189]
  else if c <? 65536 then
    [224 + c / 4096; 128 + (c / 64) mod 64; 128 + c mod 64]
  else
    [240 + c / 262144; 128 + (c / 4096) mod 64;
     128 + (c / 64) mod 64; 128 + c mod 64].

Definition encode (s : text) : bytes :=
  map byte_of (flat_map encode_char s).

End Utf8.

(* ================================================================== *)
(** * The file system *)
(* ================================================================== *)

Module FS.

Import Utf8.

Abbreviation name := (list N) (only parsing).
Abbreviation path := (list (list N)) (only parsing).

Inductive node :=
| File (data : bytes)
| Dir (entries : list (name * node)).

Abbreviation entries := (list (list N * node)) (only parsing).

Fixpoint assoc (n : name) (es : entries) : option node :=
  match es with
  | [] => None
  | (m, c) :: es' => if teqb m n then Some c else assoc n es'
  end.

Fixpoint remove_key (n : name) (es : entries) : entries :=
  match es with
  | [] => []
  | (m, c) :: es' =>
      if teqb m n then remove_key n es' else (m, c) :: remove_key n es'
  end.

(** An existing entry keeps its place, a new one goes last. *)
Fixpoint upsert (n : name) (v : node) (es : entries) : entries :=
  match es with
  | [] => [(n, v)]
  | (m, c) :: es' =>
      if teqb m n then (m, v) :: es' else (m, c) :: upsert n v es'
  end.

Definition set_key (n : name) (v : option node) (es : entries) : entries :=
  match v with
  | Some c => upsert n c es
  | None => remove_key n es
  end.

Fixpoint lookup (p : path) (o : option node) : option node :=
  match p with
  | [] => o
  | n :: p' =>
      match o with
      | Some (Dir es) => lookup p' (assoc n es)
      | _ => None
      end
  end.

(** Rewrite what sits at [p]; a path that leads through a missing entry or
    through a file changes nothing. *)
Fixpoint update (p : path) (f : option node -> option node)
    (o : option node) : option node :=
  match p with
  | [] => f o
  | n :: p' =>
      match o with
      | Some (Dir es) => Some (Dir (set_key n (update p' f (assoc n es)) es))
      | _ => o
      end
  end.

(** [mkdir -p]: [None] when a component of the path is a regular file. *)
Fixpoint mkdirp (p : path) (o : option node) : option node :=
  match o with
  | Some (File _) => None
  | None => Some (fold_right (fun n below => Dir [(n, below)]) (Dir []) p)
  | Some (Dir es) =>
      match p with
      | [] => o
      | n :: p' =>
          match mkdirp p' (assoc n es) with
          | Some c => Some (Dir (upsert n c es))
          | None => None
          end
      end
  end.

(** [path.dirname(p)] *)
Definition parent (p : path) : path := removelast p.

Fixpoint is_prefix (p q : path) : bool :=
  match p with
  | [] => true
  | n :: p' =>
      match q with
      | [] => false
      | m :: q' => teqb n m && is_prefix p' q'
      end
  end.

(** [fs-extra]'s recursive copy of one node onto what the destination
    holds: files overwrite files, directories merge, and a file meeting a
    directory (either way round) stops the copy where it stands.  The flag
    tells whether the copy ran to its end. *)
Fixpoint copy_node (src : node) (dst : option node) : bool * option node :=
  match src with
  | File d =>
      match dst with
      | Some (Dir _) => (false, dst)
      | _ => (true, Some (File d))
      end
  | Dir es =>
      match dst with
      | Some (File _) => (false, dst)
      | _ =>
          let ds := match dst with Some (Dir ds) => ds | _ => [] end in
          let fix members (es : entries) (ds : entries) : bool * entries :=
            match es with
            | [] => (true, ds)
            | (n, c) :: es' =>
                match copy_node c (assoc n ds) with
                | (true, c') => members es' (set_key n c' ds)
                | (false, c') => (false, set_key n c' ds)
                end
            end in
          let '(ok, ds') := members es ds in
          (ok, Some (Dir ds'))
      end
  end.

End FS.

(* ================================================================== *)
(** * Commands: a state monad over the disk and what the command emits *)
(* ================================================================== *)

Module Cmd.

Import Utf8 FS.

(** What a command prints; only the lines the statements speak of carry
    their own constructor. *)
Inductive message :=
| ManifestNotFound
| DistNotFound
| MissingRequiredFiles (files : list text)
| EntryNotFound
| BuildCompleted
| BundleCompleted
| PackagedSuccessfully (package_file : text)
| PackageFileValid
| PackageFileEmpty
| Failed (stage : text)
| Info (line : text).

Inductive event :=
| PathExists (p : path)
| Stat (p : path)
| ReadDir (p : path)
| ReadFile (p : path)
| WriteFile (p : path)
| Remove (p : path)
| EnsureDir (p : path)
| Copy (src dst : path)
| Print (m : message).

Record world := { disk : option node; log : list event }.

(** [None] as a result is a thrown exception (a rejected promise). *)
Definition M (A : Type) := world -> option A * world.

Definition ret {A} (a : A) : M A := fun w => (Some a, w).

Definition bind {A B} (m : M A) (k : A -> M B) : M B :=
  fun w =>
    match m w with
    | (Some a, w') => k a w'
    | (None, w') => (None, w')
    end.

Definition throw {A} : M A := fun w => (None, w).

Definition try_catch {A} (m : M A) (handler : M A) : M A :=
  fun w =>
    match m w with
    | (Some a, w') => (Some a, w')
    | (None, w') => handler w'
    end.

Definition emit (e : event) : M unit :=
  fun w => (Some tt, {| disk := disk w; log := log w ++ [e] |}).

Definition print (m : message) : M unit := emit (Print m).

Definition get_disk : M (option node) := fun w => (Some (disk w), w).

Definition put_disk (d : option node) : M unit :=
  fun w => (Some tt, {| disk := d; log := log w |}).

Declare Scope cmd_scope.
Delimit Scope cmd_scope with cmd.
Notation "x <- m ;; k" := (bind m (fun x => k))
  (at level 61, m at next level, right associativity) : cmd_scope.
Notation "m ;;; k" := (bind m (fun _ => k))
  (at level 61, right associativity) : cmd_scope.
Local Open Scope cmd_scope.

(** [for (const x of xs) body(x)] *)
Fixpoint for_each {A} (xs : list A) (body : A -> M unit) : M unit :=
  match xs with
  | [] => ret tt
  | x :: xs' => body x ;;; for_each xs' body
  end.

(** [fs.pathExists(p)] *)
Definition pathExists (p : path) : M bool :=
  emit (PathExists p) ;;;
  d <- get_disk ;;
  ret (match lookup p d with Some _ => true | None => false end).

(** [(await fs.stat(p)).isDirectory()] *)
Definition isDirectory (p : path) : M bool :=
  emit (Stat p) ;;;
  d <- get_disk ;;
  match lookup p d with
  | Some (Dir _) => ret true
  | Some (File _) => ret false
  | None => throw
  end.

(** [(await fs.stat(p)).size] *)
Definition fileSize (p : path) : M nat :=
  emit (Stat p) ;;;
  d <- get_disk ;;
  match lookup p d with
  | Some (File data) => ret (List.length data)
  | Some (Dir _) => ret 0%nat
  | None => throw
  end.

(** [fs.readdir(p)] *)
Definition readdir (p : path) : M (list name) :=
  emit (ReadDir p) ;;;
  d <- get_disk ;;
  match lookup p d with
  | Some (Dir es) => ret (map fst es)
  | _ => throw
  end.

(** [fs.readFile(p)] *)
Definition readFile (p : path) : M bytes :=
  emit (ReadFile p) ;;;
  d <- get_disk ;;
  match lookup p d with
  | Some (File data) => ret data
  | _ => throw
  end.

(** [fs.readFile(p, 'utf8')] *)
Definition readFileUtf8 (p : path) : M text :=
  data <- readFile p ;; ret (decode data).

(** [fs.writeFile(p, data)]: the directory must be there, and [p] must not
    name a directory. *)
Definition writeFile (p : path) (data : bytes) : M unit :=
  emit (WriteFile p) ;;;
  d <- get_disk ;;
  match p with
  | [] => throw
  | _ =>
      match lookup (parent p) d, lookup p d with
      | Some (Dir _), Some (Dir _) => throw
      | Some (Dir _), _ => put_disk (update p (fun _ => Some (File data)) d)
      | _, _ => throw
      end
  end.

(** [fs.writeFile(p, string)] *)
Definition writeFileText (p : path) (s : text) : M unit :=
  writeFile p (encode s).

(** [fs.remove(p)]: nothing happens when [p] does not exist. *)
Definition remove (p : path) : M unit :=
  emit (Remove p) ;;;
  d <- get_disk ;;
  put_disk (update p (fun _ => None) d).

(** [fs.ensureDir(p)] *)
Definition ensureDir (p : path) : M unit :=
  emit (EnsureDir p) ;;;
  d <- get_disk ;;
  match mkdirp p d with
  | Some d' => put_disk (Some d')
  | None => throw
  end.

(** [fs.copy(src, dst)]: the source must exist, the destination must lie
    outside it, and the destination's directory is created. *)
Definition copy (src dst : path) : M unit :=
  emit (Copy src dst) ;;;
  d <- get_disk ;;
  match lookup src d with
  | None => throw
  | Some s =>
      if is_prefix src dst then throw
      else
        match mkdirp (parent dst) d with
        | None => throw
        | Some d' =>
            let '(ok, c) := copy_node s (lookup dst (Some d')) in
            put_disk (update dst (fun _ => c) (Some d')) ;;;
            if ok then ret tt else throw
        end
  end.

(** What a command leaves behind, started on a disk with nothing logged. *)
Definition run {A} (m : M A) (d : option node) : option A * world :=
  m {| disk := d; log := [] |}.

Definition disk_after {A} (m : M A) (d : option node) : option node :=
  disk (snd (run m d)).

Definition log_after {A} (m : M A) (d : option node) : list event :=
  log (snd (run m d)).

Definition result_of {A} (m : M A) (d : option node) : option A :=
  fst (run m d).

(** The lines printed, in order. *)
Definition lines (l : list event) : list message :=
  flat_map (fun e => match e with Print m => [m] | _ => [] end) l.

Definition lines_after {A} (m : M A) (d : option node) : list message :=
  lines (log_after m d).

End Cmd.

(* ================================================================== *)
(** * The development server ([serve.js]) *)
(* ================================================================== *)

Module DevServer.

Import Utf8 FS Cmd.
Local Open Scope cmd_scope.

Record response := {
  status : N;
  content_type : option text;
  body : bytes
}.

Definition plain (code : N) (msg : string) : response :=
  {| status := code; content_type := None; body := encode (lit msg) |}.

(** The [mimeTypes] table. *)
Definition mimeTypes : list (text * text) :=
  [ (lit ".html", lit "text/html");
    (lit ".css", lit "text/css");
    (lit ".js", lit "application/javascript");
    (lit ".json", lit "application/json");
    (lit ".png", lit "image/png");
    (lit ".jpg", lit "image/jpeg");
    (lit ".jpeg", lit "image/jpeg");
    (lit ".gif", lit "image/gif");
    (lit ".svg", lit "image/svg+xml");
    (lit ".ico", lit "image/x-icon");
    (lit ".woff", lit "font/woff");
    (lit ".woff2", lit "font/woff2");
    (lit ".ttf", lit "font/ttf");
    (lit ".eot", lit "application/vnd.ms-fontobject") ].

Fixpoint table_get (k : text) (t : list (text * text)) : option text :=
  match t with
  | [] => None
  | (k', v) :: t' => if teqb k' k then Some v else table_get k t'
  end.

(** [mimeTypes[ext] || 'application/octet-stream'] *)
Definition content_type_of (ext : text) : text :=
  match table_get ext mimeTypes with
  | Some v => v
  | None => lit "application/octet-stream"
  end.

Definition liveReloadScript : text := lit "
<script>
  // Live reload for development
  (function() {
    let lastCheck = Date.now();
    setInterval(async () => {
      try {
        const res = await fetch('/__reload_check?t=' + lastCheck);
        const data = await res.json();
        if (data.reload) {
          location.reload();
        }
        lastCheck = Date.now();
      } catch (e) {}
    }, 1000);
  })();
</script>
".

Definition closing_body : text := lit "</body>".

(** The node a path string names: a trailing slash asks for a directory. *)
Definition node_at (s : text) (d : option node) : option node :=
  match lookup (Path.components s) d with
  | Some (File x) =>
      if Path.has_trailing_slash s then None else Some (File x)
  | o => o
  end.

Definition pathExistsAt (s : text) : M bool :=
  emit (PathExists (Path.components s)) ;;;
  d <- get_disk ;;
  ret (match node_at s d with Some _ => true | None => false end).

Definition isDirectoryAt (s : text) : M bool :=
  emit (Stat (Path.components s)) ;;;
  d <- get_disk ;;
  match node_at s d with
  | Some (Dir _) => ret true
  | Some (File _) => ret false
  | None => throw
  end.

Definition readFileAt (s : text) : M bytes :=
  emit (ReadFile (Path.components s)) ;;;
  d <- get_disk ;;
  match node_at s d with
  | Some (File data) => ret data
  | _ => throw
  end.

(** The response built from the file that is served. *)
Definition respond (filePath : text) (content : bytes) : response :=
  let ext := to_lower (Path.extname filePath) in
  let contentType := content_type_of ext in
  if teqb ext (lit ".html") then
    let modifiedContent :=
      replace_first closing_body (liveReloadScript ++ closing_body)
        (decode content) in
    {| status := 200; content_type := Some contentType;
       body := encode modifiedContent |}
  else
    {| status := 200; content_type := Some contentType; body := content |}.

Definition send (filePath : text) : M response :=
  content <- readFileAt filePath ;;
  ret (respond filePath content).

Definition serve_found (filePath : text) : M response :=
  isDir <- isDirectoryAt filePath ;;
  if isDir then
    let filePath' := Path.join2 filePath (lit "index.html") in
    found <- pathExistsAt filePath' ;;
    if found then send filePath' else ret (plain 404 "Not Found")
  else send filePath.

(** The request listener given to [http.createServer]; the server's
    console output is left out. *)
Definition handler (projectDir url : text) : M response :=
  let filePath :=
    Path.join2 projectDir
      (if teqb url (lit "/") then lit "index.html" else url) in
  if negb (starts_with projectDir filePath) then ret (plain 403 "Forbidden")
  else
    try_catch
      (found <- pathExistsAt filePath ;;
       if found then serve_found filePath
       else
         found' <- pathExistsAt (filePath ++ lit ".html") ;;
         if found' then serve_found (filePath ++ lit ".html")
         else ret (plain 404 "Not Found"))
      (ret (plain 500 "Internal Server Error")).

(** A path lies inside the project when, component by component, it goes
    through the project root. *)
Definition inside (projectDir filePath : text) : bool :=
  is_prefix (Path.components projectDir) (Path.components filePath).

(** The marker by which the injected fragment is recognised in a page: the
    endpoint it polls. *)
Definition reload_marker : text := lit "/__reload_check".

End DevServer.

(* ================================================================== *)
(** * The minification passes ([build.js]) *)
(* ================================================================== *)

Module Minify.

(** [\s] of a regular expression, which is also what [trim] removes. *)
Definition is_space (c : char) : bool :=
  ((9 <=? c) && (c <=? 13)) || (c =? 32) || (c =? 160) || (c =? 5760)
  || ((8192 <=? c) && (c <=? 8202)) || (c =? 8232) || (c =? 8233)
  || (c =? 8239) || (c =? 8287) || (c =? 12288) || (c =? 65279).

(** What [.] does not match and what [^] and [$] look at under the [m]
    flag. *)
Definition is_line_terminator (c : char) : bool :=
  (c =? 10) || (c =? 13) || (c =? 8232) || (c =? 8233).

Fixpoint take_while (p : char -> bool) (s : text) : text :=
  match s with
  | [] => []
  | c :: s' => if p c then c :: take_while p s' else []
  end.

Fixpoint drop_while (p : char -> bool) (s : text) : text :=
  match s with
  | [] => []
  | c :: s' => if p c then drop_while p s' else s
  end.

(** Length of the run of white space a text starts with. *)
Definition blanks (s : text) : nat := List.length (take_while is_space s).

(** [s.trim()] *)
Definition trim (s : text) : text :=
  rev (drop_while is_space (rev (drop_while is_space s))).

(** All the passes below are global replacements: the text is scanned from
    the left, a match is replaced and the scan goes on behind it.  [skip]
    counts the characters of the current match still to be passed over. *)

(** [.replace(/OP[\s\S]*?CL/g, '')]: from an opener to the first closer
    behind it; an opener with no closer behind it stays. *)
Fixpoint strip_delimited (op cl : text) (skip : nat) (s : text) : text :=
  match s with
  | [] => []
  | c :: s' =>
      match skip with
      | S k => strip_delimited op cl k s'
      | O =>
          if starts_with op s then
            match cut cl (skipn (List.length op) s) with
            | Some (inner, _) =>
                strip_delimited op cl
                  (List.length op + List.length inner + List.length cl - 1) s'
            | None => c :: strip_delimited op cl 0 s'
            end
          else c :: strip_delimited op cl 0 s'
      end
  end.

Definition gt : char := 62.
Definition lt : char := 60.

(** White space to drop behind a [>]: a run of it that ends at a [<]. *)
Definition gap (s : text) : nat :=
  match drop_while is_space s with
  | c :: _ => if c =? lt then blanks s else 0%nat
  | [] => 0%nat
  end.

(** [.replace(/>\s+</g, '><')] *)
Fixpoint between_tags (skip : nat) (s : text) : text :=
  match s with
  | [] => []
  | c :: s' =>
      match skip with
      | S k => between_tags k s'
      | O => c :: between_tags (if c =? gt then gap s' else 0%nat) s'
      end
  end.

(** [.replace(/\s{2,}/g, ' ')] *)
Fixpoint collapse_runs (skip : nat) (s : text) : text :=
  match s with
  | [] => []
  | c :: s' =>
      match skip with
      | S k => collapse_runs k s'
      | O =>
          if is_space c then
            match blanks s' with
            | O => c :: collapse_runs 0 s'
            | n => 32 :: collapse_runs n s'
            end
          else c :: collapse_runs 0 s'
      end
  end.

Definition minifyHtml (content : text) : text :=
  trim
    (collapse_runs 0
       (between_tags 0
          (strip_delimited (lit "<!--") (lit "-->") 0 content))).

(** [.replace(/\s+/g, ' ')] *)
Fixpoint single_spaces (skip : nat) (s : text) : text :=
  match s with
  | [] => []
  | c :: s' =>
      match skip with
      | S k => single_spaces k s'
      | O =>
          if is_space c then 32 :: single_spaces (blanks s') s'
          else c :: single_spaces 0 s'
      end
  end.

(** The class [[{:;,}]]. *)
Definition is_punct (c : char) : bool :=
  (c =? 123) || (c =? 58) || (c =? 59) || (c =? 44) || (c =? 125).

(** [.replace(/\s*([{:;,}])\s*/g, '$1')]: a match starts where a run of
    white space (possibly empty) is followed by one of the five
    characters, and takes the white space behind that character too. *)
Fixpoint tighten (skip : nat) (s : text) : text :=
  match s with
  | [] => []
  | c :: s' =>
      match skip with
      | S k => tighten k s'
      | O =>
          match drop_while is_space s with
          | p :: after =>
              if is_punct p then p :: tighten (blanks s + blanks after) s'
              else c :: tighten 0 s'
          | [] => c :: tighten 0 s'
          end
      end
  end.

(** [.replace(/;}/g, '}')] *)
Fixpoint drop_last_semicolon (skip : nat) (s : text) : text :=
  match s with
  | [] => []
  | c :: s' =>
      match skip with
      | S k => drop_last_semicolon k s'
      | O =>
          if (c =? 59) && starts_with [125] s'
          then 125 :: drop_last_semicolon 1 s'
          else c :: drop_last_semicolon 0 s'
      end
  end.

Definition minifyCss (content : text) : text :=
  trim
    (drop_last_semicolon 0
       (tighten 0
          (single_spaces 0
             (strip_delimited (lit "/*") (lit "*/") 0 content)))).

Definition is_quote (c : char) : bool :=
  (c =? 39) || (c =? 34) || (c =? 96).

(** The rest of the line, up to the next [\n]. *)
Definition to_newline (s : text) : text :=
  take_while (fun c => negb (c =? 10)) s.

(** The first replacement of [minifyJs], on the pattern
    [//], a negative look-ahead for a quote character (single, double or
    back quote) on the rest of the line, then [.*$] under the flags [gm]:
    two slashes with no quote character behind them on the line, and
    everything up to the next line terminator. *)
Fixpoint strip_line_comments (skip : nat) (s : text) : text :=
  match s with
  | [] => []
  | c :: s' =>
      match skip with
      | S k => strip_line_comments k s'
      | O =>
          if starts_with (lit "//") s
             && negb (existsb is_quote (to_newline (skipn 2 s)))
          then
            strip_line_comments
              (1 + List.length
                     (take_while (fun c => negb (is_line_terminator c))
                        (skipn 2 s)))
              s'
          else c :: strip_line_comments 0 s'
      end
  end.

(** [.replace(/\n{2,}/g, '\n')] *)
Fixpoint collapse_newlines (skip : nat) (s : text) : text :=
  match s with
  | [] => []
  | c :: s' =>
      match skip with
      | S k => collapse_newlines k s'
      | O =>
          c :: collapse_newlines
                 (if c =? 10
                  then List.length (take_while (fun c => c =? 10) s')
                  else 0%nat) s'
      end
  end.

(** [.replace(/^\s+/gm, '')]: [line_start] tells whether the character
    before the current one is a line terminator (or there is none). *)
Fixpoint strip_indent (line_start : bool) (skip : nat) (s : text) : text :=
  match s with
  | [] => []
  | c :: s' =>
      match skip with
      | S k => strip_indent (is_line_terminator c) k s'
      | O =>
          if line_start && is_space c
          then strip_indent (is_line_terminator c) (blanks s') s'
          else c :: strip_indent (is_line_terminator c) 0 s'
      end
  end.

Definition minifyJs (content : text) : text :=
  trim
    (strip_indent true 0
       (collapse_newlines 0
          (strip_delimited (lit "/*") (lit "*/") 0
             (strip_line_comments 0 content)))).

End Minify.

(* ================================================================== *)
(** * JSON values, as the manifest and the package info are *)
(* ================================================================== *)

Module Json.

(** Numbers are the integers; an object keeps its members in insertion
    order (member names that look like array indices are not treated
    specially). *)
Inductive json :=
| JNull
| JBool (b : bool)
| JNum (z : Z)
| JStr (s : text)
| JArr (items : list json)
| JObj (members : list (text * json)).

Abbreviation members_of := (list (list N * json)) (only parsing).

Fixpoint get_member (k : text) (ms : members_of) : option json :=
  match ms with
  | [] => None
  | (k', v) :: ms' => if teqb k' k then Some v else get_member k ms'
  end.

(** [obj[k] = v]: an existing member keeps its place. *)
Fixpoint set_member (k : text) (v : json) (ms : members_of) : members_of :=
  match ms with
  | [] => [(k, v)]
  | (k', v') :: ms' =>
      if teqb k' k then (k', v) :: ms' else (k', v') :: set_member k v ms'
  end.

Definition digits (z : Z) : text :=
  lit (NilZero.string_of_int (Z.to_int z)).

Fixpoint index_members (i : Z) (xs : list json) : members_of :=
  match xs with
  | [] => []
  | x :: xs' => (digits i, x) :: index_members (i + 1) xs'
  end.

(** The own enumerable properties [{...value}] copies. *)
Definition spread (j : json) : members_of :=
  match j with
  | JObj ms => ms
  | JArr xs => index_members 0 xs
  | JStr s => index_members 0 (map (fun c => JStr [c]) s)
  | _ => []
  end.

(** [value.k]: reading a property of [null] throws; [Some None] is
    [undefined]. *)
Definition property (k : text) (j : json) : option (option json) :=
  match j with
  | JNull => None
  | JObj ms => Some (get_member k ms)
  | _ => Some None
  end.

(** Whether [value || fallback] keeps [value]. *)
Definition truthy (o : option json) : bool :=
  match o with
  | None => false
  | Some JNull => false
  | Some (JBool b) => b
  | Some (JNum z) => negb (Z.eqb z 0)
  | Some (JStr s) => negb (teqb s [])
  | Some _ => true
  end.

(** The conversion a template literal applies. *)
Fixpoint to_string (j : json) : text :=
  match j with
  | JNull => lit "null"
  | JBool true => lit "true"
  | JBool false => lit "false"
  | JNum z => digits z
  | JStr s => s
  | JArr xs =>
      join (lit ",")
        (map (fun x => match x with JNull => [] | _ => to_string x end) xs)
  | JObj _ => lit "[object Object]"
  end.

Definition to_string_opt (o : option json) : text :=
  match o with
  | Some j => to_string j
  | None => lit "undefined"
  end.

Definition hex_digit (n : N) : char :=
  if n <? 10 then 48 + n else 87 + n.

Definition escape_char (c : char) : text :=
  if c =? 34 then lit "\" ++ [34]
  else if c =? 92 then lit "\\"
  else if c =? 8 then lit "\b"
  else if c =? 12 then lit "\f"
  else if c =? 10 then lit "\n"
  else if c =? 13 then lit "\r"
  else if c =? 9 then lit "\t"
  else if (c <? 32) || ((55296 <=? c) && (c <=? 57343)) then
    lit "\u" ++ [hex_digit (c / 4096); hex_digit ((c / 256) mod 16);
                 hex_digit ((c / 16) mod 16); hex_digit (c mod 16)]
  else [c].

Definition quote (s : text) : text :=
  34 :: flat_map escape_char s ++ [34].

(** [JSON.stringify(value, null, 2)], [indent] being the indentation of
    the line the value starts on. *)
Fixpoint stringify_at (indent : text) (j : json) : text :=
  let inner := indent ++ lit "  " in
  match j with
  | JNull => lit "null"
  | JBool true => lit "true"
  | JBool false => lit "false"
  | JNum z => digits z
  | JStr s => quote s
  | JArr [] => lit "[]"
  | JArr xs =>
      lit "[" ++ [10]
      ++ join (lit "," ++ [10])
           (map (fun x => inner ++ stringify_at inner x) xs)
      ++ [10] ++ indent ++ lit "]"
  | JObj [] => lit "{}"
  | JObj ms =>
      lit "{" ++ [10]
      ++ join (lit "," ++ [10])
           (map (fun kv =>
                   match kv with
                   | (k, v) => inner ++ quote k ++ lit ": " ++ stringify_at inner v
                   end) ms)
      ++ [10] ++ indent ++ lit "}"
  end.

(** What [fs.writeJson(p, value, { spaces: 2 })] writes. *)
Definition stringify (j : json) : text := stringify_at [] j ++ [10].

(** ** A reader for the same values *)

Definition is_json_space (c : char) : bool :=
  (c =? 32) || (c =? 9) || (c =? 10) || (c =? 13).

Fixpoint skip_space (s : text) : text :=
  match s with
  | c :: s' => if is_json_space c then skip_space s' else s
  | [] => []
  end.

Definition hex_value (c : char) : option N :=
  if (48 <=? c) && (c <=? 57) then Some (c - 48)
  else if (97 <=? c) && (c <=? 102) then Some (c - 87)
  else if (65 <=? c) && (c <=? 70) then Some (c - 55)
  else None.

Definition unescape (c : char) : option char :=
  if c =? 34 then Some 34
  else if c =? 92 then Some 92
  else if c =? 47 then Some 47
  else if c =? 98 then Some 8
  else if c =? 102 then Some 12
  else if c =? 110 then Some 10
  else if c =? 114 then Some 13
  else if c =? 116 then Some 9
  else None.

(** The characters of a string literal behind its opening quote. *)
Fixpoint read_string (s : text) : option (text * text) :=
  match s with
  | [] => None
  | c :: s' =>
      if c =? 34 then Some ([], s')
      else if c <? 32 then None
      else if c =? 92 then
        match s' with
        | e :: s'' =>
            if e =? 117 then
              match s'' with
              | a :: b :: x :: y :: rest =>
                  match hex_value a, hex_value b, hex_value x, hex_value y,
                        read_string rest with
                  | Some a', Some b', Some x', Some y', Some (str, rest') =>
                      Some ((a' * 4096 + b' * 256 + x' * 16 + y') :: str, rest')
                  | _, _, _, _, _ => None
                  end
              | _ => None
              end
            else
              match unescape e, read_string s'' with
              | Some u, Some (str, rest') => Some (u :: str, rest')
              | _, _ => None
              end
        | [] => None
        end
      else
        match read_string s' with
        | Some (str, rest') => Some (c :: str, rest')
        | None => None
        end
  end.

Definition is_digit (c : char) : bool := (48 <=? c) && (c <=? 57).

Fixpoint read_digits (acc : Z) (s : text) : Z * text :=
  match s with
  | c :: s' =>
      if is_digit c then read_digits (acc * 10 + Z.of_N (c - 48)) s'
      else (acc, s)
  | [] => (acc, [])
  end.

(** An integer literal: no leading zero, no fraction, no exponent. *)
Definition read_number (s : text) : option (Z * text) :=
  let '(neg, s1) :=
    match s with
    | c :: s' => if c =? 45 then (true, s') else (false, s)
    | [] => (false, s)
    end in
  match s1 with
  | c :: s2 =>
      if is_digit c then
        let '(z, rest) := read_digits 0 s1 in
        let leading_zero := (c =? 48) &&
                            match s2 with d :: _ => is_digit d | [] => false end in
        let more := match rest with
                    | d :: _ => (d =? 46) || (d =? 101) || (d =? 69)
                    | [] => false
                    end in
        if leading_zero || more then None
        else Some (if neg then Z.opp z else z, rest)
      else None
  | [] => None
  end.

Fixpoint read_value (fuel : nat) (s : text) : option (json * text) :=
  match fuel with
  | O => None
  | S fuel' =>
      let s := skip_space s in
      if starts_with (lit "null") s then Some (JNull, skipn 4 s)
      else if starts_with (lit "true") s then Some (JBool true, skipn 4 s)
      else if starts_with (lit "false") s then Some (JBool false, skipn 5 s)
      else
        match s with
        | [] => None
        | c :: s' =>
            if c =? 34 then
              match read_string s' with
              | Some (str, rest) => Some (JStr str, rest)
              | None => None
              end
            else if c =? 91 then
              match skip_space s' with
              | d :: rest =>
                  if d =? 93 then Some (JArr [], rest)
                  else
                    match read_items fuel' s' with
                    | Some (xs, rest') => Some (JArr xs, rest')
                    | None => None
                    end
              | [] => None
              end
            else if c =? 123 then
              match skip_space s' with
              | d :: rest =>
                  if d =? 125 then Some (JObj [], rest)
                  else
                    match read_members fuel' [] s' with
                    | Some (ms, rest') => Some (JObj ms, rest')
                    | None => None
                    end
              | [] => None
              end
            else
              match read_number s with
              | Some (z, rest) => Some (JNum z, rest)
              | None => None
              end
        end
  end

with read_items (fuel : nat) (s : text) : option (list json * text) :=
  match fuel with
  | O => None
  | S fuel' =>
      match read_value fuel' s with
      | Some (x, rest) =>
          match skip_space rest with
          | c :: rest' =>
              if c =? 44 then
                match read_items fuel' rest' with
                | Some (xs, rest'') => Some (x :: xs, rest'')
                | None => None
                end
              else if c =? 93 then Some ([x], rest')
              else None
          | [] => None
          end
      | None => None
      end
  end

with read_members (fuel : nat) (acc : members_of) (s : text)
    : option (members_of * text) :=
  match fuel with
  | O => None
  | S fuel' =>
      match skip_space s with
      | q :: s1 =>
          if q =? 34 then
            match read_string s1 with
            | Some (k, s2) =>
                match skip_space s2 with
                | colon :: s3 =>
                    if colon =? 58 then
                      match read_value fuel' s3 with
                      | Some (v, s4) =>
                          let acc' := set_member k v acc in
                          match skip_space s4 with
                          | c :: s5 =>
                              if c =? 44 then read_members fuel' acc' s5
                              else if c =? 125 then Some (acc', s5)
                              else None
                          | [] => None
                          end
                      | None => None
                      end
                    else None
                | [] => None
                end
            | None => None
            end
          else None
      | [] => None
      end
  end.

(** [JSON.parse(text)]: one value and nothing but white space behind it. *)
Definition parse (s : text) : option json :=
  match read_value (S (List.length s)) s with
  | Some (j, rest) =>
      match skip_space rest with
      | [] => Some j
      | _ => None
      end
  | None => None
  end.

End Json.

(* ================================================================== *)
(** * Reading and writing JSON files; walking the project tree *)
(* ================================================================== *)

Module Project.

Import Utf8 FS Cmd Json.
Local Open Scope cmd_scope.

(** [fs.readJson(p)]: a byte order mark is dropped before parsing. *)
Definition readJson (p : path) : M json :=
  s <- readFileUtf8 p ;;
  let s' := match s with c :: r => if c =? 65279 then r else s | [] => s end in
  match parse s' with
  | Some j => ret j
  | None => throw
  end.

(** [fs.writeJson(p, value, { spaces: 2 })] *)
Definition writeJson (p : path) (j : json) : M unit :=
  writeFileText p (stringify j).

(** [value.k], which throws on [null]. *)
Definition prop (k : string) (j : json) : M (option json) :=
  match property (lit k) j with
  | Some v => ret v
  | None => throw
  end.

(** A value handed to [path.join]: anything but a string is a type error. *)
Definition as_path_argument (o : option json) : M text :=
  match o with
  | Some (JStr s) => ret s
  | _ => throw
  end.

(** [manifest.entryPoint || 'index.html'] as [path.join] takes it. *)
Definition entry_point (manifest : json) : M text :=
  e <- prop "entryPoint" manifest ;;
  if truthy e then as_path_argument e else ret (lit "index.html").

Definition skipped_dirs : list text :=
  [lit "node_modules"; lit "dist"; lit ".git"].

Definition is_skipped (item : text) : bool :=
  existsb (teqb item) skipped_dirs.

(** [findFiles(dir, ext)] on the tree below [dir]: files are listed in the
    order the directories are read, a directory's files where the
    directory stands. *)
Fixpoint find_in (ext : text) (here : path) (n : node) : list path :=
  match n with
  | File _ => []
  | Dir es =>
      (fix walk (es : entries) : list path :=
         match es with
         | [] => []
         | (item, c) :: es' =>
             match c with
             | Dir _ =>
                 if is_skipped item then walk es'
                 else find_in ext (here ++ [item]) c ++ walk es'
             | File _ =>
                 if ends_with ext item then (here ++ [item]) :: walk es'
                 else walk es'
             end
         end) es
  end.

Definition findFiles (dir : path) (ext : string) : M (list path) :=
  emit (ReadDir dir) ;;;
  d <- get_disk ;;
  match lookup dir d with
  | Some (Dir es) => ret (find_in (lit ext) dir (Dir es))
  | _ => throw
  end.

(** [path.relative(projectDir, file)] for a file found below the
    project directory. *)
Definition relative (proj file : path) : path :=
  skipn (List.length proj) file.

Definition render (rel : path) : text := join [Path.slash] rel.

(** The test both loops of the build make on a relative path. *)
Definition in_output_or_deps (relativePath : text) : bool :=
  starts_with (lit "dist") relativePath
  || starts_with (lit "node_modules") relativePath.

(** [calculateDirSize(dir)] *)
Fixpoint size_of (n : node) : nat :=
  match n with
  | File data => List.length data
  | Dir es =>
      (fix total (es : entries) : nat :=
         match es with
         | [] => 0%nat
         | (_, c) :: es' => (size_of c + total es')%nat
         end) es
  end.

Definition calculateDirSize (dir : path) : M nat :=
  emit (ReadDir dir) ;;;
  d <- get_disk ;;
  match lookup dir d with
  | Some (Dir es) => ret (size_of (Dir es))
  | _ => throw
  end.

(** Running [body] on each element and gluing what it returns, as a loop
    with [acc += body(x)] does. *)
Fixpoint gather {A B} (xs : list A) (body : A -> M (list B)) : M (list B) :=
  match xs with
  | [] => ret []
  | x :: xs' =>
      piece <- body x ;;
      rest <- gather xs' body ;;
      ret (piece ++ rest)
  end.

End Project.

(* ================================================================== *)
(** * [build.js]: the build *)
(* ================================================================== *)

Module Build.

Import Utf8 FS Cmd Json Project Minify.
Local Open Scope cmd_scope.

Record options := {
  output : option text;
  minify : bool;
  bundle : bool
}.

(** [options.output || 'dist'] *)
Definition output_name (o : options) : text :=
  match output o with
  | Some (c :: s) => c :: s
  | _ => lit "dist"
  end.

Definition outputDir (projectDir : text) (o : options) : path :=
  Path.components (Path.resolve projectDir (output_name o)).

(** One of the two loops over the style sheets and over the scripts. *)
Definition process_files (proj out : path) (o : options) (ext : string)
    (minifier : text -> text) : M unit :=
  files <- findFiles proj ext ;;
  for_each files (fun file =>
    let rel := relative proj file in
    if in_output_or_deps (render rel) then ret tt
    else
      content <- readFileUtf8 file ;;
      let content := if minify o then minifier content else content in
      let destPath := out ++ rel in
      ensureDir (parent destPath) ;;;
      writeFileText destPath content).

(** What a member of the library directory is written back as. *)
Definition lib_content (o : options) (file : name) (content : text) : text :=
  if minify o && ends_with (lit ".js") file then minifyJs content
  else if minify o && ends_with (lit ".css") file then minifyCss content
  else content.

Definition copy_lib (proj out : path) (o : options) : M unit :=
  let libDir := proj ++ [lit "lib"] in
  found <- pathExists libDir ;;
  if found then
    libFiles <- readdir libDir ;;
    ensureDir (out ++ [lit "lib"]) ;;;
    for_each libFiles (fun file =>
      content <- readFileUtf8 (libDir ++ [file]) ;;
      writeFileText (out ++ [lit "lib"; file]) (lib_content o file content))
  else ret tt.

(** [{ ...manifest, buildDate, buildMode: 'production' }] *)
Definition prodManifest (manifest : json) (now : text) : json :=
  JObj (set_member (lit "buildMode") (JStr (lit "production"))
          (set_member (lit "buildDate") (JStr now) (spread manifest))).

(** Everything the build does once the output directory is clean. *)
Definition fill_output (projectDir : text) (o : options) (manifest : json)
    : M unit :=
  let proj := Path.components projectDir in
  let out := outputDir projectDir o in
  entry <- entry_point manifest ;;
  let htmlPath := Path.components (Path.join2 projectDir entry) in
  found <- pathExists htmlPath ;;
  (if found then
     htmlContent <- readFileUtf8 htmlPath ;;
     let htmlContent := if minify o then minifyHtml htmlContent
                        else htmlContent in
     writeFileText (out ++ [lit "index.html"]) htmlContent
   else print EntryNotFound) ;;;
  process_files proj out o ".css" minifyCss ;;;
  process_files proj out o ".js" minifyJs ;;;
  (let assetsDir := proj ++ [lit "assets"] in
   found <- pathExists assetsDir ;;
   if found then copy assetsDir (out ++ [lit "assets"]) else ret tt) ;;;
  copy_lib proj out o.

Definition write_manifest (projectDir : text) (o : options) (manifest : json)
    (now : text) : M unit :=
  let out := outputDir projectDir o in
  writeJson (out ++ [lit "manifest.json"]) (prodManifest manifest now) ;;;
  _ <- calculateDirSize out ;;
  print BuildCompleted.

(** The body of [buildCommand] when [options.bundle] is not set. *)
Definition build_tree (projectDir : text) (o : options) (now : text)
    : M unit :=
  let proj := Path.components projectDir in
  let out := outputDir projectDir o in
  let manifestPath := proj ++ [lit "manifest.json"] in
  found <- pathExists manifestPath ;;
  if negb found then print ManifestNotFound
  else
    manifest <- readJson manifestPath ;;
    _ <- prop "name" manifest ;;
    remove out ;;;
    ensureDir out ;;;
    fill_output projectDir o manifest ;;;
    write_manifest projectDir o manifest now.

End Build.

(* ================================================================== *)
(** * [build.js]: the single-file bundle *)
(* ================================================================== *)

Module Bundle.

Import Utf8 FS Cmd Json Project Minify Build.
Local Open Scope cmd_scope.

(** Comparison under the [i] flag: ASCII letters fold, nothing else does. *)
Fixpoint starts_with_ci (p s : text) : bool :=
  match p with
  | [] => true
  | x :: p' =>
      match s with
      | [] => false
      | y :: s' => (lower x =? lower y) && starts_with_ci p' s'
      end
  end.

Fixpoint includes_ci (p s : text) : bool :=
  starts_with_ci p s ||
  match s with
  | [] => false
  | _ :: s' => includes_ci p s'
  end.

Definition not_gt (c : char) : bool := negb (c =? 62).
Definition not_dquote (c : char) : bool := negb (c =? 34).

Definition rel_stylesheet : text := lit "rel=" ++ [34] ++ lit "stylesheet" ++ [34].
Definition src_open : text := lit "src=" ++ [34].

(** Length of the match of the link pattern [<link], any characters but
    [>], [rel=] and the quoted word [stylesheet], any characters but [>],
    and [>], at the start of [s]. *)
Definition link_match (s : text) : option nat :=
  if starts_with_ci (lit "<link") s then
    let after := skipn 5 s in
    let inside := take_while not_gt after in
    match drop_while not_gt after with
    | _ :: _ =>
        if includes_ci rel_stylesheet inside
        then Some (5 + List.length inside + 1)%nat
        else None
    | [] => None
    end
  else None.

(** [.replace(LINK, '')] under the flags [gi]. *)
Fixpoint strip_links (skip : nat) (s : text) : text :=
  match s with
  | [] => []
  | c :: s' =>
      match skip with
      | S k => strip_links k s'
      | O =>
          match link_match s with
          | Some (S n) => strip_links n s'
          | _ => c :: strip_links 0 s'
          end
      end
  end.

(** With the [src=] attribute opening at offset [k] behind [<script]: the
    quoted value runs to the next double quote, the tag to the next [>],
    and [</script>] has to follow at once.  The result is the length of
    what follows [<script]. *)
Definition script_tail (after : text) (k : nat) : option nat :=
  let at_src := skipn k after in
  if starts_with_ci src_open at_src then
    let value_on := skipn 5 at_src in
    let value := take_while not_dquote value_on in
    match drop_while not_dquote value_on with
    | _ :: behind_quote =>
        let attrs := take_while not_gt behind_quote in
        match drop_while not_gt behind_quote with
        | _ :: behind_tag =>
            if starts_with_ci (lit "</script>") behind_tag
            then Some (k + 5 + List.length value + 1
                       + List.length attrs + 1 + 9)%nat
            else None
        | [] => None
        end
    | [] => None
    end
  else None.

(** The first offset, from the candidates tried in order, that works. *)
Fixpoint first_tail (after : text) (ks : list nat) : option nat :=
  match ks with
  | [] => None
  | k :: ks' =>
      match script_tail after k with
      | Some n => Some n
      | None => first_tail after ks'
      end
  end.

(** Length of the match of the script pattern at the start of [s]: the
    first [[^>]*] is greedy, so the attribute is looked for from the
    right end of the run of characters other than [>]. *)
Definition script_match (s : text) : option nat :=
  if starts_with_ci (lit "<script") s then
    let after := skipn 7 s in
    let inside := take_while not_gt after in
    match first_tail after (rev (seq 0 (S (List.length inside)))) with
    | Some n => Some (7 + n)%nat
    | None => None
    end
  else None.

(** [.replace(SCRIPT, '')] under the flags [gi]. *)
Fixpoint strip_scripts (skip : nat) (s : text) : text :=
  match s with
  | [] => []
  | c :: s' =>
      match skip with
      | S k => strip_scripts k s'
      | O =>
          match script_match s with
          | Some (S n) => strip_scripts n s'
          | _ => c :: strip_scripts 0 s'
          end
      end
  end.

Definition closing_head : text := lit "</head>".
Definition closing_body : text := lit "</body>".

Definition style_block (allCss : text) : text :=
  lit "<style>" ++ [10] ++ allCss ++ [10] ++ lit "</style>" ++ [10]
  ++ closing_head.

Definition script_block (allJs : text) : text :=
  lit "<script>" ++ [10] ++ allJs ++ [10] ++ lit "</script>" ++ [10]
  ++ closing_body.

(** The page with the external references removed and the two blocks put
    in. *)
Definition inline (htmlContent allCss allJs : text) : text :=
  let stripped := strip_scripts 0 (strip_links 0 htmlContent) in
  replace_first closing_body (script_block allJs)
    (replace_first closing_head (style_block allCss) stripped).

(** A file's content under a comment that names it. *)
Definition chunk (label content : text) : text :=
  lit "/* " ++ label ++ lit " */" ++ [10] ++ content ++ [10; 10].

Definition collect_css (proj : path) : M text :=
  cssFiles <- findFiles proj ".css" ;;
  gather cssFiles (fun cssFile =>
    let relativePath := render (relative proj cssFile) in
    if in_output_or_deps relativePath then ret []
    else
      cssContent <- readFileUtf8 cssFile ;;
      ret (chunk relativePath cssContent)).

Definition collect_lib_js (proj : path) : M text :=
  let libDir := proj ++ [lit "lib"] in
  found <- pathExists libDir ;;
  if found then
    libFiles <- readdir libDir ;;
    gather libFiles (fun file =>
      if ends_with (lit ".js") file then
        jsContent <- readFileUtf8 (libDir ++ [file]) ;;
        ret (chunk (lit "lib/" ++ file) jsContent)
      else ret [])
  else ret [].

(** The test of the loop over the scripts of the project. *)
Definition skipped_script (relativePath : text) : bool :=
  in_output_or_deps relativePath || starts_with (lit "lib") relativePath.

Definition collect_main_js (proj : path) : M text :=
  jsFiles <- findFiles proj ".js" ;;
  gather jsFiles (fun jsFile =>
    let relativePath := render (relative proj jsFile) in
    if skipped_script relativePath then ret []
    else
      jsContent <- readFileUtf8 jsFile ;;
      ret (chunk relativePath jsContent)).

(** The bundled page, from what was read. *)
Definition bundle_page (o : options) (htmlContent allCss allJs : text)
    : text :=
  let allCss := if minify o then minifyCss allCss else allCss in
  let allJs := if minify o then minifyJs allJs else allJs in
  let bundledHtml := inline htmlContent allCss allJs in
  if minify o then minifyHtml bundledHtml else bundledHtml.

Definition buildBundled (projectDir : text) (o : options) : M unit :=
  let proj := Path.components projectDir in
  let outText := Path.resolve projectDir (output_name o) in
  let out := Path.components outText in
  let manifestPath := proj ++ [lit "manifest.json"] in
  found <- pathExists manifestPath ;;
  if negb found then print ManifestNotFound
  else
    manifest <- readJson manifestPath ;;
    _ <- prop "name" manifest ;;
    id <- prop "id" manifest ;;
    ensureDir out ;;;
    entry <- entry_point manifest ;;
    let htmlPath := Path.components (Path.join2 projectDir entry) in
    found <- pathExists htmlPath ;;
    if negb found then print EntryNotFound
    else
      htmlContent <- readFileUtf8 htmlPath ;;
      allCss <- collect_css proj ;;
      libJs <- collect_lib_js proj ;;
      mainJs <- collect_main_js proj ;;
      let finalHtml := bundle_page o htmlContent allCss (libJs ++ mainJs) in
      let outputFileName := to_string_opt id ++ lit ".html" in
      let outputPath := Path.components (Path.join2 outText outputFileName) in
      writeFileText outputPath finalHtml ;;;
      _ <- fileSize outputPath ;;
      print BundleCompleted.

(** [buildCommand(options)], run in [projectDir] at the time [now]. *)
Definition buildCommand (projectDir : text) (o : options) (now : text)
    : M unit :=
  try_catch
    (if bundle o then buildBundled projectDir o
     else build_tree projectDir o now)
    (print (Failed (lit "Build failed"))).

End Bundle.

(* ================================================================== *)
(** * [package.js]: the packager *)
(* ================================================================== *)

Module Package.

Import Utf8 FS Cmd Json Project.
Local Open Scope cmd_scope.

Record options := { output : option text }.

(** What goes into the archive: a name and, for a file, its bytes. *)
Abbreviation archive_entry := (list N * option (list Byte.byte))%type (only parsing).

(** The archiver ([archiver('zip', ...)] piped into the output file): the
    bytes that end up in the file for a list of entries. *)
Abbreviation archiver :=
  (list (list N * option (list Byte.byte)) -> list Byte.byte) (only parsing).

(** [archive.directory(dir, prefix)]: everything below [dir]. *)
Fixpoint entries_below (prefix : text) (n : node) : list archive_entry :=
  match n with
  | File data => [(prefix, Some data)]
  | Dir es =>
      (fix members (es : entries) : list archive_entry :=
         match es with
         | [] => []
         | (item, c) :: es' =>
             let name :=
               match prefix with
               | [] => item
               | _ => prefix ++ Path.slash :: item
               end in
             match c with
             | File data => (name, Some data) :: members es'
             | Dir _ => (name, None) :: entries_below name c ++ members es'
             end
         end) es
  end.

Definition requiredFiles : list text := [lit "index.html"; lit "manifest.json"].

Definition filesToInclude : list text :=
  [lit "index.html"; lit "styles.css"; lit "main.js"; lit "manifest.json"].

Definition optionalFiles : list text :=
  [lit "payment-handler.js"; lit "report-generator.js"].

(** [archive.file(p, { name })] guarded by [fs.existsSync(p)]. *)
Definition file_entry (sourceDir : path) (d : option node) (file : text)
    : list archive_entry :=
  match lookup (sourceDir ++ [file]) d with
  | Some (File data) => [(file, Some data)]
  | Some (Dir _) => [(file, None)]
  | None => []
  end.

(** [archive.directory(p, name)] guarded by [fs.existsSync(p)]. *)
Definition directory_entry (sourceDir : path) (d : option node) (dir : text)
    : list archive_entry :=
  match lookup (sourceDir ++ [dir]) d with
  | Some n => entries_below dir n
  | None => []
  end.

(** The entries handed to the archiver. *)
Definition archive_entries (proj : path) (from_dist : bool) (d : option node)
    : list archive_entry :=
  if from_dist then
    match lookup (proj ++ [lit "dist"]) d with
    | Some n => entries_below [] n
    | None => []
    end
  else
    flat_map (file_entry proj d) filesToInclude
    ++ flat_map (file_entry proj d) optionalFiles
    ++ directory_entry proj d (lit "assets")
    ++ directory_entry proj d (lit "lib").

(** The loop over [requiredFiles]. *)
Definition missing_files (proj sourceDir : path) (from_dist : bool)
    : M (list text) :=
  gather requiredFiles (fun file =>
    found <- pathExists (sourceDir ++ [file]) ;;
    if found then ret []
    else if from_dist then
      at_root <- pathExists (proj ++ [file]) ;;
      if at_root then ret [] else ret [file]
    else ret [file]).

(** The class [[^a-z0-9-_]] of the replacement in [sanitizedName]. *)
Definition is_name_char (c : char) : bool :=
  ((97 <=? c) && (c <=? 122)) || ((48 <=? c) && (c <=? 57))
  || (c =? 45) || (c =? 95).

(** [toLowerCase]: beyond the ASCII letters, the Kelvin sign becomes [k]
    and the dotted capital I becomes [i] with a combining dot; no other
    character turns into an ASCII one. *)
Definition toLowerCase (s : text) : text :=
  flat_map (fun c =>
              if c =? 8490 then [107]
              else if c =? 304 then [105; 775]
              else [lower c]) s.

(** [manifest.id || manifest.name.toLowerCase().replace(..., '-')] *)
Definition sanitizedName (manifest : json) : M json :=
  id <- prop "id" manifest ;;
  if truthy id then
    match id with Some v => ret v | None => throw end
  else
    name <- prop "name" manifest ;;
    match name with
    | Some (JStr s) =>
        ret (JStr (map (fun c => if is_name_char c then c else 45)
                     (toLowerCase s)))
    | _ => throw
    end.

Definition or_default (o : option json) (fallback : string) : json :=
  if truthy o then match o with Some v => v | None => JNull end
  else JStr (lit fallback).

(** Members whose value is [undefined] are left out by [JSON.stringify]. *)
Definition defined_members (ms : list (text * option json)) : members_of :=
  flat_map (fun kv =>
              match kv with
              | (k, Some v) => [(k, v)]
              | (_, None) => []
              end) ms.

Definition packageInfo (manifest_name manifest_id manifest_version : option json)
    (sanitized : json) (outputFileName : text) (size : nat) (now : text)
    (minPosVersion : option json) : json :=
  JObj (defined_members
    [ (lit "name", manifest_name);
      (lit "id", Some (if truthy manifest_id
                       then match manifest_id with Some v => v | None => JNull end
                       else sanitized));
      (lit "version", manifest_version);
      (lit "packageFile", Some (JStr outputFileName));
      (lit "packageSize", Some (JNum (Z.of_nat size)));
      (lit "createdAt", Some (JStr now));
      (lit "minPosVersion", Some (or_default minPosVersion "1.0.0")) ]).

Definition extension : text := lit ".cposplugin".

(** [outputPath.replace('.cposplugin', '.json')] *)
Definition infoPath (outputPath : text) : text :=
  replace_first extension (lit ".json") outputPath.

(** [verifyPackage(packagePath)] *)
Definition verifyPackage (packagePath : path) : M unit :=
  size <- fileSize packagePath ;;
  if (0 <? size)%nat then print PackageFileValid else print PackageFileEmpty.

(** The archive is written from the entries as they are found once a
    previous archive is out of the way. *)
Definition write_archive (zip : archiver) (proj : path) (from_dist : bool)
    (outputPath : path) : M unit :=
  d <- get_disk ;;
  writeFile outputPath (zip (archive_entries proj from_dist d)).

(** [packageCommand(options)], run in [projectDir] at the time [now]. *)
Definition packageCommand (zip : archiver) (projectDir : text) (o : options)
    (now : text) : M unit :=
  let proj := Path.components projectDir in
  let manifestPath := proj ++ [lit "manifest.json"] in
  try_catch
    (found <- pathExists manifestPath ;;
     if negb found then print ManifestNotFound
     else
       manifest <- readJson manifestPath ;;
       manifest_name <- prop "name" manifest ;;
       manifest_version <- prop "version" manifest ;;
       let distDir := proj ++ [lit "dist"] in
       from_dist <- pathExists distDir ;;
       (if from_dist then ret tt else print DistNotFound) ;;;
       let sourceDir := if from_dist then distDir else proj in
       missingFiles <- missing_files proj sourceDir from_dist ;;
       match missingFiles with
       | _ :: _ => print (MissingRequiredFiles missingFiles)
       | [] =>
           sanitized <- sanitizedName manifest ;;
           let version := or_default manifest_version "1.0.0" in
           let outputFileName :=
             match output o with
             | Some (c :: s) => c :: s
             | _ => to_string sanitized ++ lit "-" ++ to_string version
                    ++ extension
             end in
           let outputPath := Path.resolve projectDir outputFileName in
           let archivePath := Path.components outputPath in
           existing <- pathExists archivePath ;;
           (if existing then remove archivePath else ret tt) ;;;
           write_archive zip proj from_dist archivePath ;;;
           size <- fileSize archivePath ;;
           manifest_id <- prop "id" manifest ;;
           minPosVersion <- prop "minPosVersion" manifest ;;
           writeJson (Path.components (infoPath outputPath))
             (packageInfo manifest_name manifest_id manifest_version
                sanitized outputFileName size now minPosVersion) ;;;
           print (PackagedSuccessfully outputFileName) ;;;
           verifyPackage archivePath
       end)
    (print (Failed (lit "Packaging failed"))).

End Package.

(* ================================================================== *)
(** * The helpers of [src/utils/helpers.js] *)
(* ================================================================== *)

Module Helpers.

Import Text Path Utf8 FS Cmd Json Project.
Local Open Scope cmd_scope.


(** [loadManifest(dir)] *)
Definition loadManifest (dir : path) : M json :=
  let manifestPath := dir ++ [lit "manifest.json"] in
  found <- pathExists manifestPath ;;
  if negb found then throw else readJson manifestPath.


(** The class [[a-z0-9]]. *)
Definition is_alnum (c : char) : bool :=
  ((97 <=? c) && (c <=? 122)) || ((48 <=? c) && (c <=? 57)).

(** [.replace(/[^a-z0-9]+/g, '-')]: every maximal run of other characters
    becomes one hyphen; [in_run] tells that the character before belonged
    to such a run. *)
Fixpoint hyphenate (in_run : bool) (s : text) : text :=
  match s with
  | [] => []
  | c :: s' =>
      if is_alnum c then c :: hyphenate false s'
      else if in_run then hyphenate true s'
      else 45 :: hyphenate true s'
  end.

(** [.replace(/^-|-$/g, '')]: a hyphen at the start goes, and a hyphen at
    the end of what is left. *)
Definition strip_hyphens (s : text) : text :=
  let s1 := match s with
            | c :: r => if c =? 45 then r else s
            | [] => s
            end in
  match rev s1 with
  | c :: r => if c =? 45 then rev r else s1
  | [] => s1
  end.

(** [sanitizePluginName(name)] *)
Definition sanitizePluginName (name : text) : text :=
  strip_hyphens (hyphenate false (Package.toLowerCase name)).

End Helpers.

(* ================================================================== *)
(** * The scaffolding command *)
(* ================================================================== *)

Module Create.

Import Text Path Utf8 FS Cmd Json Project.
Local Open Scope cmd_scope.

Record options := {
  template : option text;
  directory : text
}.

(** The functions that produce the text of the generated files.  Each is
    a template literal over its arguments; the command below writes what
    they return and looks at none of it. *)
Record generators := {
  generateHtmlTemplate : text -> text -> text;
  generateCssTemplate : text -> text;
  generateJsTemplate : text -> text -> text;
  generateSdkBridge : text;
  generatePosUiCss : text;
  generatePaymentHandler : text;
  generateReportGenerator : text;
  generateReadme : text -> text -> text
}.

(** [pluginName.toLowerCase().replace(/[^a-z0-9-_]/g, '-')]: the
    replacement works on UTF-16 code units, so a character beyond the
    basic plane leaves two hyphens. *)
Definition sanitizedName (pluginName : text) : text :=
  flat_map (fun c =>
              if Package.is_name_char c then [c]
              else if 65535 <? c then [45; 45]
              else [45])
           (Package.toLowerCase pluginName).

(** [options.template || 'basic'] *)
Definition template_of (o : options) : text :=
  match template o with
  | Some (c :: s) => c :: s
  | _ => lit "basic"
  end.

(** [path.resolve(a, b)] in the working directory [cwd]: the arguments are
    taken from the right until one is absolute. *)
Definition resolve2 (cwd a b : text) : text :=
  let full :=
    if is_absolute b then b
    else if is_absolute a then a ++ slash :: b
    else cwd ++ slash :: a ++ slash :: b in
  slash :: join [slash] (normalize_segments false [] (split slash full)).

(** [path.join(...parts)] *)
Definition join_all (parts : list text) : text :=
  match filter (fun p => negb (teqb p [])) parts with
  | [] => [dot]
  | ps => normalize (join [slash] ps)
  end.

(** The manifest of a new plugin. *)
Definition manifest (pluginName sanitizedName template : text) : json :=
  JObj [ (lit "name", JStr pluginName);
         (lit "id", JStr sanitizedName);
         (lit "version", JStr (lit "1.0.0"));
         (lit "description", JStr (pluginName ++ lit " plugin for CommercePOS"));
         (lit "author", JStr []);
         (lit "homepage", JStr []);
         (lit "minPosVersion", JStr (lit "1.0.0"));
         (lit "permissions", JArr []);
         (lit "entryPoint", JStr (lit "index.html"));
         (lit "icon", JStr (lit "assets/icons/plugin-icon.png"));
         (lit "template", JStr template) ].

(** The line that reports success. *)
Definition created (pluginName : text) : message :=
  Info ([10; 10003] ++ lit " Plugin " ++ [34] ++ pluginName ++ [34]
        ++ lit " created successfully!" ++ [10]).

Section Command.

(** The generators, the working directory, the directory of the module
    ([__dirname]) and the answer given to the question whether an existing
    directory is to be overwritten. *)
Variable gen : generators.
Variable cwd : text.
Variable dirname : text.
Variable overwrite : bool.

(** The files written once the directories are there. *)
Definition write_files (pluginName template : text) (targetDir : path)
    : M unit :=
  writeJson (targetDir ++ [lit "manifest.json"])
    (manifest pluginName (sanitizedName pluginName) template) ;;;
  writeFileText (targetDir ++ [lit "index.html"])
    (generateHtmlTemplate gen pluginName template) ;;;
  writeFileText (targetDir ++ [lit "styles.css"])
    (generateCssTemplate gen template) ;;;
  writeFileText (targetDir ++ [lit "main.js"])
    (generateJsTemplate gen pluginName template) ;;;
  writeFileText (targetDir ++ [lit "lib"; lit "pos-sdk.js"])
    (generateSdkBridge gen) ;;;
  (let posUiCssPath :=
     Path.components
       (join_all [dirname; lit ".."; lit "templates"; lit "lib";
                  lit "pos-ui.css"]) in
   found <- pathExists posUiCssPath ;;
   if found then copy posUiCssPath (targetDir ++ [lit "lib"; lit "pos-ui.css"])
   else writeFileText (targetDir ++ [lit "lib"; lit "pos-ui.css"])
          (generatePosUiCss gen)) ;;;
  (if teqb template (lit "payment") then
     writeFileText (targetDir ++ [lit "payment-handler.js"])
       (generatePaymentHandler gen)
   else if teqb template (lit "report") then
     writeFileText (targetDir ++ [lit "report-generator.js"])
       (generateReportGenerator gen)
   else ret tt) ;;;
  writeFileText (targetDir ++ [lit "README.md"])
    (generateReadme gen pluginName template) ;;;
  print (created pluginName).

(** [createCommand(pluginName, options)]; the progress lines of the
    spinner are left out. *)
Definition createCommand (pluginName : text) (o : options) : M unit :=
  try_catch
    (if teqb (Minify.trim pluginName) [] then
       print (Info (lit "Error: Plugin name is required"))
     else
       let template := template_of o in
       let targetDir :=
         Path.components
           (resolve2 cwd (directory o) (sanitizedName pluginName)) in
       found <- pathExists targetDir ;;
       if found && negb overwrite then
         print (Info (lit "Operation cancelled"))
       else
         (if found then remove targetDir else ret tt) ;;;
         ensureDir targetDir ;;;
         ensureDir (targetDir ++ [lit "assets"]) ;;;
         ensureDir (targetDir ++ [lit "assets"; lit "images"]) ;;;
         ensureDir (targetDir ++ [lit "assets"; lit "icons"]) ;;;
         ensureDir (targetDir ++ [lit "lib"]) ;;;
         write_files pluginName template targetDir)
    (print (Failed (lit "Failed to create plugin"))).

End Command.

End Create.

(* ================================================================== *)
(** * Sample projects *)
(* ================================================================== *)

Module Samples.

Import Utf8 FS Cmd.

Definition file (s : string) : node := File (encode (lit s)).

Definition root (es : entries) : option node := Some (Dir es).

(** A project served from [/srv/app], next to a directory [/srv/app-secrets]
    whose name begins like the project's. *)
Definition served : option node :=
  root
    [ (lit "srv", Dir
        [ (lit "app", Dir
            [ (lit "manifest.json", file "{}");
              (lit "index.html", file "<html><body>hi</body></html>");
              (lit "fragment.html", file "<p>no closing tag here</p>");
              (lit "notes.txt", file "plain") ]);
          (lit "app-secrets", Dir
            [ (lit "key.txt", file "s3cret") ]) ]) ].

Definition fresh (d : option node) : world := {| disk := d; log := [] |}.

Definition manifest_text : string :=
  "{ 'name': 'Demo', 'id': 'demo', 'version': '1.0.0', 'entryPoint': 'index.html' }".

(** The manifest of the sample plugin; the single quotes of
    [manifest_text] stand for double quotes. *)
Definition manifest_file : node :=
  File (encode (map (fun c => if c =? 39 then 34 else c) (lit manifest_text))).

Definition page : string :=
  "<html><head><link rel='stylesheet' href='styles.css'></head><body>  hi  <script src='main.js'></script></body></html>".

Definition page_file : node :=
  File (encode (map (fun c => if c =? 39 then 34 else c) (lit page))).

(** A plugin as [create] lays it out, in [/srv/app], never built. *)
Definition plugin_files : entries :=
  [ (lit "manifest.json", manifest_file);
    (lit "index.html", page_file);
    (lit "styles.css", file "a { b : c ; }");
    (lit "main.js", file "var a = 1;");
    (lit "lib", Dir [ (lit "pos-sdk.js", file "sdk();") ]) ].

Definition plugin : option node :=
  root [ (lit "srv", Dir [ (lit "app", Dir plugin_files) ]) ].


(** A plugin with a font among its library files and among its assets; the
    font's bytes are not UTF-8. *)
Definition font : list Byte.byte := [Byte.xff; Byte.xd8; Byte.x00; Byte.x41].

Definition plugin_with_font : option node :=
  root
    [ (lit "srv", Dir
        [ (lit "app", Dir
            [ (lit "manifest.json", manifest_file);
              (lit "index.html", page_file);
              (lit "lib", Dir [ (lit "icons.woff", File font) ]);
              (lit "assets", Dir [ (lit "icons.woff", File font) ]) ]) ]) ].





Definition plain_build_options : Build.options :=
  {| Build.output := None; Build.minify := false; Build.bundle := false |}.



Definition monday : text := lit "2026-11-02T09:00:00.000Z".

(** An archiver that stores the entries one after the other. *)
Definition store : Package.archiver :=
  fun es =>
    flat_map (fun e =>
                match e with
                | (name, Some data) => encode name ++ [Byte.x00] ++ data
                | (name, None) => encode name ++ [Byte.x00]
                end) es.

(** An archive write that reports success and leaves an empty file. *)
Definition empty_write : Package.archiver := fun _ => [].

End Samples.

(* ================================================================== *)
(** * Vocabulary of the statements *)
(* ================================================================== *)

Module Vocabulary.

Import Utf8 FS Cmd Json.

Definition present (p : path) (d : option node) : bool :=
  match lookup p d with
  | Some _ => true
  | None => false
  end.

(** The world with more events logged. *)
Definition logged (w : world) (l : list event) : world :=
  {| disk := disk w; log := log w ++ l |}.

(** The world with another disk and more events logged. *)
Definition moved (w : world) (d : option node) (l : list event) : world :=
  {| disk := d; log := log w ++ l |}.

(** A file can be written at [p]: its directory is there and [p] does not
    name a directory. *)
Definition writable (p : path) (d : option node) : Prop :=
  p <> [] /\
  (exists es, lookup (parent p) d = Some (Dir es)) /\
  (forall es, lookup p d <> Some (Dir es)).

(** The disk with a file written at [p]. *)
Definition with_file (p : path) (data : bytes) (d : option node)
    : option node :=
  update p (fun _ => Some (File data)) d.


(** [q] lies beside [p]: neither at or below it, nor on the way to it. *)
Definition beside (p q : path) : Prop :=
  is_prefix p q = false /\ is_prefix q p = false.


(** The directories [mkdir -p] makes from where the path leaves the
    disk. *)
Definition chain (p : path) : node :=
  fold_right (fun n below => Dir [(n, below)]) (Dir []) p.

(** A command that leaves the disk as it found it. *)
Definition reads_only {A} (m : M A) : Prop :=
  forall w, disk (snd (m w)) = disk w.





End Vocabulary.

(* ================================================================== *)
(** * Vocabulary of the statements about the build *)
(* ================================================================== *)

Module BuildSpec.

Import Utf8 FS Cmd Json Project Build Bundle Vocabulary.
Local Open Scope cmd_scope.


(** The [catch] of [buildCommand]. *)
Definition build_failed : M unit := print (Failed (lit "Build failed")).



End BuildSpec.

(* ================================================================== *)
(** * Vocabulary of the statements about the bundle *)
(* ================================================================== *)

Module BundleSpec.

Import Utf8 FS Cmd Json Project Build Bundle Vocabulary.












End BundleSpec.

(* ================================================================== *)
(** * Vocabulary of the statements about the packager *)
(* ================================================================== *)

Module PackageSpec.

Import Utf8 FS Cmd Json Project Package Vocabulary.



Definition printed (m : message) (w : world) : Prop := In m (lines (log w)).




(** The lower-case letters, digits, hyphen and underscore a manifest [id]
    is made of. *)
Definition is_slug (s : text) : bool :=
  negb (teqb s []) && forallb is_name_char s.

(** A version: digits and dots. *)
Definition is_version (s : text) : bool :=
  negb (teqb s [])
  && forallb (fun c => ((48 <=? c) && (c <=? 57)) || (c =? 46)) s.

(** A segment as a directory entry has it. *)
Definition is_segment (s : text) : bool :=
  negb (teqb s []) && negb (teqb s [Path.dot])
  && negb (teqb s [Path.dot; Path.dot])
  && forallb (fun c => negb (c =? Path.slash)) s.

(** The working directory as [process.cwd()] gives it: absolute, one slash
    before each segment. *)
Definition is_cwd (projectDir : text) (proj : path) : Prop :=
  projectDir = flat_map (fun seg => Path.slash :: seg) proj
  /\ proj <> [] /\ forallb is_segment proj = true.


End PackageSpec.

(* ================================================================== *)
(** * Vocabulary of the statements about the minifiers *)
(* ================================================================== *)

Module MinifySpec.

Import Minify.

(** The first character of a text that is not white space. *)
Definition first (s : text) : option char :=
  hd_error (drop_while is_space s).

(** A text that does not begin with white space. *)
Definition flush (s : text) : Prop :=
  match s with
  | [] => True
  | c :: _ => is_space c = false
  end.

(** The text without the white space at its end. *)
Fixpoint drop_end (s : text) : text :=
  match s with
  | [] => []
  | c :: s' =>
      match drop_end s' with
      | [] => if is_space c then [] else [c]
      | r => c :: r
      end
  end.

(** A condition on every character of a text and what follows it. *)
Fixpoint every_tail (H : char -> text -> Prop) (s : text) : Prop :=
  match s with
  | [] => True
  | c :: s' => H c s' /\ every_tail H s'
  end.

(** No white space between a [>] and the [<] that follows. *)
Definition tags_tight : text -> Prop :=
  every_tail (fun c s' => c = gt -> gap s' = 0%nat).

(** No two characters of white space in a row. *)
Definition runs_single : text -> Prop :=
  every_tail (fun c s' => is_space c = true -> flush s').

(** All white space is single spaces. *)
Definition spaces_plain : text -> Prop :=
  every_tail (fun c s' => is_space c = true -> c = 32 /\ flush s').

(** No white space before or behind one of the five characters. *)
Definition punct_tight : text -> Prop :=
  every_tail (fun c s' =>
    (is_space c = true ->
     match s' with d :: _ => is_punct d = false | [] => True end)
    /\ (is_punct c = true -> flush s')).

(** No white space at the start of a line but the first. *)
Definition lines_flush : text -> Prop :=
  every_tail (fun c s' => is_line_terminator c = true -> flush s').

(** Where a match begins: at white space, if any, and one of the five
    characters behind it. *)
Definition opens (s : text) : bool :=
  match first s with
  | Some p => is_punct p
  | None => false
  end.

End MinifySpec.

(* ================================================================== *)
(** * Vocabulary of the statements about texts, trees and values *)
(* ================================================================== *)

Module MinifyText.

Import Minify.

(** The characters of a text that are not white space. *)
Definition solid (s : text) : text :=
  filter (fun c => negb (is_space c)) s.

End MinifyText.

Module TreeSpec.

Import Utf8 FS Project.

(** Names of which no two are the same. *)
Fixpoint distinct (names : list text) : bool :=
  match names with
  | [] => true
  | n :: rest => negb (existsb (teqb n) rest) && distinct rest
  end.

(** A tree in which no directory lists a name twice, as on a disk. *)
Fixpoint unique_names (n : node) : bool :=
  match n with
  | File _ => true
  | Dir es =>
      distinct (map fst es)
      && (fix all (es : entries) : bool :=
            match es with
            | [] => true
            | (_, c) :: es' => unique_names c && all es'
            end) es
  end.

(** What the walk lists: a file below the directory whose name ends as
    asked and which no skipped directory lies above. *)
Definition listed (ext : text) (here : path) (n : node) (p : path) : Prop :=
  exists rel name data,
    p = here ++ rel ++ [name] /\
    lookup (rel ++ [name]) (Some n) = Some (File data) /\
    ends_with ext name = true /\
    forallb (fun x => negb (is_skipped x)) rel = true.

End TreeSpec.

Module Utf8Spec.

(** A Unicode scalar value: a code point that is not a surrogate. *)
Definition is_scalar (c : char) : bool :=
  (c <? 55296) || ((57343 <? c) && (c <? 1114112)).

End Utf8Spec.

Module JsonSpec.

Import Json.

(** The value of a run of decimal digits read from the left, [acc] being
    the value of the digits before it. *)
Fixpoint horner (d : Decimal.uint) (acc : Z) : Z :=
  match d with
  | Decimal.Nil => acc
  | Decimal.D0 l => horner l (acc * 10)
  | Decimal.D1 l => horner l (acc * 10 + 1)
  | Decimal.D2 l => horner l (acc * 10 + 2)
  | Decimal.D3 l => horner l (acc * 10 + 3)
  | Decimal.D4 l => horner l (acc * 10 + 4)
  | Decimal.D5 l => horner l (acc * 10 + 5)
  | Decimal.D6 l => horner l (acc * 10 + 6)
  | Decimal.D7 l => horner l (acc * 10 + 7)
  | Decimal.D8 l => horner l (acc * 10 + 8)
  | Decimal.D9 l => horner l (acc * 10 + 9)
  end.

(** What may follow a number without being taken for a part of it. *)
Definition number_safe (rest : text) : Prop :=
  match rest with
  | d :: _ => is_digit d = false /\ d <> 46 /\ d <> 101 /\ d <> 69
  | [] => True
  end.

Definition blank (ws : text) : Prop := forallb is_json_space ws = true.

Definition solid_head (s : text) : Prop :=
  match s with
  | c :: _ => is_json_space c = false
  | [] => True
  end.

(** No object names a member twice. *)
Fixpoint plain_keys (j : json) : bool :=
  match j with
  | JArr xs => forallb plain_keys xs
  | JObj ms =>
      TreeSpec.distinct (map fst ms)
      && forallb (fun kv => plain_keys (snd kv)) ms
  | _ => true
  end.

(** A bound on what it takes to read a value back. *)
Fixpoint weight (j : json) : nat :=
  match j with
  | JArr xs => S (list_sum (map (fun x => S (weight x)) xs))
  | JObj ms => S (list_sum (map (fun kv => S (weight (snd kv))) ms))
  | _ => 1%nat
  end.

(** Whatever white space stands before the text of a value, and whatever
    follows it that no number would take in, the reader returns the value
    and what follows. *)
Definition reads_back (j : json) : Prop :=
  plain_keys j = true ->
  forall fuel ws indent rest,
    blank ws -> blank indent -> number_safe rest ->
    (weight j <= fuel)%nat ->
    read_value fuel (ws ++ stringify_at indent j ++ rest) = Some (j, rest).

(** Every character of every string and member name is a code point. *)
Fixpoint code_points (j : json) : bool :=
  match j with
  | JStr s => forallb (fun c => c <? 1114112) s
  | JArr xs => forallb code_points xs
  | JObj ms =>
      forallb (fun kv => forallb (fun c => c <? 1114112) (fst kv)
                         && code_points (snd kv)) ms
  | _ => true
  end.

End JsonSpec.

Module NameSpec.

Import Text Helpers.

(** Letters, digits and hyphens, each hyphen followed by a letter or a
    digit, or, when [at_end] allows it, by nothing. *)
Fixpoint hyphens_single (at_end : bool) (s : text) : bool :=
  match s with
  | [] => true
  | c :: r =>
      if is_alnum c then hyphens_single at_end r
      else (c =? 45)
           && match r with d :: _ => is_alnum d | [] => at_end end
           && hyphens_single at_end r
  end.

Definition head_alnum (s : text) : bool :=
  match s with c :: _ => is_alnum c | [] => true end.

(** Lower-case letters and digits in groups joined by single hyphens. *)
Definition slug (s : text) : bool :=
  head_alnum s && hyphens_single false s.

End NameSpec.

Module ServerSpec.

Import Text Path Cmd DevServer.

(** A segment [path.normalize] keeps: neither empty nor [.]. *)
Definition kept (seg : text) : bool :=
  negb (teqb seg [] || teqb seg [dot]).

(** The name of a directory as it stands in a working directory: not
    empty, not [.] or [..], and without a slash. *)
Definition plain_segment (seg : text) : bool :=
  kept seg && negb (teqb seg [dot; dot])
  && forallb (fun c => negb (c =? slash)) seg.


(** Some segment of the path is [..]. *)
Definition climbs (p : text) : bool :=
  existsb (teqb [dot; dot]) (split slash p).



End ServerSpec.

Module CreateSpec.

Import FS Cmd Vocabulary.

(** A command that changes nothing beside [p]. *)
Definition frames {A} (p : path) (m : M A) : Prop :=
  forall w q, beside p q -> lookup q (disk (snd (m w))) = lookup q (disk w).

(** A command that leaves what stands at [p] as it is. *)
Definition keeps {A} (p : path) (m : M A) : Prop :=
  forall w, lookup p (disk (snd (m w))) = lookup p (disk w).

(** A command whose last printed line is never [line]. *)
Definition never_ends_with {A} (line : message) (m : M A) : Prop :=
  forall w dflt, last (lines (log (snd (m w)))) dflt <> line.

(** The file at [p] holds the text [s]. *)
Definition holds (p : path) (s : list N) (d : option node) : Prop :=
  lookup p d = Some (File (Utf8.encode s)).

(** A segment of a path: not empty and without a slash. *)
Definition whole (seg : list N) : Prop :=
  seg <> [] /\ forallb (fun c => negb (c =? Path.slash)) seg = true.

(** Generators for the examples. *)
Definition sample_generators : Create.generators :=
  {| Create.generateHtmlTemplate :=
       fun name _ => Text.lit "<h1>" ++ name ++ Text.lit "</h1>";
     Create.generateCssTemplate := fun _ => Text.lit "h1 { margin: 0 }";
     Create.generateJsTemplate := fun name _ => Text.lit "// " ++ name;
     Create.generateSdkBridge := Text.lit "window.POS = {};";
     Create.generatePosUiCss := Text.lit ".pos { }";
     Create.generatePaymentHandler := Text.lit "// payment";
     Create.generateReportGenerator := Text.lit "// report";
     Create.generateReadme := fun name _ => Text.lit "# " ++ name |}.

(** A working directory with a note in it. *)
Definition workspace : option node :=
  Samples.root
    [ (Text.lit "home", Dir
        [ (Text.lit "dev", Dir
            [ (Text.lit "notes.txt", Samples.file "keep") ]) ]) ].

End CreateSpec.

(* ================================================================== *)
(** * Facts about strings *)
(* ================================================================== *)

Module TextFacts.

Lemma teqb_refl (a : text) : teqb a a = true.
Proof.
  induction a as [|x a IH]; simpl; [reflexivity|].
  now rewrite N.eqb_refl, IH.
Qed.

Lemma teqb_eq (a b : text) : teqb a b = true <-> a = b.
Proof.
  split.
  - revert b; induction a as [|x a IH]; intros [|y b] H; simpl in H;
      try discriminate; [reflexivity|].
    apply andb_true_iff in H as [Hx Hr].
    apply N.eqb_eq in Hx. apply IH in Hr. now subst.
  - intros ->. apply teqb_refl.
Qed.

Lemma teqb_neq (a b : text) : teqb a b = false <-> a <> b.
Proof.
  split.
  - intros H E. apply teqb_eq in E. congruence.
  - intros H. destruct (teqb a b) eqn:E; [|reflexivity].
    apply teqb_eq in E. contradiction.
Qed.

Lemma starts_with_app (p s : text) : starts_with p (p ++ s) = true.
Proof.
  induction p as [|x p IH]; simpl; [reflexivity|].
  now rewrite N.eqb_refl, IH.
Qed.

Lemma starts_with_split (p s : text) :
  starts_with p s = true -> s = p ++ skipn (List.length p) s.
Proof.
  revert s; induction p as [|x p IH]; intros s H; simpl in *; [reflexivity|].
  destruct s as [|y s]; [discriminate|].
  apply andb_true_iff in H as [Hx Hr].
  apply N.eqb_eq in Hx. subst. simpl. f_equal. now apply IH.
Qed.

(** [cut] splits the text around an occurrence of the pattern. *)
Lemma cut_spec (pat s pre post : text) :
  cut pat s = Some (pre, post) -> s = pre ++ pat ++ post.
Proof.
  revert pre post; induction s as [|c s IH]; intros pre post H.
  - simpl in H. destruct (starts_with pat []) eqn:E; [|discriminate].
    inversion H; subst. simpl. now apply starts_with_split in E.
  - simpl in H. destruct (starts_with pat (c :: s)) eqn:E.
    + inversion H; subst. simpl. now apply starts_with_split in E.
    + destruct (cut pat s) as [[pre' post']|]; [|discriminate].
      inversion H; subst. simpl. f_equal. now apply IH.
Qed.

(** A character that the pattern does not contain, standing right behind a
    text, keeps the pattern from reaching over the end of that text. *)
Lemma starts_with_before (q a b : text) :
  match b with [] => True | c :: _ => ~ In c q end ->
  starts_with q (a ++ b) = starts_with q a.
Proof.
  revert a; induction q as [|x q IH]; intros a Hb; [reflexivity|].
  destruct a as [|y a]; simpl.
  - destruct b as [|c b]; [reflexivity|].
    destruct (N.eqb_spec x c) as [->|]; [|reflexivity].
    exfalso. apply Hb. now left.
  - rewrite IH; [reflexivity|].
    destruct b; [exact I|]. intros Hin. apply Hb. now right.
Qed.

Lemma occurrences_app (pat a b : text) :
  match b with [] => True | c :: _ => ~ In c (tl pat) end ->
  occurrences pat (a ++ b) = (occurrences pat a + occurrences pat b)%nat.
Proof.
  intros Hb. induction a as [|y a IH]; [reflexivity|].
  cbn [app occurrences]. rewrite IH.
  assert (E : starts_with pat (y :: a ++ b) = starts_with pat (y :: a)).
  { destruct pat as [|x q]; [reflexivity|].
    cbn [starts_with]. f_equal.
    apply starts_with_before. exact Hb. }
  rewrite E. lia.
Qed.

Lemma occurrences_app_ge_l (pat a b : text) :
  (occurrences pat a <= occurrences pat (a ++ b))%nat.
Proof.
  induction a as [|y a IH]; [simpl; lia|].
  cbn [app occurrences].
  assert (E : starts_with pat (y :: a) = true ->
              starts_with pat (y :: a ++ b) = true).
  { intros H. apply starts_with_split in H.
    change (y :: a ++ b) with ((y :: a) ++ b). rewrite H.
    rewrite <- app_assoc. apply starts_with_app. }
  destruct (starts_with pat (y :: a)).
  - rewrite E by reflexivity. lia.
  - destruct (starts_with pat (y :: a ++ b)); lia.
Qed.

Lemma occurrences_app_ge_r (pat a b : text) :
  (occurrences pat b <= occurrences pat (a ++ b))%nat.
Proof.
  induction a as [|y a IH]; [simpl; lia|].
  cbn [app occurrences]. lia.
Qed.

(** A replacement text without a dollar sign is inserted as it stands. *)
Lemma get_substitution_plain (matched pre post repl : text) :
  forallb (fun c => negb (c =? 36)) repl = true ->
  get_substitution matched pre post repl = repl.
Proof.
  induction repl as [|c r IH]; intros H; [reflexivity|].
  simpl in H. apply andb_true_iff in H as [Hc Hr].
  simpl. destruct (c =? 36); [discriminate|].
  now rewrite IH.
Qed.

Lemma replace_first_plain (pat repl s pre post : text) :
  forallb (fun c => negb (c =? 36)) repl = true ->
  cut pat s = Some (pre, post) ->
  replace_first pat repl s = pre ++ repl ++ post.
Proof.
  intros Hr Hc. unfold replace_first. rewrite Hc.
  now rewrite get_substitution_plain.
Qed.

Lemma replace_first_absent (pat repl s : text) :
  cut pat s = None -> replace_first pat repl s = s.
Proof. intros H. unfold replace_first. now rewrite H. Qed.

End TextFacts.

(* ================================================================== *)
(** * Facts about the file system *)
(* ================================================================== *)

Module FSFacts.

Import Utf8 FS Vocabulary TextFacts.

Lemma assoc_upsert_same (n : name) (v : node) (es : entries) :
  assoc n (upsert n v es) = Some v.
Proof.
  induction es as [|[m c] es IH]; simpl.
  - now rewrite teqb_refl.
  - destruct (teqb m n) eqn:E; simpl; now rewrite E.
Qed.

Lemma assoc_remove_key_same (n : name) (es : entries) :
  assoc n (remove_key n es) = None.
Proof.
  induction es as [|[m c] es IH]; simpl; [reflexivity|].
  destruct (teqb m n) eqn:E; simpl; [exact IH|]. now rewrite E.
Qed.

Lemma assoc_set_key_same (n : name) (v : option node) (es : entries) :
  assoc n (set_key n v es) = v.
Proof.
  destruct v; simpl; [apply assoc_upsert_same|apply assoc_remove_key_same].
Qed.

Lemma teqb_trans_neq (m n k : name) :
  teqb m n = true -> n <> k -> teqb m k = false.
Proof.
  intros H Hne. apply teqb_eq in H. subst. now apply teqb_neq.
Qed.

Lemma assoc_upsert_other (n k : name) (v : node) (es : entries) :
  n <> k -> assoc k (upsert n v es) = assoc k es.
Proof.
  intros Hne. induction es as [|[m c] es IH]; simpl.
  - apply teqb_neq in Hne. now rewrite Hne.
  - destruct (teqb m n) eqn:E; simpl.
    + now rewrite (teqb_trans_neq _ _ _ E Hne).
    + now rewrite IH.
Qed.

Lemma assoc_remove_key_other (n k : name) (es : entries) :
  n <> k -> assoc k (remove_key n es) = assoc k es.
Proof.
  intros Hne. induction es as [|[m c] es IH]; simpl; [reflexivity|].
  destruct (teqb m n) eqn:E; simpl.
  + now rewrite (teqb_trans_neq _ _ _ E Hne).
  + now rewrite IH.
Qed.

Lemma assoc_set_key_other (n k : name) (v : option node) (es : entries) :
  n <> k -> assoc k (set_key n v es) = assoc k es.
Proof.
  destruct v; simpl; [apply assoc_upsert_other|apply assoc_remove_key_other].
Qed.

(** What was put at [p] is found at [p], provided the directory of [p]
    exists. *)
Lemma lookup_update_same (p : path) (f : option node -> option node)
    (d : option node) :
  p <> [] ->
  (exists es, lookup (parent p) d = Some (Dir es)) ->
  lookup p (update p f d) = f (lookup p d).
Proof.
  revert d. induction p as [|n p IH]; intros d Hp (es & Hdir);
    [contradiction|].
  destruct p as [|m p].
  - cbn in Hdir. subst d. cbn. now rewrite assoc_set_key_same.
  - change (parent (n :: m :: p)) with (n :: parent (m :: p)) in Hdir.
    cbn [lookup] in Hdir.
    destruct d as [[data|es0]|]; try discriminate.
    cbn [update lookup]. rewrite assoc_set_key_same.
    apply IH; [discriminate|]. now exists es.
Qed.

(** A path that exists has its directory. *)
Lemma lookup_parent (p : path) (n : name) (d : option node) (c : node) :
  lookup (p ++ [n]) d = Some c -> exists es, lookup p d = Some (Dir es).
Proof.
  revert d. induction p as [|m p IH]; intros d H; cbn in *.
  - destruct d as [[data|es]|]; try discriminate. now exists es.
  - destruct d as [[data|es]|]; try discriminate. now apply IH.
Qed.

Lemma parent_snoc (p : path) (n : name) : parent (p ++ [n]) = p.
Proof. unfold parent. apply removelast_last. Qed.

Lemma is_prefix_app (p r : path) : is_prefix p (p ++ r) = true.
Proof.
  induction p as [|n p IH]; [reflexivity|].
  cbn. now rewrite teqb_refl, IH.
Qed.

Lemma is_prefix_split (p q : path) :
  is_prefix p q = true -> exists r, q = p ++ r.
Proof.
  revert q. induction p as [|n p IH]; intros q H.
  - now exists q.
  - destruct q as [|m q]; [discriminate|]. cbn in H.
    apply andb_true_iff in H as [Hn Hp].
    apply teqb_eq in Hn. subst m.
    destruct (IH _ Hp) as (r & ->). now exists r.
Qed.

Lemma is_prefix_refl (p : path) : is_prefix p p = true.
Proof.
  induction p as [|n p IH]; [reflexivity|].
  cbn. now rewrite teqb_refl, IH.
Qed.

(** What lies beside [p] is not touched by a change at [p]. *)
Lemma lookup_update_unrelated (p q : path) (f : option node -> option node)
    (d : option node) :
  is_prefix p q = false -> is_prefix q p = false ->
  lookup q (update p f d) = lookup q d.
Proof.
  revert q d. induction p as [|n p IH]; intros q d Hpq Hqp; [discriminate|].
  destruct q as [|m q]; [discriminate|].
  destruct d as [[data|es]|]; try reflexivity.
  cbn [update lookup]. cbn [is_prefix] in Hpq, Hqp.
  destruct (teqb n m) eqn:E.
  - apply teqb_eq in E. subst m. rewrite teqb_refl in Hqp.
    rewrite assoc_set_key_same. now apply IH.
  - apply teqb_neq in E. now rewrite assoc_set_key_other.
Qed.









Lemma upsert_absent (n : name) (a : node) (es : entries) :
  assoc n es = None -> upsert n a es = es ++ [(n, a)].
Proof.
  induction es as [|[m c] es IH]; simpl; [reflexivity|].
  destruct (teqb m n); [discriminate|]. intros H. now rewrite IH.
Qed.








Lemma mkdirp_none (p : path) : mkdirp p None = Some (chain p).
Proof. destruct p; reflexivity. Qed.


Lemma mkdirp_cons (n : name) (p : path) (es : entries) :
  mkdirp (n :: p) (Some (Dir es))
  = match mkdirp p (assoc n es) with
    | Some c => Some (Dir (upsert n c es))
    | None => None
    end.
Proof. reflexivity. Qed.





End FSFacts.

(* ================================================================== *)
(** * Reasoning about commands *)
(* ================================================================== *)

Module CmdFacts.

Import Utf8 FS Cmd Vocabulary.
Local Open Scope cmd_scope.

Lemma bind_ok {A B} (m : M A) (k : A -> M B) (w w' : world) (b : B) :
  bind m k w = (Some b, w') ->
  exists a w1, m w = (Some a, w1) /\ k a w1 = (Some b, w').
Proof.
  unfold bind. destruct (m w) as [[a|] w1]; intros H; [|discriminate].
  now exists a, w1.
Qed.


Lemma bind_throw {A B} (m : M A) (k : A -> M B) (w w1 : world) :
  m w = (None, w1) -> bind m k w = (None, w1).
Proof. intros H. unfold bind. now rewrite H. Qed.

Lemma reads_only_ret {A} (a : A) : reads_only (ret a).
Proof. intros w. reflexivity. Qed.

Lemma reads_only_throw {A} : reads_only (@throw A).
Proof. intros w. reflexivity. Qed.

Lemma reads_only_emit (e : event) : reads_only (emit e).
Proof. intros w. reflexivity. Qed.

Lemma reads_only_get_disk : reads_only get_disk.
Proof. intros w. reflexivity. Qed.

Lemma reads_only_bind {A B} (m : M A) (k : A -> M B) :
  reads_only m -> (forall a, reads_only (k a)) -> reads_only (bind m k).
Proof.
  intros Hm Hk w. unfold bind. specialize (Hm w).
  destruct (m w) as [[a|] w1]; cbn in *; [|exact Hm].
  rewrite Hk. exact Hm.
Qed.

Lemma reads_only_try_catch {A} (m h : M A) :
  reads_only m -> reads_only h -> reads_only (try_catch m h).
Proof.
  intros Hm Hh w. unfold try_catch. specialize (Hm w).
  destruct (m w) as [[a|] w1]; cbn in *; [exact Hm|].
  rewrite Hh. exact Hm.
Qed.

Lemma reads_only_gather {A B} (xs : list A) (body : A -> M (list B)) :
  (forall x, reads_only (body x)) -> reads_only (Project.gather xs body).
Proof.
  intros Hb. induction xs as [|x xs IH]; cbn [Project.gather].
  - apply reads_only_ret.
  - apply reads_only_bind; [apply Hb|]. intros piece.
    apply reads_only_bind; [exact IH|]. intros rest. apply reads_only_ret.
Qed.

(** Closes a [reads_only] goal about a command built from the reading
    primitives, conditionals and matches. *)
Ltac reads_only_tac :=
  repeat first
    [ apply reads_only_ret
    | apply reads_only_throw
    | apply reads_only_emit
    | apply reads_only_get_disk
    | apply reads_only_try_catch
    | apply reads_only_bind; [|intro]
    | match goal with
      | |- reads_only (if ?c then _ else _) => destruct c
      | |- reads_only (match ?x with _ => _ end) => destruct x
      end ].

Lemma reads_only_pathExists (p : path) : reads_only (pathExists p).
Proof. unfold pathExists. reads_only_tac. Qed.

Lemma reads_only_isDirectory (p : path) : reads_only (isDirectory p).
Proof. unfold isDirectory. reads_only_tac. Qed.

Lemma reads_only_fileSize (p : path) : reads_only (fileSize p).
Proof. unfold fileSize. reads_only_tac. Qed.




Lemma reads_only_print (m : message) : reads_only (print m).
Proof. apply reads_only_emit. Qed.

(** What the reading primitives return. *)
Lemma pathExists_run (p : path) (w : world) :
  pathExists p w
  = (Some (match lookup p (disk w) with Some _ => true | None => false end),
     {| disk := disk w; log := log w ++ [PathExists p] |}).
Proof. reflexivity. Qed.

Lemma readFile_ok (p : path) (w w' : world) (data : bytes) :
  readFile p w = (Some data, w') ->
  lookup p (disk w) = Some (File data) /\ disk w' = disk w.
Proof.
  unfold readFile, bind, emit, get_disk, ret, throw. cbn.
  destruct (lookup p (disk w)) as [[d|es]|]; intros H; inversion H.
  now subst.
Qed.

(** ** Running a command step by step *)





Lemma lines_app (a b : list event) : lines (a ++ b) = lines a ++ lines b.
Proof. unfold lines. apply flat_map_app. Qed.

Lemma bind_assoc {A B C} (m : M A) (f : A -> M B) (g : B -> M C) (w : world) :
  bind (bind m f) g w = bind m (fun a => bind (f a) g) w.
Proof. unfold bind. destruct (m w) as [[a|] w1]; reflexivity. Qed.

Lemma run_ret {A B} (a : A) (k : A -> M B) (w : world) :
  bind (ret a) k w = k a w.
Proof. reflexivity. Qed.

Lemma run_throw {A B} (k : A -> M B) (w : world) :
  bind throw k w = (None, w).
Proof. reflexivity. Qed.


Lemma run_pathExists {B} (p : path) (k : bool -> M B) (w : world) :
  bind (pathExists p) k w = k (present p (disk w)) (logged w [PathExists p]).
Proof. reflexivity. Qed.

Lemma run_readFile {B} (p : path) (k : bytes -> M B) (w : world) (data : bytes) :
  lookup p (disk w) = Some (File data) ->
  bind (readFile p) k w = k data (logged w [ReadFile p]).
Proof.
  intros H. unfold readFile, bind, emit, get_disk, ret. cbn. now rewrite H.
Qed.




End CmdFacts.

(* ================================================================== *)
(** * The development server *)
(* ================================================================== *)

Module DevServerFacts.

Import Utf8 FS Cmd DevServer Vocabulary TextFacts CmdFacts Samples.
Local Open Scope cmd_scope.


(** C1, at the failing input.  The project is [/srv/app]; the request
    [/../app-secrets/key.txt] resolves to [/srv/app-secrets/key.txt], which
    is not below the project root, yet begins with the same characters: the
    guard lets it through, the file is read and sent with status 200. *)
Theorem sibling_directory_passes_the_guard :
  let projectDir := lit "/srv/app" in
  let url := lit "/../app-secrets/key.txt" in
  let target := [lit "srv"; lit "app-secrets"; lit "key.txt"] in
  Path.components (Path.join2 projectDir url) = target /\
  inside projectDir (Path.join2 projectDir url) = false /\
  result_of (handler projectDir url) served
    = Some {| status := 200;
              content_type := Some (lit "application/octet-stream");
              body := encode (lit "s3cret") |} /\
  log_after (handler projectDir url) served
    = [PathExists target; Stat target; ReadFile target].
Proof.
  vm_compute. repeat split; reflexivity.
Qed.

Lemma reads_only_pathExistsAt (s : text) : reads_only (pathExistsAt s).
Proof. unfold pathExistsAt. reads_only_tac. Qed.

Lemma reads_only_isDirectoryAt (s : text) : reads_only (isDirectoryAt s).
Proof. unfold isDirectoryAt. reads_only_tac. Qed.

Lemma reads_only_readFileAt (s : text) : reads_only (readFileAt s).
Proof. unfold readFileAt. reads_only_tac. Qed.

Lemma reads_only_send (s : text) : reads_only (send s).
Proof.
  unfold send. apply reads_only_bind; [apply reads_only_readFileAt|].
  intro. apply reads_only_ret.
Qed.

Lemma reads_only_serve_found (s : text) : reads_only (serve_found s).
Proof.
  unfold serve_found.
  apply reads_only_bind; [apply reads_only_isDirectoryAt|]. intros [|].
  - apply reads_only_bind; [apply reads_only_pathExistsAt|]. intros [|].
    + apply reads_only_send.
    + apply reads_only_ret.
  - apply reads_only_send.
Qed.

(** The handler only reads. *)
Lemma handler_keeps_disk (projectDir url : text) : reads_only (handler projectDir url).
Proof.
  unfold handler.
  destruct (negb _); [apply reads_only_ret|].
  apply reads_only_try_catch; [|apply reads_only_ret].
  apply reads_only_bind; [apply reads_only_pathExistsAt|]. intros [|].
  - apply reads_only_serve_found.
  - apply reads_only_bind; [apply reads_only_pathExistsAt|]. intros [|].
    + apply reads_only_serve_found.
    + apply reads_only_ret.
Qed.

Lemma send_ok (s : text) (w w' : world) (r : response) :
  send s w = (Some r, w') ->
  exists content,
    node_at s (disk w) = Some (File content) /\ r = respond s content.
Proof.
  unfold send, readFileAt, bind, emit, get_disk, ret, throw. cbn.
  destruct (node_at s (disk w)) as [[content|es]|]; intros H; inversion H.
  now exists content.
Qed.

Lemma serve_found_ok (s : text) (w w' : world) (r : response) :
  serve_found s w = (Some r, w') ->
  status r = 200 ->
  exists filePath content,
    node_at filePath (disk w) = Some (File content) /\
    r = respond filePath content.
Proof.
  unfold serve_found. intros H Hs.
  apply bind_ok in H as (isDir & w1 & H1 & H).
  assert (D1 : disk w1 = disk w).
  { pose proof (reads_only_isDirectoryAt s w) as K. now rewrite H1 in K. }
  destruct isDir.
  - apply bind_ok in H as (found & w2 & H2 & H).
    assert (D2 : disk w2 = disk w1).
    { pose proof (reads_only_pathExistsAt
                    (Path.join2 s (lit "index.html")) w1) as K.
      now rewrite H2 in K. }
    destruct found.
    + apply send_ok in H as (content & Hn & ->).
      eexists; eexists; split; [|reflexivity]. now rewrite <- D1, <- D2.
    + inversion H; subst. discriminate Hs.
  - apply send_ok in H as (content & Hn & ->).
    eexists; eexists; split; [|reflexivity]. now rewrite <- D1.
Qed.

(** A response with status 200 is built by [respond] from a file of the
    disk. *)
Lemma ok_response_comes_from_a_file (projectDir url : text) (w w' : world)
    (r : response) :
  handler projectDir url w = (Some r, w') ->
  status r = 200 ->
  exists filePath content,
    node_at filePath (disk w) = Some (File content) /\
    r = respond filePath content.
Proof.
  unfold handler. intros H Hs.
  destruct (negb _).
  { inversion H; subst. discriminate Hs. }
  unfold try_catch in H.
  match type of H with
  | context [match ?m w with _ => _ end] => destruct (m w) as [[r0|] w0] eqn:E
  end.
  2:{ inversion H; subst. discriminate Hs. }
  inversion H; subst; clear H.
  apply bind_ok in E as (found & w1 & H1 & E).
  assert (D1 : disk w1 = disk w).
  { match type of H1 with
    | pathExistsAt ?s _ = _ =>
        pose proof (reads_only_pathExistsAt s w) as K
    end. now rewrite H1 in K. }
  destruct found.
  - destruct (serve_found_ok _ _ _ _ E Hs) as (fp & c & Hn & ->).
    exists fp, c. split; [|reflexivity]. now rewrite <- D1.
  - apply bind_ok in E as (found' & w2 & H2 & E).
    assert (D2 : disk w2 = disk w1).
    { match type of H2 with
      | pathExistsAt ?s _ = _ =>
          pose proof (reads_only_pathExistsAt s w1) as K
      end. now rewrite H2 in K. }
    destruct found'.
    + destruct (serve_found_ok _ _ _ _ E Hs) as (fp & c & Hn & ->).
      exists fp, c. split; [|reflexivity]. now rewrite <- D1, <- D2.
    + inversion E; subst. discriminate Hs.
Qed.

Lemma script_has_no_dollar :
  forallb (fun c => negb (c =? 36)) (liveReloadScript ++ closing_body) = true.
Proof. vm_compute. reflexivity. Qed.

Lemma respond_html (filePath : text) (content : bytes) :
  teqb (to_lower (Path.extname filePath)) (lit ".html") = true ->
  body (respond filePath content)
  = encode (replace_first closing_body (liveReloadScript ++ closing_body)
              (decode content)).
Proof. intros H. unfold respond. now rewrite H. Qed.

Lemma respond_other (filePath : text) (content : bytes) :
  teqb (to_lower (Path.extname filePath)) (lit ".html") = false ->
  body (respond filePath content) = content.
Proof. intros H. unfold respond. now rewrite H. Qed.

(** The fragment brings the marker exactly once, whatever stands around
    it. *)
Lemma marker_count_after_injection (pre post : text) :
  occurrences reload_marker (pre ++ closing_body ++ post) = 0%nat ->
  occurrences reload_marker
    (pre ++ liveReloadScript ++ closing_body ++ post) = 1%nat.
Proof.
  intros H.
  assert (Hpre : occurrences reload_marker pre = 0%nat).
  { pose proof (occurrences_app_ge_l reload_marker pre (closing_body ++ post)).
    lia. }
  assert (Hpost : occurrences reload_marker (closing_body ++ post) = 0%nat).
  { pose proof (occurrences_app_ge_r reload_marker pre (closing_body ++ post)).
    lia. }
  assert (Hscript : exists s0, liveReloadScript = 10 :: s0 ++ [10]
                    /\ occurrences reload_marker s0 = 1%nat).
  { eexists (removelast (tl liveReloadScript)). vm_compute. split; reflexivity. }
  destruct Hscript as (s0 & -> & Hs0).
  change (pre ++ (10 :: s0 ++ [10]) ++ closing_body ++ post)
    with (pre ++ (10 :: (s0 ++ [10]) ++ closing_body ++ post)).
  rewrite occurrences_app.
  2:{ vm_compute. intuition discriminate. }
  rewrite Hpre. cbn [occurrences].
  replace (starts_with reload_marker
             (10 :: (s0 ++ [10]) ++ closing_body ++ post)) with false
    by reflexivity.
  rewrite <- app_assoc. rewrite occurrences_app.
  2:{ vm_compute. intuition discriminate. }
  rewrite Hs0. cbn [app occurrences].
  replace (starts_with reload_marker (10 :: closing_body ++ post)) with false
    by reflexivity.
  rewrite Hpost. reflexivity.
Qed.

(** C5, the page without a closing body tag: it is served as HTML with no
    fragment in it. *)
Lemma page_without_closing_body_gets_no_fragment :
  exists r,
    result_of (handler (lit "/srv/app") (lit "/fragment.html")) served = Some r
    /\ status r = 200
    /\ content_type r = Some (lit "text/html")
    /\ occurrences liveReloadScript (decode (body r)) = 0%nat
    /\ occurrences reload_marker (decode (body r)) = 0%nat.
Proof.
  eexists. vm_compute. repeat split; reflexivity.
Qed.

(** C5, amended.  A request answered with status 200 leaves the disk as it
    was, so that asking again gives the same answer, and its body is made
    from one file of the disk: for an [.html] file whose text has a closing
    body tag, the text with one copy of the fragment put right before the
    first such tag (and the polling endpoint is then named exactly once in
    the page when the file did not name it); for an [.html] file without
    that tag, the text as it is; for any other file, its bytes. *)
Theorem html_response_carries_the_fragment_once
    (projectDir url : text) (w w' : world) (r : response) :
  handler projectDir url w = (Some r, w') ->
  status r = 200 ->
  disk w' = disk w /\
  exists filePath content,
    node_at filePath (disk w) = Some (File content) /\
    if teqb (to_lower (Path.extname filePath)) (lit ".html") then
      match cut closing_body (decode content) with
      | Some (pre, post) =>
          decode content = pre ++ closing_body ++ post /\
          body r = encode (pre ++ liveReloadScript ++ closing_body ++ post) /\
          (occurrences reload_marker (decode content) = 0%nat ->
           occurrences reload_marker
             (pre ++ liveReloadScript ++ closing_body ++ post) = 1%nat)
      | None => body r = encode (decode content)
      end
    else body r = content.
Proof.
  intros H Hs. split.
  - pose proof (handler_keeps_disk projectDir url w) as K.
    rewrite H in K. exact K.
  - destruct (ok_response_comes_from_a_file _ _ _ _ _ H Hs)
      as (filePath & content & Hnode & ->).
    exists filePath, content. split; [exact Hnode|].
    destruct (teqb (to_lower (Path.extname filePath)) (lit ".html")) eqn:E.
    + rewrite (respond_html _ _ E).
      destruct (cut closing_body (decode content)) as [[pre post]|] eqn:C.
      * pose proof (cut_spec _ _ _ _ C) as S.
        split; [exact S|]. split.
        -- rewrite (replace_first_plain _ _ _ _ _ script_has_no_dollar C).
           now rewrite <- app_assoc.
        -- intros Z. apply marker_count_after_injection. now rewrite <- S.
      * now rewrite (replace_first_absent _ _ _ C).
    + now apply respond_other.
Qed.

(** The amended statement at the entry page of the sample project. *)
Lemma html_response_witness :
  exists r w',
    handler (lit "/srv/app") (lit "/") (fresh served) = (Some r, w') /\
    status r = 200 /\
    disk w' = served /\
    occurrences reload_marker (decode (body r)) = 1%nat.
Proof.
  destruct (handler (lit "/srv/app") (lit "/") (fresh served))
    as [[r|] w'] eqn:H; [|vm_compute in H; discriminate].
  exists r, w'. split; [reflexivity|].
  assert (Hs : status r = 200).
  { vm_compute in H. inversion H. reflexivity. }
  split; [exact Hs|].
  destruct (html_response_carries_the_fragment_once _ _ _ _ _ H Hs)
    as (Hd & _). split; [exact Hd|].
  vm_compute in H. inversion H. vm_compute. reflexivity.
Defined.

End DevServerFacts.

(* ================================================================== *)
(** * The packager *)
(* ================================================================== *)

Module PackageFacts.

Import Utf8 FS Cmd Json Project Package Vocabulary PackageSpec TextFacts FSFacts CmdFacts Samples.
Local Open Scope cmd_scope.

(** Finds an element in a list that is written out. *)
Ltac in_list := repeat first [left; reflexivity | right].














(** An output name that does not contain [.cposplugin] gives a sidecar
    path equal to the archive path. *)
Lemma infoPath_without_extension (outputPath : text) :
  cut extension outputPath = None -> infoPath outputPath = outputPath.
Proof. apply replace_first_absent. Qed.

(** C9, at the failing input [--output plugin.zip]: the sidecar path is the
    archive path, and once the command has run the file of that name holds
    the JSON metadata; the archive that was written there first is gone,
    while the command reports a package of the archive's size. *)
Theorem sidecar_replaces_archive_without_extension :
  let projectDir := lit "/srv/app" in
  let o := {| output := Some (lit "plugin.zip") |} in
  let outputPath := Path.resolve projectDir (lit "plugin.zip") in
  let after := snd (run (packageCommand store projectDir o (lit "T1")) plugin) in
  infoPath outputPath = outputPath /\
  (exists data info,
     lookup (Path.components outputPath) (disk after) = Some (File data)
     /\ parse (decode data) = Some info
     /\ property (lit "packageSize") info
        = Some (Some (JNum (Z.of_nat
                  (List.length (store (archive_entries
                     (Path.components projectDir) false plugin))))))) /\
  lookup (Path.components outputPath) (disk after)
    <> Some (File (store (archive_entries
                            (Path.components projectDir) false plugin))) /\
  lines (log after)
  = [ DistNotFound; PackagedSuccessfully (lit "plugin.zip"); PackageFileValid ].
Proof.
  cbv zeta. split; [vm_compute; reflexivity|]. split.
  - eexists. eexists. split; [vm_compute; reflexivity|].
    split; vm_compute; reflexivity.
  - split; [vm_compute; discriminate|].
    vm_compute. reflexivity.
Qed.

(** C2, at the failing input: the archive write leaves an empty file.  The
    command does not fail: it writes the sidecar with a package size of 0
    and prints the success line, and only then the line that says the
    package file is empty. *)
Theorem empty_archive_is_reported_as_success :
  let projectDir := lit "/srv/app" in
  let o := {| output := None |} in
  let after :=
    snd (run (packageCommand empty_write projectDir o (lit "T1")) plugin) in
  lookup [lit "srv"; lit "app"; lit "demo-1.0.0.cposplugin"] (disk after)
    = Some (File []) /\
  (exists data info,
     lookup [lit "srv"; lit "app"; lit "demo-1.0.0.json"] (disk after)
       = Some (File data)
     /\ parse (decode data) = Some info
     /\ property (lit "packageSize") info = Some (Some (JNum 0))) /\
  lines (log after)
  = [ DistNotFound;
      PackagedSuccessfully (lit "demo-1.0.0.cposplugin");
      PackageFileEmpty ].
Proof.
  cbv zeta. split; [vm_compute; reflexivity|]. split.
  - eexists. eexists. split; [vm_compute; reflexivity|].
    split; vm_compute; reflexivity.
  - vm_compute. reflexivity.
Qed.





End PackageFacts.

(* ================================================================== *)
(** * The build *)
(* ================================================================== *)

Module BuildFacts.

Import Utf8 FS Cmd Json Project Minify Build Bundle Vocabulary BuildSpec.
Import TextFacts FSFacts CmdFacts Samples.
Local Open Scope cmd_scope.










(** Induction on a tree of files. *)
Lemma node_induction (P : node -> Prop) :
  (forall data, P (File data)) ->
  (forall es, Forall (fun e => P (snd e)) es -> P (Dir es)) ->
  forall n, P n.
Proof.
  intros HF HD. fix IH 1. intros [data|es].
  - apply HF.
  - apply HD. induction es as [|[k c] es IHes].
    + constructor.
    + constructor; [apply IH|exact IHes].
Qed.

(** Every file the walk finds lies strictly below the directory it
    started from. *)
Lemma find_in_below (ext : text) (n : node) :
  forall here p, In p (find_in ext here n) -> exists m r, p = here ++ m :: r.
Proof.
  induction n as [data|es IH] using node_induction; intros here p H.
  - contradiction.
  - cbn [find_in] in H.
    induction es as [|[item c] es IHes]; [contradiction|].
    inversion IH as [|? ? Hc Hes]; subst.
    destruct c as [data|sub].
    + destruct (ends_with ext item).
      * destruct H as [<-|H]; [now exists item, []|]. now apply IHes.
      * now apply IHes.
    + destruct (is_skipped item); [now apply IHes|].
      apply in_app_or in H as [H|H]; [|now apply IHes].
      cbn [snd] in Hc. destruct (Hc _ _ H) as (m & r & ->).
      exists item, (m :: r). now rewrite <- app_assoc.
Qed.














Lemma try_catch_bind_ok {A B} (m : M A) (k : A -> M B) (h : M B)
    (w w1 : world) (a : A) :
  m w = (Some a, w1) -> try_catch (bind m k) h w = try_catch (k a) h w1.
Proof. intros H. unfold try_catch, bind. now rewrite H. Qed.

Lemma try_catch_bind_throw {A B} (m : M A) (k : A -> M B) (h : M B)
    (w w1 : world) :
  m w = (None, w1) -> try_catch (bind m k) h w = h w1.
Proof. intros H. unfold try_catch, bind. now rewrite H. Qed.

Lemma pathExists_eq (p : path) (w : world) :
  pathExists p w = (Some (present p (disk w)), logged w [PathExists p]).
Proof. reflexivity. Qed.










Lemma disk_build_failed (w : world) : disk (snd (build_failed w)) = disk w.
Proof. reflexivity. Qed.











(** C7, at the failing input: a font in the library directory whose bytes
    are not UTF-8.  The build without minification writes it back with
    every ill-formed byte replaced by the three bytes of U+FFFD, while the
    same file among the assets arrives byte for byte. *)
Theorem library_member_is_recoded_not_copied :
  let after :=
    disk_after (buildCommand (lit "/srv/app") plain_build_options monday)
      plugin_with_font in
  lookup [lit "srv"; lit "app"; lit "lib"; lit "icons.woff"] plugin_with_font
    = Some (File [Byte.xff; Byte.xd8; Byte.x00; Byte.x41]) /\
  lookup [lit "srv"; lit "app"; lit "dist"; lit "lib"; lit "icons.woff"] after
    = Some (File [Byte.xef; Byte.xbf; Byte.xbd; Byte.xef; Byte.xbf; Byte.xbd;
                  Byte.x00; Byte.x41]) /\
  lookup [lit "srv"; lit "app"; lit "dist"; lit "assets"; lit "icons.woff"]
    after
    = Some (File [Byte.xff; Byte.xd8; Byte.x00; Byte.x41]) /\
  lines_after (buildCommand (lit "/srv/app") plain_build_options monday)
    plugin_with_font = [BuildCompleted].
Proof.
  cbv zeta. repeat split; vm_compute; reflexivity.
Qed.







End BuildFacts.
(* ================================================================== *)
(** * The bundler *)
(* ================================================================== *)

Module BundleFacts.

Import Text Path Utf8 FS Cmd Json Project Minify Build Bundle.
Import Vocabulary BuildSpec BundleSpec Samples.
Import TextFacts FSFacts CmdFacts BuildFacts.
Local Open Scope cmd_scope.















Lemma lookup_written (p : path) (data : bytes) (d : option node) :
  writable p d -> lookup p (with_file p data d) = Some (File data).
Proof.
  intros (Hp & Hdir & _). unfold with_file. now rewrite lookup_update_same.
Qed.














End BundleFacts.
(* ================================================================== *)
(** * The minifiers *)
(* ================================================================== *)

Module MinifyFacts.

Import Text Minify MinifySpec.

Lemma punct_is_not_space (c : char) : is_punct c = true -> is_space c = false.
Proof.
  unfold is_punct. intros H.
  repeat (apply orb_true_iff in H as [H|H]);
    apply N.eqb_eq in H; subst; reflexivity.
Qed.

Lemma blanks_flush (s : text) : blanks s = 0%nat <-> flush s.
Proof.
  unfold blanks. destruct s as [|c s]; cbn [take_while flush].
  - tauto.
  - destruct (is_space c); cbn [List.length]; split; congruence.
Qed.

Lemma skipn_blanks (s : text) : skipn (blanks s) s = drop_while is_space s.
Proof.
  unfold blanks. induction s as [|c s IH]; [reflexivity|].
  cbn [take_while drop_while]. destruct (is_space c); [exact IH|reflexivity].
Qed.

Lemma flush_drop_while (s : text) : flush (drop_while is_space s).
Proof.
  induction s as [|c s IH]; [exact I|].
  cbn [drop_while]. destruct (is_space c) eqn:E; [exact IH|exact E].
Qed.

Lemma drop_while_flush (s : text) : flush s -> drop_while is_space s = s.
Proof.
  destruct s as [|c s]; [reflexivity|]. cbn [flush drop_while].
  now intros ->.
Qed.

Lemma first_cons (c : char) (s : text) :
  first (c :: s) = if is_space c then first s else Some c.
Proof. unfold first. cbn [drop_while]. now destruct (is_space c). Qed.

Lemma blanks_cons (c : char) (s : text) :
  blanks (c :: s) = if is_space c then S (blanks s) else 0%nat.
Proof. unfold blanks. cbn [take_while]. now destruct (is_space c). Qed.

Lemma gap_first (s : text) :
  gap s = match first s with
          | Some c => if c =? lt then blanks s else 0%nat
          | None => 0%nat
          end.
Proof. unfold gap, first. now destruct (drop_while is_space s). Qed.

(** ** The end of a text *)

Lemma drop_while_snoc (s : text) (c : char) :
  drop_while is_space (s ++ [c])
  = match drop_while is_space s with
    | [] => if is_space c then [] else [c]
    | r => r ++ [c]
    end.
Proof.
  induction s as [|d s IH]; [reflexivity|].
  cbn [app drop_while]. destruct (is_space d); [exact IH|reflexivity].
Qed.

Lemma rev_drop_while (s : text) :
  rev (drop_while is_space (rev s)) = drop_end s.
Proof.
  induction s as [|c s IH]; [reflexivity|].
  cbn [rev drop_end]. rewrite drop_while_snoc, <- IH.
  destruct (drop_while is_space (rev s)) as [|d r] eqn:E.
  - cbn [rev]. now destruct (is_space c).
  - rewrite rev_app_distr. cbn [rev app].
    destruct (rev r ++ [d]) eqn:E'; [now destruct (rev r)|reflexivity].
Qed.

Lemma trim_eq (s : text) : trim s = drop_end (drop_while is_space s).
Proof. unfold trim. apply rev_drop_while. Qed.

(** What is left begins as the text did. *)
Lemma drop_end_head (s : text) :
  match drop_end s with
  | [] => True
  | d :: _ => exists r, s = d :: r
  end.
Proof.
  destruct s as [|c s]; [exact I|]. cbn [drop_end].
  destruct (drop_end s); [destruct (is_space c)|]; try exact I; now exists s.
Qed.

Lemma flush_drop_end (s : text) : flush s -> flush (drop_end s).
Proof.
  intros H. pose proof (drop_end_head s) as D.
  destruct (drop_end s) as [|d r]; [exact I|].
  destruct D as (r' & ->). exact H.
Qed.

Lemma first_drop_end (s : text) : first (drop_end s) = first s.
Proof.
  induction s as [|c s IH]; [reflexivity|].
  cbn [drop_end]. rewrite first_cons.
  destruct (drop_end s) as [|d r] eqn:E.
  - destruct (is_space c) eqn:Ec; [exact IH|].
    now rewrite first_cons, Ec.
  - rewrite first_cons. now rewrite IH.
Qed.

Lemma blanks_drop_end (s : text) :
  first s <> None -> blanks (drop_end s) = blanks s.
Proof.
  induction s as [|c s IH]; [reflexivity|].
  rewrite first_cons. cbn [drop_end]. rewrite blanks_cons.
  destruct (is_space c) eqn:Ec.
  - intros H. specialize (IH H). rewrite <- first_drop_end in H.
    destruct (drop_end s) as [|d r]; [contradiction|].
    now rewrite blanks_cons, Ec, IH.
  - intros _. destruct (drop_end s); now rewrite blanks_cons, Ec.
Qed.

Lemma gap_drop_end (s : text) : gap (drop_end s) = gap s.
Proof.
  rewrite !gap_first, first_drop_end.
  destruct (first s) as [c|] eqn:E; [|reflexivity].
  rewrite blanks_drop_end; [reflexivity|congruence].
Qed.

Lemma drop_end_again (s : text) : drop_end (drop_end s) = drop_end s.
Proof.
  induction s as [|c s IH]; [reflexivity|].
  cbn [drop_end]. destruct (drop_end s) as [|d r] eqn:E.
  - destruct (is_space c) eqn:Ec; [reflexivity|].
    cbn [drop_end]. now rewrite Ec.
  - cbn [drop_end] in *. rewrite IH. reflexivity.
Qed.

Lemma trim_trim (s : text) : trim (trim s) = trim s.
Proof.
  rewrite !trim_eq.
  rewrite (drop_while_flush (drop_end _)).
  - apply drop_end_again.
  - apply flush_drop_end, flush_drop_while.
Qed.

(** ** Conditions on every tail *)

Lemma every_tail_drop_while (H : char -> text -> Prop) (s : text) :
  every_tail H s -> every_tail H (drop_while is_space s).
Proof.
  induction s as [|c s IH]; [trivial|].
  cbn [drop_while]. destruct (is_space c); [|trivial].
  intros [_ Hs]. now apply IH.
Qed.

Lemma every_tail_drop_end (H : char -> text -> Prop) (s : text) :
  (forall c s', H c s' -> H c (drop_end s')) ->
  every_tail H s -> every_tail H (drop_end s).
Proof.
  intros Hend. induction s as [|c s IH]; [trivial|].
  intros [Hc Hs]. specialize (IH Hs). apply Hend in Hc.
  cbn [drop_end]. destruct (drop_end s) as [|d r].
  - destruct (is_space c); [exact I|]. split; [exact Hc|exact I].
  - split; [exact Hc|exact IH].
Qed.

Lemma every_tail_trim (H : char -> text -> Prop) (s : text) :
  (forall c s', H c s' -> H c (drop_end s')) ->
  every_tail H s -> every_tail H (trim s).
Proof.
  intros Hend Hs. rewrite trim_eq.
  now apply every_tail_drop_end, every_tail_drop_while.
Qed.

(** ** The page minifier *)

Lemma between_tags_skip (k : nat) (s : text) :
  between_tags k s = between_tags 0 (skipn k s).
Proof.
  revert k; induction s as [|c s IH]; intros [|k]; try reflexivity.
  cbn [between_tags skipn]. apply IH.
Qed.

Lemma between_tags_cons (c : char) (s : text) :
  is_space c = true ->
  between_tags 0 (c :: s) = c :: between_tags 0 s.
Proof.
  intros H. cbn [between_tags].
  destruct (c =? gt) eqn:E; [|reflexivity].
  apply N.eqb_eq in E. subst. discriminate.
Qed.

Lemma first_between_tags (s : text) : first (between_tags 0 s) = first s.
Proof.
  induction s as [|c s IH]; [reflexivity|].
  destruct (is_space c) eqn:Ec.
  - rewrite between_tags_cons by exact Ec. now rewrite !first_cons, Ec.
  - cbn [between_tags]. now rewrite !first_cons, Ec.
Qed.

Lemma blanks_between_tags (s : text) : blanks (between_tags 0 s) = blanks s.
Proof.
  induction s as [|c s IH]; [reflexivity|].
  destruct (is_space c) eqn:Ec.
  - rewrite between_tags_cons by exact Ec. now rewrite !blanks_cons, Ec, IH.
  - cbn [between_tags]. now rewrite !blanks_cons, Ec.
Qed.

Lemma gap_between_tags (s : text) : gap (between_tags 0 s) = gap s.
Proof.
  now rewrite !gap_first, first_between_tags, blanks_between_tags.
Qed.

(** Behind the white space dropped, the next tag opens. *)
Lemma gap_skip (s : text) : gap (skipn (gap s) s) = 0%nat.
Proof.
  destruct (gap s) as [|n] eqn:E; [exact E|].
  rewrite <- E. unfold gap in *.
  destruct (drop_while is_space s) as [|c r] eqn:D; [discriminate|].
  destruct (c =? lt) eqn:Ec; [|discriminate].
  rewrite skipn_blanks, D.
  apply N.eqb_eq in Ec. subst c. reflexivity.
Qed.

Lemma tags_tight_between_tags (k : nat) (s : text) :
  tags_tight (between_tags k s).
Proof.
  revert k; induction s as [|c s IH]; intros [|k]; try exact I.
  - cbn [between_tags]. split; [|apply IH].
    intros ->. rewrite N.eqb_refl.
    rewrite between_tags_skip, gap_between_tags. apply gap_skip.
  - cbn [between_tags]. apply IH.
Qed.

Lemma between_tags_fixed (s : text) : tags_tight s -> between_tags 0 s = s.
Proof.
  induction s as [|c s IH]; [reflexivity|].
  intros [Hc Hs]. cbn [between_tags].
  destruct (c =? gt) eqn:E.
  - apply N.eqb_eq in E. rewrite (Hc E). now rewrite IH.
  - now rewrite IH.
Qed.

Lemma collapse_runs_skip (k : nat) (s : text) :
  collapse_runs k s = collapse_runs 0 (skipn k s).
Proof.
  revert k; induction s as [|c s IH]; intros [|k]; try reflexivity.
  cbn [collapse_runs skipn]. apply IH.
Qed.

Lemma collapse_runs_flush (s : text) :
  flush s -> flush (collapse_runs 0 s).
Proof.
  destruct s as [|c s]; [trivial|]. cbn [flush collapse_runs].
  intros H. rewrite H. exact H.
Qed.

Lemma first_flush (s : text) :
  flush s -> first s = hd_error s.
Proof. intros H. unfold first. now rewrite drop_while_flush. Qed.

Lemma first_collapse_runs (s : text) : first (collapse_runs 0 s) = first s.
Proof.
  induction s as [|c s IH]; [reflexivity|].
  cbn [collapse_runs]. destruct (is_space c) eqn:Ec.
  - destruct (blanks s) as [|n] eqn:B.
    + now rewrite !first_cons, Ec.
    + rewrite collapse_runs_skip, <- B, skipn_blanks.
      rewrite !first_cons, Ec. cbn [is_space N.leb N.eqb andb orb].
      change (is_space 32) with true. cbv iota.
      pose proof (flush_drop_while s) as F.
      rewrite (first_flush _ (collapse_runs_flush _ F)).
      unfold first.
      destruct (drop_while is_space s) as [|d r]; [reflexivity|].
      cbn [flush] in F. cbn [collapse_runs]. now rewrite F.
  - now rewrite !first_cons, Ec.
Qed.

Lemma gap_collapse_runs (s : text) :
  gap s = 0%nat -> gap (collapse_runs 0 s) = 0%nat.
Proof.
  rewrite !gap_first, first_collapse_runs.
  destruct (first s) as [c|]; [|trivial].
  destruct (c =? lt); [|trivial].
  intros H. apply blanks_flush. apply collapse_runs_flush.
  now apply blanks_flush.
Qed.

Lemma tags_tight_collapse_runs (k : nat) (s : text) :
  tags_tight s -> tags_tight (collapse_runs k s).
Proof.
  revert k; induction s as [|c s IH]; intros k; [destruct k; trivial|].
  intros [Hc Hs]. destruct k as [|k]; [|cbn [collapse_runs]; now apply IH].
  cbn [collapse_runs]. destruct (is_space c) eqn:Ec.
  - destruct (blanks s) as [|n].
    + split; [|now apply IH].
      intros E. subst c. discriminate.
    + split; [|now apply IH]. intros E. discriminate.
  - split; [|now apply IH].
    intros E. apply gap_collapse_runs. now apply Hc.
Qed.

Lemma runs_single_collapse_runs (k : nat) (s : text) :
  runs_single (collapse_runs k s).
Proof.
  revert k; induction s as [|c s IH]; intros [|k]; try exact I.
  - cbn [collapse_runs]. destruct (is_space c) eqn:Ec.
    + destruct (blanks s) as [|n] eqn:B.
      * split; [|apply IH]. intros _.
        apply collapse_runs_flush. now apply blanks_flush.
      * split; [|apply IH]. intros _.
        rewrite collapse_runs_skip, <- B, skipn_blanks.
        apply collapse_runs_flush, flush_drop_while.
    + split; [|apply IH]. congruence.
  - cbn [collapse_runs]. apply IH.
Qed.

Lemma collapse_runs_fixed (s : text) :
  runs_single s -> collapse_runs 0 s = s.
Proof.
  induction s as [|c s IH]; [reflexivity|].
  intros [Hc Hs]. cbn [collapse_runs]. rewrite (IH Hs).
  destruct (is_space c); [|reflexivity].
  apply blanks_flush in Hc; [|reflexivity]. now rewrite Hc.
Qed.

Lemma tags_tight_trim (s : text) : tags_tight s -> tags_tight (trim s).
Proof.
  apply every_tail_trim. intros c s' H E. rewrite gap_drop_end. now apply H.
Qed.

Lemma runs_single_trim (s : text) : runs_single s -> runs_single (trim s).
Proof.
  apply every_tail_trim. intros c s' H E. apply flush_drop_end. now apply H.
Qed.

(** What the page minifier returns is left as it is by all its passes but
    the first. *)
Lemma minifyHtml_settled (s : text) :
  let m := minifyHtml s in
  trim (collapse_runs 0 (between_tags 0 m)) = m.
Proof.
  cbv zeta. unfold minifyHtml.
  set (x := strip_delimited (lit "<!--") (lit "-->") 0 s).
  rewrite between_tags_fixed.
  - rewrite collapse_runs_fixed; [apply trim_trim|].
    apply runs_single_trim, runs_single_collapse_runs.
  - apply tags_tight_trim, tags_tight_collapse_runs, tags_tight_between_tags.
Qed.

(** ** The style sheet minifier *)

Lemma single_spaces_skip (k : nat) (s : text) :
  single_spaces k s = single_spaces 0 (skipn k s).
Proof.
  revert k; induction s as [|c s IH]; intros [|k]; try reflexivity.
  cbn [single_spaces skipn]. apply IH.
Qed.

Lemma single_spaces_flush (s : text) : flush s -> flush (single_spaces 0 s).
Proof.
  destruct s as [|c s]; [trivial|]. cbn [flush single_spaces].
  intros H. rewrite H. exact H.
Qed.

Lemma spaces_plain_single_spaces (k : nat) (s : text) :
  spaces_plain (single_spaces k s).
Proof.
  revert k; induction s as [|c s IH]; intros [|k]; try exact I.
  - cbn [single_spaces]. destruct (is_space c) eqn:Ec.
    + split; [|apply IH]. intros _. split; [reflexivity|].
      rewrite single_spaces_skip, skipn_blanks.
      apply single_spaces_flush, flush_drop_while.
    + split; [|apply IH]. congruence.
  - cbn [single_spaces]. apply IH.
Qed.

Lemma single_spaces_fixed (s : text) :
  spaces_plain s -> single_spaces 0 s = s.
Proof.
  induction s as [|c s IH]; [reflexivity|].
  intros [Hc Hs]. cbn [single_spaces].
  destruct (is_space c).
  - destruct Hc as [-> F]; [reflexivity|].
    apply blanks_flush in F. rewrite F. now rewrite IH.
  - now rewrite IH.
Qed.

Lemma tighten_skip (k : nat) (s : text) :
  tighten k s = tighten 0 (skipn k s).
Proof.
  revert k; induction s as [|c s IH]; intros [|k]; try reflexivity.
  cbn [tighten skipn]. apply IH.
Qed.

Lemma tighten_cons (c : char) (s : text) :
  opens (c :: s) = false -> tighten 0 (c :: s) = c :: tighten 0 s.
Proof.
  unfold opens, first. intros H. cbn [tighten].
  destruct (drop_while is_space (c :: s)) as [|p after]; [reflexivity|].
  cbn [hd_error] in H. now rewrite H.
Qed.

Lemma skip_match (c p : char) (s after : text) :
  drop_while is_space (c :: s) = p :: after ->
  skipn (blanks (c :: s) + blanks after) s = drop_while is_space after.
Proof.
  intros D. rewrite <- skipn_blanks in D.
  rewrite Nat.add_comm, <- skipn_skipn.
  change (skipn (blanks (c :: s)) s)
    with (skipn (S (blanks (c :: s))) (c :: s)).
  change (S (blanks (c :: s))) with (1 + blanks (c :: s))%nat.
  rewrite <- skipn_skipn, D. cbn [skipn]. apply skipn_blanks.
Qed.

Lemma tighten_match (c : char) (s : text) :
  opens (c :: s) = true ->
  exists p after,
    drop_while is_space (c :: s) = p :: after /\ is_punct p = true /\
    tighten 0 (c :: s) = p :: tighten 0 (drop_while is_space after).
Proof.
  unfold opens, first. intros H. cbn [tighten].
  destruct (drop_while is_space (c :: s)) as [|p after] eqn:D; [discriminate|].
  cbn [hd_error] in H. exists p, after. rewrite H.
  split; [reflexivity|]. split; [reflexivity|].
  f_equal. rewrite tighten_skip. f_equal. exact (skip_match c p s after D).
Qed.

Lemma tighten_flush (s : text) : flush s -> flush (tighten 0 s).
Proof.
  destruct s as [|c s]; [trivial|]. intros H.
  destruct (opens (c :: s)) eqn:O.
  - destruct (tighten_match c s O) as (p & after & D & P & ->).
    cbn [flush]. now apply punct_is_not_space.
  - now rewrite tighten_cons.
Qed.

Lemma opens_cons (c : char) (s : text) :
  opens (c :: s) = if is_space c then opens s else is_punct c.
Proof. unfold opens. rewrite first_cons. now destruct (is_space c). Qed.

Lemma spaces_plain_tighten (k : nat) (s : text) :
  spaces_plain s -> spaces_plain (tighten k s).
Proof.
  revert k; induction s as [|c s IH]; intros k; [destruct k; trivial|].
  intros [Hc Hs]. destruct k as [|k]; [|cbn [tighten]; now apply IH].
  destruct (opens (c :: s)) eqn:O.
  - cbn [tighten]. unfold opens, first in O.
    destruct (drop_while is_space (c :: s)) as [|p after]; [discriminate|].
    cbn [hd_error] in O. rewrite O. split; [|now apply IH].
    intros E. rewrite (punct_is_not_space p O) in E. discriminate.
  - rewrite tighten_cons by exact O. split; [|now apply IH].
    intros E. destruct (Hc E) as [-> F]. split; [reflexivity|].
    now apply tighten_flush.
Qed.

Lemma punct_tight_tighten (k : nat) (s : text) :
  punct_tight (tighten k s).
Proof.
  revert k; induction s as [|c s IH]; intros [|k]; try exact I;
    [|cbn [tighten]; apply IH].
  destruct (opens (c :: s)) eqn:O.
  - pose proof (tighten_match c s O) as (p & after & D & P & E).
    assert (T : punct_tight (tighten 0 (c :: s))).
    { cbn [tighten]. rewrite D, P. split; [|apply IH].
      split.
      - intros Ep. rewrite (punct_is_not_space p P) in Ep. discriminate.
      - intros _. rewrite tighten_skip.
        rewrite (skip_match c p s after D).
        apply tighten_flush, flush_drop_while. }
    exact T.
  - rewrite tighten_cons by exact O. split; [|apply IH].
    rewrite opens_cons in O. split.
    + intros Ec. rewrite Ec in O.
      destruct s as [|d r]; [exact I|].
      destruct (opens (d :: r)) eqn:O'; [discriminate|].
      rewrite tighten_cons by exact O'.
      rewrite opens_cons in O'.
      destruct (is_punct d) eqn:Pd; [|reflexivity].
      now rewrite (punct_is_not_space d Pd) in O'.
    + intros Pc. rewrite (punct_is_not_space c Pc) in O. congruence.
Qed.

(** White space in a tight text is never followed by one of the five
    characters, however long the run. *)
Lemma punct_tight_opens (c : char) (s : text) :
  punct_tight (c :: s) -> is_space c = true -> opens (c :: s) = false.
Proof.
  revert c; induction s as [|d s IH]; intros c [[Hs _] Ht] Ec.
  - rewrite opens_cons, Ec. reflexivity.
  - rewrite opens_cons, Ec. specialize (Hs Ec). cbn beta iota in Hs.
    destruct (is_space d) eqn:Ed.
    + now apply IH.
    + rewrite opens_cons, Ed. exact Hs.
Qed.

Lemma tighten_fixed (s : text) : punct_tight s -> tighten 0 s = s.
Proof.
  induction s as [|c s IH]; [reflexivity|].
  intros H. pose proof H as [[Hs Hp] Ht].
  destruct (is_space c) eqn:Ec.
  - rewrite tighten_cons by now apply punct_tight_opens.
    now rewrite IH.
  - cbn [tighten drop_while]. rewrite Ec.
    destruct (is_punct c) eqn:Pc.
    + rewrite blanks_cons, Ec.
      apply blanks_flush in Hp; [|reflexivity]. rewrite Hp.
      cbn [Nat.add]. now rewrite IH.
    + now rewrite IH.
Qed.

Lemma drop_last_semicolon_skip (k : nat) (s : text) :
  drop_last_semicolon k s = drop_last_semicolon 0 (skipn k s).
Proof.
  revert k; induction s as [|c s IH]; intros [|k]; try reflexivity.
  cbn [drop_last_semicolon skipn]. apply IH.
Qed.

Lemma drop_last_semicolon_head (c : char) (s : text) :
  exists d r,
    drop_last_semicolon 0 (c :: s) = d :: r /\
    (d = c \/ (c = 59 /\ d = 125)).
Proof.
  cbn [drop_last_semicolon].
  destruct ((c =? 59) && starts_with [125] s) eqn:E.
  - apply andb_true_iff in E as [E _]. apply N.eqb_eq in E.
    eexists _, _. split; [reflexivity|]. now right.
  - eexists _, _. split; [reflexivity|]. now left.
Qed.

Lemma drop_last_semicolon_flush (s : text) :
  flush s -> flush (drop_last_semicolon 0 s).
Proof.
  destruct s as [|c s]; [trivial|]. intros H.
  destruct (drop_last_semicolon_head c s) as (d & r & -> & [->|[_ ->]]).
  - exact H.
  - reflexivity.
Qed.

Lemma spaces_plain_drop_last_semicolon (k : nat) (s : text) :
  spaces_plain s -> spaces_plain (drop_last_semicolon k s).
Proof.
  revert k; induction s as [|c s IH]; intros k; [destruct k; trivial|].
  intros [Hc Hs].
  destruct k as [|k]; [|cbn [drop_last_semicolon]; now apply IH].
  cbn [drop_last_semicolon].
  destruct ((c =? 59) && starts_with [125] s).
  - split; [|now apply IH]. intros E. discriminate.
  - split; [|now apply IH]. intros E. destruct (Hc E) as [-> F].
    split; [reflexivity|]. now apply drop_last_semicolon_flush.
Qed.

Lemma punct_tight_drop_last_semicolon (k : nat) (s : text) :
  punct_tight s -> punct_tight (drop_last_semicolon k s).
Proof.
  revert k; induction s as [|c s IH]; intros k; [destruct k; trivial|].
  intros [[Hs Hp] Ht].
  destruct k as [|k]; [|cbn [drop_last_semicolon]; now apply IH].
  cbn [drop_last_semicolon].
  destruct ((c =? 59) && starts_with [125] s) eqn:E.
  - split; [|now apply IH]. split; [intros Ec; discriminate|]. intros _.
    apply andb_true_iff in E as [_ E].
    destruct s as [|d r]; [discriminate|]. cbn [starts_with] in E.
    apply andb_true_iff in E as [E _]. apply N.eqb_eq in E. subst d.
    cbn [skipn]. rewrite drop_last_semicolon_skip. cbn [skipn].
    apply drop_last_semicolon_flush.
    destruct Ht as [[_ Hr] _]. now apply Hr.
  - split; [|now apply IH]. split.
    + intros Ec. specialize (Hs Ec).
      destruct s as [|d r]; [exact I|].
      destruct (drop_last_semicolon_head d r) as (d' & r' & -> & [->|[-> _]]).
      * exact Hs.
      * discriminate.
    + intros Pc. now apply drop_last_semicolon_flush, Hp.
Qed.

Lemma spaces_plain_trim (s : text) : spaces_plain s -> spaces_plain (trim s).
Proof.
  apply every_tail_trim. intros c s' H E. destruct (H E) as [-> F].
  split; [reflexivity|]. now apply flush_drop_end.
Qed.

Lemma punct_tight_trim (s : text) : punct_tight s -> punct_tight (trim s).
Proof.
  apply every_tail_trim. intros c s' [Hs Hp]. split.
  - intros E. specialize (Hs E). pose proof (drop_end_head s') as D.
    destruct (drop_end s') as [|d r]; [exact I|].
    destruct D as (r' & ->). exact Hs.
  - intros P. now apply flush_drop_end, Hp.
Qed.

(** What the style sheet minifier returns is left as it is by its passes
    over white space. *)
Lemma minifyCss_settled (s : text) :
  let m := minifyCss s in
  spaces_plain m /\ punct_tight m /\ trim m = m.
Proof.
  cbv zeta. unfold minifyCss.
  set (x := strip_delimited (lit "/*") (lit "*/") 0 s).
  split; [|split].
  - apply spaces_plain_trim, spaces_plain_drop_last_semicolon,
      spaces_plain_tighten, spaces_plain_single_spaces.
  - apply punct_tight_trim, punct_tight_drop_last_semicolon,
      punct_tight_tighten.
  - apply trim_trim.
Qed.

(** ** The script minifier *)

Lemma line_terminator_is_space (c : char) :
  is_line_terminator c = true -> is_space c = true.
Proof.
  unfold is_line_terminator. intros H.
  repeat (apply orb_true_iff in H as [H|H]);
    apply N.eqb_eq in H; subst; reflexivity.
Qed.

Lemma strip_indent_flush (b : bool) (s : text) :
  flush s -> flush (strip_indent b 0 s).
Proof.
  destruct s as [|c s]; [trivial|]. cbn [flush strip_indent].
  intros H. rewrite H, andb_false_r. exact H.
Qed.

(** Behind the white space dropped, the line begins. *)
Lemma strip_indent_skip (b : bool) (k : nat) (s : text) :
  flush (skipn k s) -> flush (strip_indent b k s).
Proof.
  revert b k; induction s as [|c s IH]; intros b [|k] H; try exact I.
  - now apply strip_indent_flush.
  - cbn [strip_indent]. apply IH. exact H.
Qed.

Lemma lines_flush_strip_indent (b : bool) (k : nat) (s : text) :
  lines_flush (strip_indent b k s).
Proof.
  revert b k; induction s as [|c s IH]; intros b [|k]; try exact I.
  - cbn [strip_indent]. destruct (b && is_space c) eqn:E; [apply IH|].
    split; [|apply IH]. intros L.
    rewrite (line_terminator_is_space c L) in E. rewrite andb_true_r in E.
    subst b. rewrite L.
    destruct s as [|d r]; [exact I|].
    cbn [strip_indent andb]. destruct (is_space d) eqn:Ed.
    + apply strip_indent_skip. rewrite skipn_blanks. apply flush_drop_while.
    + exact Ed.
  - cbn [strip_indent]. apply IH.
Qed.

Lemma strip_indent_fixed (b : bool) (s : text) :
  (b = true -> flush s) -> lines_flush s -> strip_indent b 0 s = s.
Proof.
  revert b; induction s as [|c s IH]; intros b Hb H; [reflexivity|].
  destruct H as [Hc Hs]. cbn [strip_indent].
  assert (E : b && is_space c = false).
  { destruct b; [|reflexivity]. cbn [andb]. now apply Hb. }
  rewrite E. f_equal. apply IH; [exact Hc|exact Hs].
Qed.

Lemma collapse_newlines_fixed (s : text) :
  lines_flush s -> collapse_newlines 0 s = s.
Proof.
  induction s as [|c s IH]; [reflexivity|].
  intros [Hc Hs]. cbn [collapse_newlines].
  destruct (c =? 10) eqn:E.
  - apply N.eqb_eq in E. subst c. specialize (Hc eq_refl).
    destruct s as [|d r]; [reflexivity|].
    cbn [flush] in Hc. cbn [take_while].
    destruct (d =? 10) eqn:Ed.
    + apply N.eqb_eq in Ed. subst d. discriminate.
    + cbn [List.length]. now rewrite IH.
  - now rewrite IH.
Qed.

Lemma lines_flush_trim (s : text) : lines_flush s -> lines_flush (trim s).
Proof.
  apply every_tail_trim. intros c s' H E. now apply flush_drop_end, H.
Qed.

Lemma flush_trim (s : text) : flush (trim s).
Proof. rewrite trim_eq. apply flush_drop_end, flush_drop_while. Qed.

(** What the script minifier returns is left as it is by its passes over
    white space. *)
Lemma minifyJs_settled (s : text) :
  let m := minifyJs s in
  trim (strip_indent true 0 (collapse_newlines 0 m)) = m.
Proof.
  cbv zeta. unfold minifyJs.
  set (x := strip_delimited (lit "/*") (lit "*/") 0
              (strip_line_comments 0 s)).
  assert (L : lines_flush (trim (strip_indent true 0 (collapse_newlines 0 x))))
    by apply lines_flush_trim, lines_flush_strip_indent.
  rewrite (collapse_newlines_fixed _ L).
  rewrite (strip_indent_fixed true _ (fun _ => flush_trim _) L).
  apply trim_trim.
Qed.

(** C6, as stated, on three inputs: minifying what the minifier returned
    takes more away, and not white space at the ends.  In the page a
    comment opens only once the comment inside it is gone; in the style
    sheet a second semicolon comes to stand before the brace; in the script
    a line comment is kept for the quotes in it, which the removal of the
    block comment then takes away. *)
Lemma second_pass_removes_more :
  let page := lit "<p> a </p>  <!-<!-- x -->- secret -->" in
  let sheet := lit "a { color : red ; ; }" in
  let script := lit "run(); // see /* 'x' */ below" ++ [10] ++ lit "next();" in
  minifyHtml page = lit "<p> a </p><!-- secret -->" /\
  minifyHtml (minifyHtml page) = lit "<p> a </p>" /\
  minifyCss sheet = lit "a{color:red;}" /\
  minifyCss (minifyCss sheet) = lit "a{color:red}" /\
  minifyJs script = lit "run(); // see  below" ++ [10] ++ lit "next();" /\
  minifyJs (minifyJs script) = lit "run(); " ++ [10] ++ lit "next();".
Proof. cbv zeta. repeat split; vm_compute; reflexivity. Qed.

(** C6, amended.  What a minifier returns is left as it is by all its
    passes over white space, so that minifying it again changes it only
    where the passes that remove text find something new: the page
    minifier returns its own output unchanged when that output holds no
    comment; the style sheet minifier when its output holds no comment and
    no semicolon before a closing brace; the script minifier when its
    output holds no block comment and no line comment free of quotes. *)
Theorem minifiers_settle_but_for_removals (s : text) :
  (let m := minifyHtml s in
   strip_delimited (lit "<!--") (lit "-->") 0 m = m ->
   minifyHtml m = m) /\
  (let m := minifyCss s in
   strip_delimited (lit "/*") (lit "*/") 0 m = m ->
   drop_last_semicolon 0 m = m ->
   minifyCss m = m) /\
  (let m := minifyJs s in
   strip_line_comments 0 m = m ->
   strip_delimited (lit "/*") (lit "*/") 0 m = m ->
   minifyJs m = m).
Proof.
  split; [|split]; cbv zeta.
  - intros H. unfold minifyHtml at 1. rewrite H. apply minifyHtml_settled.
  - intros H D. destruct (minifyCss_settled s) as (P & T & E).
    unfold minifyCss at 1. rewrite H.
    rewrite (single_spaces_fixed _ P), (tighten_fixed _ T), D. exact E.
  - intros L B. unfold minifyJs at 1. rewrite L, B. apply minifyJs_settled.
Qed.

(** The amended statement on a page, a style sheet and a script with
    comments and idle white space. *)
Lemma minifiers_witness :
  let nl := map (fun c => if c =? 126 then 10 else c) in
  let page :=
    nl (lit "<div>~  <p> a   b </p> <!-- note -->~  <p>c</p>~</div>~") in
  let sheet :=
    nl (lit "/* head */~a , b {~  color : red ;~  margin : 0 ;~}~") in
  let script :=
    nl (lit "// start~function f() {~~~    return 1; /* one */~}~") in
  (minifyHtml page = lit "<div><p> a b </p><p>c</p></div>" /\
   minifyHtml (minifyHtml page) = minifyHtml page) /\
  (minifyCss sheet = lit "a,b{color:red;margin:0}" /\
   minifyCss (minifyCss sheet) = minifyCss sheet) /\
  (minifyJs script = nl (lit "function f() {~return 1; ~}") /\
   minifyJs (minifyJs script) = minifyJs script).
Proof.
  cbv zeta.
  split; [|split]; (split; [vm_compute; reflexivity|]).
  - apply (minifiers_settle_but_for_removals _). vm_compute. reflexivity.
  - apply (minifiers_settle_but_for_removals _); vm_compute; reflexivity.
  - apply (minifiers_settle_but_for_removals _); vm_compute; reflexivity.
Defined.

End MinifyFacts.
(* ================================================================== *)
(** * More about the minifiers *)
(* ================================================================== *)

Module MinifyShape.

Import Text Minify MinifySpec MinifyText MinifyFacts.

(** ** What the minifiers return *)

Lemma every_tail_at (H : char -> text -> Prop) (a : text) (c : char)
    (s : text) :
  every_tail H (a ++ c :: s) -> H c s.
Proof.
  induction a as [|x a IH]; cbn [app every_tail]; intros [Hc Hs];
    [exact Hc|now apply IH].
Qed.

Lemma flush_trim_end (s : text) (c : char) (a : text) :
  trim s = a ++ [c] -> is_space c = false.
Proof.
  rewrite trim_eq. generalize (drop_while is_space s). clear s.
  intros s. revert a. induction s as [|x s IH]; intros a E.
  - destruct a; discriminate.
  - cbn [drop_end] in E. destruct (drop_end s) as [|d r] eqn:D.
    + destruct (is_space x) eqn:Ex.
      * destruct a; discriminate.
      * destruct a as [|y a]; [now inversion E; subst|].
        destruct a; discriminate.
    + destruct a as [|y a]; [discriminate|].
      inversion E; subst. now apply (IH a).
Qed.

Lemma gap_white (w b : text) :
  forallb is_space w = true -> gap (w ++ lt :: b) = List.length w.
Proof.
  intros H. rewrite gap_first.
  assert (F : first (w ++ lt :: b) = Some lt /\
              blanks (w ++ lt :: b) = List.length w).
  { induction w as [|x w IH]; [split; reflexivity|].
    cbn [forallb] in H. apply andb_true_iff in H as [Hx Hw].
    destruct (IH Hw) as [F B]. cbn [app].
    rewrite first_cons, blanks_cons, Hx, F, B. split; reflexivity. }
  destruct F as [-> ->]. reflexivity.
Qed.

(** The page minifier returns a text with no white space at either end,
    no two characters of white space in a row, and no white space between
    a [>] and the next [<]. *)
Theorem minifyHtml_output_shape (s : text) :
  let m := minifyHtml s in
  (forall c r, m = c :: r -> is_space c = false) /\
  (forall a c, m = a ++ [c] -> is_space c = false) /\
  (forall a x y b, m = a ++ x :: y :: b ->
     is_space x = true -> is_space y = false) /\
  (forall a w b, m = a ++ [gt] ++ w ++ [lt] ++ b ->
     forallb is_space w = true -> w = []).
Proof.
  cbv zeta. unfold minifyHtml.
  set (x := strip_delimited (lit "<!--") (lit "-->") 0 s).
  set (y := collapse_runs 0 (between_tags 0 x)).
  assert (S1 : runs_single (trim y))
    by apply runs_single_trim, runs_single_collapse_runs.
  assert (S2 : tags_tight (trim y))
    by apply tags_tight_trim, tags_tight_collapse_runs,
         tags_tight_between_tags.
  split; [|split; [|split]].
  - intros c r E. pose proof (flush_trim y) as F. rewrite E in F. exact F.
  - intros a c E. exact (flush_trim_end y c a E).
  - intros a c d b E Hc. rewrite E in S1.
    apply every_tail_at in S1. exact (S1 Hc).
  - intros a w b E Hw. rewrite E in S2. cbn [app] in S2.
    apply every_tail_at in S2. specialize (S2 eq_refl).
    rewrite gap_white in S2 by exact Hw.
    now destruct w.
Qed.

(** The style sheet minifier returns a text with no white space at either
    end, whose only white space is single spaces, none of them next to one
    of the characters [{ : ; , }]. *)
Theorem minifyCss_output_shape (s : text) :
  let m := minifyCss s in
  (forall c r, m = c :: r -> is_space c = false) /\
  (forall a c, m = a ++ [c] -> is_space c = false) /\
  (forall a c b, m = a ++ c :: b -> is_space c = true -> c = 32) /\
  (forall a x y b, m = a ++ x :: y :: b ->
     is_space x = true -> is_space y = false /\ is_punct y = false) /\
  (forall a x y b, m = a ++ x :: y :: b ->
     is_punct x = true -> is_space y = false).
Proof.
  cbv zeta. destruct (minifyCss_settled s) as (P & T & E).
  unfold minifyCss in *.
  set (y := drop_last_semicolon 0
              (tighten 0
                 (single_spaces 0
                    (strip_delimited (lit "/*") (lit "*/") 0 s)))) in *.
  split; [|split; [|split; [|split]]].
  - intros c r H. pose proof (flush_trim y) as F. rewrite H in F. exact F.
  - intros a c H. exact (flush_trim_end y c a H).
  - intros a c b H Hc. rewrite H in P. apply every_tail_at in P.
    now destruct (P Hc).
  - intros a c d b H Hc. pose proof P as P'. rewrite H in P', T.
    apply every_tail_at in P'. apply every_tail_at in T.
    destruct (P' Hc) as [_ F]. destruct T as [Hs _].
    split; [exact F|exact (Hs Hc)].
  - intros a c d b H Hc. rewrite H in T. apply every_tail_at in T.
    destruct T as [_ Hp]. exact (Hp Hc).
Qed.

(** The script minifier returns a text with no white space at either end
    and none at the start of a line; in particular it has no empty
    line. *)
Theorem minifyJs_output_shape (s : text) :
  let m := minifyJs s in
  (forall c r, m = c :: r -> is_space c = false) /\
  (forall a c, m = a ++ [c] -> is_space c = false) /\
  (forall a x y b, m = a ++ x :: y :: b ->
     is_line_terminator x = true -> is_space y = false).
Proof.
  cbv zeta. unfold minifyJs.
  set (y := strip_indent true 0
              (collapse_newlines 0
                 (strip_delimited (lit "/*") (lit "*/") 0
                    (strip_line_comments 0 s)))).
  assert (L : lines_flush (trim y))
    by apply lines_flush_trim, lines_flush_strip_indent.
  split; [|split].
  - intros c r E. pose proof (flush_trim y) as F. rewrite E in F. exact F.
  - intros a c E. exact (flush_trim_end y c a E).
  - intros a c d b E Hc. rewrite E in L. apply every_tail_at in L.
    exact (L Hc).
Qed.

(** ** No pass makes a text longer *)

Lemma length_strip_delimited (op cl : text) (k : nat) (s : text) :
  (List.length (strip_delimited op cl k s) <= List.length s)%nat.
Proof.
  revert k; induction s as [|c s IH]; intros k; [destruct k; cbn; lia|].
  destruct k as [|k]; cbn [strip_delimited List.length].
  - destruct (starts_with op (c :: s)).
    + destruct (cut cl (skipn (List.length op) (c :: s))) as [[inner rest]|].
      * specialize (IH (List.length op + List.length inner
                        + List.length cl - 1)%nat). lia.
      * cbn [List.length]. specialize (IH 0%nat). lia.
    + cbn [List.length]. specialize (IH 0%nat). lia.
  - specialize (IH k). lia.
Qed.

Lemma length_between_tags (k : nat) (s : text) :
  (List.length (between_tags k s) <= List.length s)%nat.
Proof.
  revert k; induction s as [|c s IH]; intros k; [destruct k; cbn; lia|].
  destruct k as [|k]; cbn [between_tags List.length].
  - specialize (IH (if c =? gt then gap s else 0%nat)). lia.
  - specialize (IH k). lia.
Qed.

Lemma length_collapse_runs (k : nat) (s : text) :
  (List.length (collapse_runs k s) <= List.length s)%nat.
Proof.
  revert k; induction s as [|c s IH]; intros k; [destruct k; cbn; lia|].
  destruct k as [|k]; cbn [collapse_runs List.length].
  - destruct (is_space c); [destruct (blanks s) as [|n]|];
      cbn [List.length].
    + specialize (IH 0%nat). lia.
    + specialize (IH (S n)). lia.
    + specialize (IH 0%nat). lia.
  - specialize (IH k). lia.
Qed.

Lemma length_single_spaces (k : nat) (s : text) :
  (List.length (single_spaces k s) <= List.length s)%nat.
Proof.
  revert k; induction s as [|c s IH]; intros k; [destruct k; cbn; lia|].
  destruct k as [|k]; cbn [single_spaces List.length].
  - destruct (is_space c); cbn [List.length].
    + specialize (IH (blanks s)). lia.
    + specialize (IH 0%nat). lia.
  - specialize (IH k). lia.
Qed.

Lemma length_tighten (k : nat) (s : text) :
  (List.length (tighten k s) <= List.length s)%nat.
Proof.
  revert k; induction s as [|c s IH]; intros k; [destruct k; cbn; lia|].
  destruct k as [|k]; cbn [tighten List.length].
  - destruct (drop_while is_space (c :: s)) as [|p after].
    + cbn [List.length]. specialize (IH 0%nat). lia.
    + destruct (is_punct p); cbn [List.length].
      * specialize (IH (blanks (c :: s) + blanks after)%nat). lia.
      * specialize (IH 0%nat). lia.
  - specialize (IH k). lia.
Qed.

Lemma length_drop_last_semicolon (k : nat) (s : text) :
  (List.length (drop_last_semicolon k s) <= List.length s)%nat.
Proof.
  revert k; induction s as [|c s IH]; intros k; [destruct k; cbn; lia|].
  destruct k as [|k]; cbn [drop_last_semicolon List.length].
  - destruct ((c =? 59) && starts_with [125] s); cbn [List.length].
    + specialize (IH 1%nat). lia.
    + specialize (IH 0%nat). lia.
  - specialize (IH k). lia.
Qed.

Lemma length_strip_line_comments (k : nat) (s : text) :
  (List.length (strip_line_comments k s) <= List.length s)%nat.
Proof.
  revert k; induction s as [|c s IH]; intros k; [destruct k; cbn; lia|].
  destruct k as [|k]; cbn [strip_line_comments List.length].
  - destruct (starts_with (lit "//") (c :: s)
              && negb (existsb is_quote (to_newline (skipn 2 (c :: s))))).
    + match goal with |- (List.length (strip_line_comments ?n s) <= _)%nat =>
        specialize (IH n) end. lia.
    + cbn [List.length]. specialize (IH 0%nat). lia.
  - specialize (IH k). lia.
Qed.

Lemma length_collapse_newlines (k : nat) (s : text) :
  (List.length (collapse_newlines k s) <= List.length s)%nat.
Proof.
  revert k; induction s as [|c s IH]; intros k; [destruct k; cbn; lia|].
  destruct k as [|k]; cbn [collapse_newlines List.length].
  - match goal with |- (S (List.length (collapse_newlines ?n s)) <= _)%nat =>
      specialize (IH n) end. lia.
  - specialize (IH k). lia.
Qed.

Lemma length_strip_indent (b : bool) (k : nat) (s : text) :
  (List.length (strip_indent b k s) <= List.length s)%nat.
Proof.
  revert b k; induction s as [|c s IH]; intros b k; [destruct k; cbn; lia|].
  destruct k as [|k]; cbn [strip_indent List.length].
  - destruct (b && is_space c); cbn [List.length].
    + specialize (IH (is_line_terminator c) (blanks s)). lia.
    + specialize (IH (is_line_terminator c) 0%nat). lia.
  - specialize (IH (is_line_terminator c) k). lia.
Qed.

Lemma length_drop_while (s : text) :
  (List.length (drop_while is_space s) <= List.length s)%nat.
Proof.
  induction s as [|c s IH]; [cbn; lia|].
  cbn [drop_while]. destruct (is_space c); cbn [List.length]; lia.
Qed.

Lemma length_drop_end (s : text) :
  (List.length (drop_end s) <= List.length s)%nat.
Proof.
  induction s as [|c s IH]; [cbn; lia|].
  cbn [drop_end]. destruct (drop_end s); [destruct (is_space c)|];
    cbn [List.length] in *; lia.
Qed.

Lemma length_trim (s : text) : (List.length (trim s) <= List.length s)%nat.
Proof.
  rewrite trim_eq. pose proof (length_drop_end (drop_while is_space s)).
  pose proof (length_drop_while s). lia.
Qed.

(** None of the three minifiers returns a text longer than the one it was
    given. *)
Theorem minifiers_never_lengthen (s : text) :
  (List.length (minifyHtml s) <= List.length s)%nat /\
  (List.length (minifyCss s) <= List.length s)%nat /\
  (List.length (minifyJs s) <= List.length s)%nat.
Proof.
  unfold minifyHtml, minifyCss, minifyJs. repeat split.
  - eapply Nat.le_trans; [apply length_trim|].
    eapply Nat.le_trans; [apply length_collapse_runs|].
    eapply Nat.le_trans; [apply length_between_tags|].
    apply length_strip_delimited.
  - eapply Nat.le_trans; [apply length_trim|].
    eapply Nat.le_trans; [apply length_drop_last_semicolon|].
    eapply Nat.le_trans; [apply length_tighten|].
    eapply Nat.le_trans; [apply length_single_spaces|].
    apply length_strip_delimited.
  - eapply Nat.le_trans; [apply length_trim|].
    eapply Nat.le_trans; [apply length_strip_indent|].
    eapply Nat.le_trans; [apply length_collapse_newlines|].
    eapply Nat.le_trans; [apply length_strip_delimited|].
    apply length_strip_line_comments.
Qed.

(** ** The passes over white space leave the rest alone *)

Lemma solid_cons (c : char) (s : text) :
  solid (c :: s) = if is_space c then solid s else c :: solid s.
Proof. unfold solid. cbn [filter]. now destruct (is_space c). Qed.

Lemma blanks_le_cons (k : nat) (c : char) (s : text) :
  (S k <= blanks (c :: s))%nat -> is_space c = true /\ (k <= blanks s)%nat.
Proof.
  rewrite blanks_cons. destruct (is_space c); [|lia]. split; [reflexivity|lia].
Qed.

Lemma gap_le_blanks (s : text) : (gap s <= blanks s)%nat.
Proof.
  unfold gap. destruct (drop_while is_space s) as [|c r]; [lia|].
  destruct (c =? lt); lia.
Qed.

Lemma solid_between_tags (k : nat) (s : text) :
  (k <= blanks s)%nat -> solid (between_tags k s) = solid s.
Proof.
  revert k; induction s as [|c s IH]; intros k Hk;
    [destruct k; reflexivity|].
  destruct k as [|k]; cbn [between_tags].
  - rewrite !solid_cons, IH; [reflexivity|].
    destruct (c =? gt); [apply gap_le_blanks|lia].
  - apply blanks_le_cons in Hk as [Hc Hk].
    rewrite solid_cons, Hc. now apply IH.
Qed.

Lemma solid_collapse_runs (k : nat) (s : text) :
  (k <= blanks s)%nat -> solid (collapse_runs k s) = solid s.
Proof.
  revert k; induction s as [|c s IH]; intros k Hk;
    [destruct k; reflexivity|].
  destruct k as [|k]; cbn [collapse_runs].
  - destruct (is_space c) eqn:Ec.
    + destruct (blanks s) as [|n] eqn:B.
      * rewrite !solid_cons, Ec. apply IH. lia.
      * rewrite !solid_cons, Ec. change (is_space 32) with true. cbv iota.
        apply IH. lia.
    + rewrite !solid_cons, Ec. f_equal. apply IH. lia.
  - apply blanks_le_cons in Hk as [Hc Hk].
    rewrite solid_cons, Hc. now apply IH.
Qed.

Lemma solid_drop_while (s : text) : solid (drop_while is_space s) = solid s.
Proof.
  induction s as [|c s IH]; [reflexivity|].
  cbn [drop_while]. rewrite solid_cons.
  destruct (is_space c) eqn:Ec; [exact IH|]. now rewrite solid_cons, Ec.
Qed.

Lemma solid_drop_end (s : text) : solid (drop_end s) = solid s.
Proof.
  induction s as [|c s IH]; [reflexivity|].
  cbn [drop_end]. rewrite solid_cons.
  destruct (drop_end s) as [|d r] eqn:D.
  - rewrite <- IH. destruct (is_space c) eqn:Ec; [reflexivity|].
    now rewrite solid_cons, Ec.
  - now rewrite solid_cons, IH.
Qed.

Lemma solid_trim (s : text) : solid (trim s) = solid s.
Proof. now rewrite trim_eq, solid_drop_end, solid_drop_while. Qed.

Lemma solid_single_spaces (k : nat) (s : text) :
  (k <= blanks s)%nat -> solid (single_spaces k s) = solid s.
Proof.
  revert k; induction s as [|c s IH]; intros k Hk;
    [destruct k; reflexivity|].
  destruct k as [|k]; cbn [single_spaces].
  - destruct (is_space c) eqn:Ec.
    + rewrite !solid_cons, Ec. change (is_space 32) with true. cbv iota.
      apply IH. lia.
    + rewrite !solid_cons, Ec. f_equal. apply IH. lia.
  - apply blanks_le_cons in Hk as [Hc Hk].
    rewrite solid_cons, Hc. now apply IH.
Qed.

Lemma solid_tighten_bounded (n : nat) (s : text) :
  (List.length s <= n)%nat -> solid (tighten 0 s) = solid s.
Proof.
  revert s; induction n as [|n IH]; intros s Hn.
  - destruct s; [reflexivity|cbn in Hn; lia].
  - destruct s as [|c s]; [reflexivity|]. cbn [List.length] in Hn.
    destruct (opens (c :: s)) eqn:O.
    + destruct (tighten_match c s O) as (p & after & D & P & ->).
      rewrite <- (solid_drop_while (c :: s)), D.
      rewrite !solid_cons, (punct_is_not_space p P). f_equal.
      rewrite IH; [apply solid_drop_while|].
      pose proof (length_drop_while after).
      pose proof (length_drop_while (c :: s)) as L. rewrite D in L.
      cbn [List.length] in L. lia.
    + rewrite tighten_cons by exact O. rewrite !solid_cons.
      rewrite IH by lia. reflexivity.
Qed.

Lemma solid_tighten (s : text) : solid (tighten 0 s) = solid s.
Proof. now apply (solid_tighten_bounded (List.length s)). Qed.

Lemma solid_flush (s : text) :
  flush s -> match s with
             | [] => solid s = []
             | c :: r => solid s = c :: solid r
             end.
Proof.
  destruct s as [|c r]; [reflexivity|]. cbn [flush]. intros H.
  now rewrite solid_cons, H.
Qed.

Lemma starts_with_brace_solid (s : text) :
  flush s -> starts_with [125] (solid s) = starts_with [125] s.
Proof.
  intros F. destruct s as [|c r]; [reflexivity|].
  cbn [flush] in F. rewrite solid_cons, F. reflexivity.
Qed.

(** On a text with no white space next to the five characters, taking the
    semicolon before a brace away and taking the white space away can be
    done in either order. *)
Lemma solid_drop_last_semicolon_bounded (n : nat) (s : text) :
  (List.length s <= n)%nat -> punct_tight s ->
  solid (drop_last_semicolon 0 s) = drop_last_semicolon 0 (solid s).
Proof.
  revert s; induction n as [|n IH]; intros s Hn T.
  - destruct s; [reflexivity|cbn in Hn; lia].
  - destruct s as [|c s]; [reflexivity|]. cbn [List.length] in Hn.
    destruct T as [[Hs Hp] T]. cbn [drop_last_semicolon].
    destruct (c =? 59) eqn:Ec.
    + apply N.eqb_eq in Ec. subst c. cbn [andb].
      specialize (Hp eq_refl).
      rewrite (solid_cons 59 s). change (is_space 59) with false. cbv iota.
      cbn [drop_last_semicolon]. change (59 =? 59) with true. cbn [andb].
      rewrite (starts_with_brace_solid s Hp).
      destruct (starts_with [125] s) eqn:B.
      * destruct s as [|d r]; [discriminate|].
        cbn [starts_with] in B. apply andb_true_iff in B as [B _].
        apply N.eqb_eq in B. subst d.
        rewrite (solid_cons 125 r). change (is_space 125) with false.
        cbv iota. cbn [drop_last_semicolon].
        rewrite (solid_cons 125). change (is_space 125) with false. cbv iota.
        f_equal.
        destruct T as [_ T]. apply IH; [cbn [List.length] in Hn; lia|exact T].
      * rewrite solid_cons. change (is_space 59) with false. cbv iota.
        f_equal. apply IH; [lia|exact T].
    + cbn [andb]. rewrite !solid_cons.
      destruct (is_space c) eqn:Sc.
      * apply IH; [lia|exact T].
      * cbn [drop_last_semicolon]. rewrite Ec. cbn [andb].
        f_equal. apply IH; [lia|exact T].
Qed.

Lemma le_length_take_while_newlines (s : text) :
  (List.length (take_while (fun c => (c =? 10)%N) s) <= blanks s)%nat.
Proof.
  unfold blanks. induction s as [|c s IH]; [cbn; lia|].
  cbn [take_while]. destruct (c =? 10) eqn:E.
  - apply N.eqb_eq in E. subst c. change (is_space 10) with true.
    cbn [List.length]. lia.
  - cbn [List.length]. lia.
Qed.

Lemma solid_collapse_newlines (k : nat) (s : text) :
  (k <= blanks s)%nat -> solid (collapse_newlines k s) = solid s.
Proof.
  revert k; induction s as [|c s IH]; intros k Hk;
    [destruct k; reflexivity|].
  destruct k as [|k]; cbn [collapse_newlines].
  - rewrite !solid_cons, IH; [reflexivity|].
    destruct (c =? 10); [apply le_length_take_while_newlines|lia].
  - apply blanks_le_cons in Hk as [Hc Hk].
    rewrite solid_cons, Hc. now apply IH.
Qed.

Lemma solid_strip_indent (b : bool) (k : nat) (s : text) :
  (k <= blanks s)%nat -> solid (strip_indent b k s) = solid s.
Proof.
  revert b k; induction s as [|c s IH]; intros b k Hk;
    [destruct k; reflexivity|].
  destruct k as [|k]; cbn [strip_indent].
  - destruct (b && is_space c) eqn:E.
    + apply andb_true_iff in E as [_ E]. rewrite solid_cons, E.
      apply IH. lia.
    + rewrite !solid_cons. rewrite IH by lia. reflexivity.
  - apply blanks_le_cons in Hk as [Hc Hk].
    rewrite solid_cons, Hc. now apply IH.
Qed.

(** Apart from the comments they remove, the minifiers change white space
    only, and the style sheet minifier a semicolon before a closing brace:
    the characters that are not white space come out as they went in, in
    the same order. *)
Theorem minifiers_keep_the_text (s : text) :
  solid (minifyHtml s)
  = solid (strip_delimited (lit "<!--") (lit "-->") 0 s) /\
  solid (minifyCss s)
  = drop_last_semicolon 0
      (solid (strip_delimited (lit "/*") (lit "*/") 0 s)) /\
  solid (minifyJs s)
  = solid (strip_delimited (lit "/*") (lit "*/") 0
             (strip_line_comments 0 s)).
Proof.
  unfold minifyHtml, minifyCss, minifyJs. split; [|split].
  - rewrite solid_trim, solid_collapse_runs, solid_between_tags by lia.
    reflexivity.
  - rewrite solid_trim.
    rewrite (solid_drop_last_semicolon_bounded _ _ (Nat.le_refl _)
               (punct_tight_tighten 0 _)).
    rewrite solid_tighten, solid_single_spaces by lia. reflexivity.
  - rewrite solid_trim, solid_strip_indent, solid_collapse_newlines by lia.
    reflexivity.
Qed.

End MinifyShape.
(* ================================================================== *)
(** * The walk of the project tree *)
(* ================================================================== *)

Module TreeFacts.

Import Text Path Utf8 FS Cmd Json Project Vocabulary TreeSpec.
Import TextFacts FSFacts CmdFacts BuildFacts Samples.
Local Open Scope cmd_scope.

Lemma lookup_nothing (p : path) : lookup p None = None.
Proof. now destruct p. Qed.

Lemma lookup_in_file (p : path) (data : bytes) :
  p <> [] -> lookup p (Some (File data)) = None.
Proof. destruct p; [contradiction|reflexivity]. Qed.

Lemma lookup_app (p q : path) (d : option node) :
  lookup (p ++ q) d = lookup q (lookup p d).
Proof.
  revert d; induction p as [|n p IH]; intros d; [reflexivity|].
  cbn [app lookup]. destruct d as [[data|es]|]; try apply IH;
    now rewrite lookup_nothing.
Qed.

Lemma existsb_teqb (n : text) (names : list text) :
  existsb (teqb n) names = true <-> In n names.
Proof.
  rewrite existsb_exists. split.
  - intros (x & Hx & E). apply teqb_eq in E. now subst.
  - intros H. exists n. split; [exact H|apply teqb_refl].
Qed.

Lemma assoc_in (n : text) (es : entries) (c : node) :
  assoc n es = Some c -> In n (map fst es).
Proof.
  induction es as [|[m x] es IH]; [discriminate|].
  cbn [assoc map fst]. destruct (teqb m n) eqn:E.
  - apply teqb_eq in E. now left.
  - intros H. right. now apply IH.
Qed.

Lemma unique_names_cons (item : text) (c : node) (es : entries) :
  unique_names (Dir ((item, c) :: es)) = true ->
  ~ In item (map fst es) /\ unique_names c = true
  /\ unique_names (Dir es) = true.
Proof.
  cbn [unique_names map fst distinct]. intros H.
  apply andb_true_iff in H as [H1 H2].
  apply andb_true_iff in H1 as [Hn Hd].
  apply andb_true_iff in H2 as [Hc Ha].
  split; [|split].
  - intros Hin. apply existsb_teqb in Hin. rewrite Hin in Hn. discriminate.
  - exact Hc.
  - now rewrite Hd, Ha.
Qed.

Lemma find_in_cons (ext : text) (here : path) (item : text) (c : node)
    (es : entries) :
  find_in ext here (Dir ((item, c) :: es))
  = match c with
    | Dir _ =>
        if is_skipped item then find_in ext here (Dir es)
        else find_in ext (here ++ [item]) c ++ find_in ext here (Dir es)
    | File _ =>
        if ends_with ext item
        then (here ++ [item]) :: find_in ext here (Dir es)
        else find_in ext here (Dir es)
    end.
Proof. reflexivity. Qed.

Lemma listed_later (ext : text) (here : path) (item : text) (c : node)
    (es : entries) (p : path) :
  ~ In item (map fst es) ->
  listed ext here (Dir es) p -> listed ext here (Dir ((item, c) :: es)) p.
Proof.
  intros Hn (rel & name & data & -> & L & E & S).
  exists rel, name, data. repeat split; try assumption.
  destruct (rel ++ [name]) as [|x q] eqn:Q; [now destruct rel|].
  cbn [lookup assoc] in *.
  destruct (teqb item x) eqn:T; [|exact L].
  apply teqb_eq in T. subst x. exfalso. apply Hn.
  destruct (assoc item es) as [y|] eqn:A; [now apply assoc_in in A|].
  now rewrite lookup_nothing in L.
Qed.

Lemma listed_head_or_later (ext : text) (here : path) (item : text)
    (c : node) (es : entries) (p : path) :
  listed ext here (Dir ((item, c) :: es)) p ->
  (exists data, c = File data /\ ends_with ext item = true
                /\ p = here ++ [item])
  \/ (exists sub, c = Dir sub /\ is_skipped item = false
                  /\ listed ext (here ++ [item]) c p)
  \/ listed ext here (Dir es) p.
Proof.
  intros (rel & name & data & -> & L & E & S).
  destruct rel as [|x rel].
  - cbn [app lookup assoc] in L.
    destruct (teqb item name) eqn:T.
    + apply teqb_eq in T. subst name. cbn [lookup] in L.
      left. exists data. split; [congruence|]. now split.
    + right. right. exists [], name, data. cbn [app lookup].
      repeat split; assumption.
  - cbn [app lookup assoc] in L. cbn [forallb] in S.
    apply andb_true_iff in S as [Sx S].
    destruct (teqb item x) eqn:T.
    + apply teqb_eq in T. subst x. right. left.
      destruct c as [data'|sub].
      * rewrite lookup_in_file in L; [discriminate|now destruct rel].
      * exists sub. split; [reflexivity|].
        split; [now destruct (is_skipped item)|].
        exists rel, name, data. rewrite <- !app_assoc. cbn [app].
        repeat split; assumption.
    + right. right. exists (x :: rel), name, data. cbn [app lookup forallb].
      rewrite Sx. repeat split; assumption.
Qed.

Lemma find_in_listed (ext : text) (n : node) :
  unique_names n = true ->
  forall here p, In p (find_in ext here n) <-> listed ext here n p.
Proof.
  induction n as [data|es IH] using node_induction; intros U here p.
  - split; [contradiction|].
    intros (rel & name & data' & _ & L & _).
    rewrite lookup_in_file in L; [discriminate|now destruct rel].
  - revert U. induction es as [|[item c] es IHes]; intros U.
    + split; [contradiction|].
      intros (rel & name & data' & _ & L & _).
      destruct (rel ++ [name]) as [|x q] eqn:Q; [now destruct rel|].
      cbn [lookup assoc] in L. now rewrite lookup_nothing in L.
    + inversion IH as [|? ? Hc Hes]; subst. cbn [snd] in Hc.
      apply unique_names_cons in U as (Hn & Uc & Ues).
      specialize (IHes Hes Ues). specialize (Hc Uc).
      rewrite find_in_cons. split.
      * intros H. destruct c as [data|sub].
        -- destruct (ends_with ext item) eqn:E.
           ++ destruct H as [<-|H].
              ** exists [], item, data. cbn [app lookup assoc].
                 rewrite teqb_refl. repeat split; assumption.
              ** apply listed_later; [exact Hn|]. now apply IHes.
           ++ apply listed_later; [exact Hn|]. now apply IHes.
        -- destruct (is_skipped item) eqn:K.
           ++ apply listed_later; [exact Hn|]. now apply IHes.
           ++ apply in_app_or in H as [H|H].
              ** apply Hc in H as (rel & name & data & -> & L & E & S).
                 exists (item :: rel), name, data.
                 rewrite <- !app_assoc. cbn [app lookup assoc forallb].
                 rewrite teqb_refl, K. repeat split; assumption.
              ** apply listed_later; [exact Hn|]. now apply IHes.
      * intros H. apply listed_head_or_later in H
          as [(data & -> & E & ->)|[(sub & -> & K & H)|H]].
        -- rewrite E. now left.
        -- rewrite K. apply in_or_app. left. now apply Hc.
        -- apply IHes in H.
           destruct c as [data|sub].
           ++ destruct (ends_with ext item); [now right|exact H].
           ++ destruct (is_skipped item); [exact H|].
              apply in_or_app. now right.
Qed.

Lemma listed_first (ext : text) (here : path) (es : entries) (p : path) :
  listed ext here (Dir es) p ->
  exists x r, p = here ++ x :: r /\ In x (map fst es).
Proof.
  intros (rel & name & data & -> & L & _).
  destruct (rel ++ [name]) as [|x q] eqn:Q; [now destruct rel|].
  exists x, q. split; [reflexivity|].
  cbn [lookup] in L. destruct (assoc x es) as [y|] eqn:A.
  - now apply assoc_in in A.
  - now rewrite lookup_nothing in L.
Qed.

Lemma find_in_no_duplicates (ext : text) (n : node) :
  unique_names n = true -> forall here, NoDup (find_in ext here n).
Proof.
  induction n as [data|es IH] using node_induction; intros U here.
  - constructor.
  - revert U. induction es as [|[item c] es IHes]; intros U; [constructor|].
    inversion IH as [|? ? Hc Hes]; subst. cbn [snd] in Hc.
    pose proof U as U'.
    apply unique_names_cons in U as (Hn & Uc & Ues).
    specialize (IHes Hes Ues). specialize (Hc Uc).
    assert (Later : forall p, In p (find_in ext here (Dir es)) ->
                     exists x r, p = here ++ x :: r /\ In x (map fst es)).
    { intros p H. apply (find_in_listed ext (Dir es) Ues) in H.
      now apply listed_first in H. }
    rewrite find_in_cons. destruct c as [data|sub].
    + destruct (ends_with ext item); [|exact IHes].
      constructor; [|exact IHes].
      intros H. apply Later in H as (x & r & E & Hx).
      apply app_inv_head in E. inversion E; subst. contradiction.
    + destruct (is_skipped item); [exact IHes|].
      apply NoDup_app; [apply Hc|exact IHes|].
      intros p H1 H2. apply find_in_below in H1 as (m & r & ->).
      apply Later in H2 as (x & r' & E & Hx).
      rewrite <- app_assoc in E. apply app_inv_head in E.
      inversion E; subst. contradiction.
Qed.

(** [findFiles(dir, ext)] on a directory returns, each once, exactly the
    files below it whose name ends with [ext] and that lie in no directory
    called [node_modules], [dist] or [.git]. *)
Theorem findFiles_lists_exactly (dir : path) (ext : string)
    (d : option node) (es : entries) :
  lookup dir d = Some (Dir es) ->
  unique_names (Dir es) = true ->
  exists files,
    result_of (findFiles dir ext) d = Some files /\
    NoDup files /\
    forall p,
      In p files <->
      exists rel name data,
        p = dir ++ rel ++ [name] /\
        lookup p d = Some (File data) /\
        ends_with (lit ext) name = true /\
        forallb (fun x => negb (is_skipped x)) rel = true.
Proof.
  intros L U. exists (find_in (lit ext) dir (Dir es)).
  split; [|split].
  - unfold result_of, Cmd.run, findFiles, bind, emit, get_disk, ret.
    cbn [disk log fst]. now rewrite L.
  - now apply find_in_no_duplicates.
  - intros p. rewrite (find_in_listed (lit ext) (Dir es) U dir p).
    unfold listed. split; intros (rel & name & data & -> & H & E & S);
      exists rel, name, data; repeat split; try assumption.
    + now rewrite lookup_app, L.
    + now rewrite lookup_app, L in H.
Qed.

(** The statement on the sample plugin, whose scripts are [main.js] and
    the one of the library directory. *)
Lemma findFiles_witness :
  exists files,
    result_of (findFiles [lit "srv"; lit "app"] ".js") plugin = Some files /\
    NoDup files /\
    (In [lit "srv"; lit "app"; lit "lib"; lit "pos-sdk.js"] files).
Proof.
  destruct (findFiles_lists_exactly [lit "srv"; lit "app"] ".js" plugin
              plugin_files eq_refl eq_refl) as (files & R & N & S).
  exists files. split; [exact R|]. split; [exact N|].
  apply S. exists [lit "lib"], (lit "pos-sdk.js"), (encode (lit "sdk();")).
  repeat split; vm_compute; reflexivity.
Defined.

Lemma findFiles_not_a_directory (dir : path) (ext : string) (d : option node) :
  (forall es, lookup dir d <> Some (Dir es)) ->
  result_of (findFiles dir ext) d = None.
Proof.
  intros H. unfold result_of, Cmd.run, findFiles, bind, emit, get_disk, throw.
  cbn [disk log fst].
  destruct (lookup dir d) as [[data|es]|]; try reflexivity.
  now destruct (H es).
Qed.

End TreeFacts.
(* ================================================================== *)
(** * UTF-8 *)
(* ================================================================== *)

Module Utf8Facts.

Import Text Path Utf8 FS Cmd Json Project Build Vocabulary Utf8Spec.
Import TextFacts FSFacts CmdFacts BuildFacts Samples.

#[local] Ltac Zify.zify_post_hook ::= Z.to_euclidean_division_equations.

Lemma to_N_byte_of (n : N) : n < 256 -> Byte.to_N (byte_of n) = n.
Proof.
  intros H. unfold byte_of. destruct (Byte.of_N n) as [b|] eqn:E.
  - now apply Byte.to_of_N.
  - apply Byte.of_N_None_iff in E. lia.
Qed.

Lemma encode_char_bytes (c : char) :
  Forall (fun b => b < 256) (encode_char c).
Proof.
  unfold encode_char.
  destruct (c <? 128) eqn:E1;
    [apply N.ltb_lt in E1; repeat (apply Forall_cons; [cbv beta; lia|]);
     apply Forall_nil|].
  destruct (c <? 2048) eqn:E2;
    [apply N.ltb_lt in E2; repeat (apply Forall_cons; [cbv beta; lia|]);
     apply Forall_nil|].
  destruct (((55296 <=? c) && (c <=? 57343)) || (1114111 <? c)) eqn:E3;
    [repeat (apply Forall_cons; [cbv beta; lia|]); apply Forall_nil|].
  apply orb_false_iff in E3 as [_ E3]. apply N.ltb_ge in E3.
  destruct (c <? 65536) eqn:E4; [apply N.ltb_lt in E4|];
    repeat (apply Forall_cons; [cbv beta; lia|]); apply Forall_nil.
Qed.

Lemma map_to_N_byte_of (bs : list N) :
  Forall (fun b => b < 256) bs -> map Byte.to_N (map byte_of bs) = bs.
Proof.
  induction 1 as [|b bs Hb _ IH]; [reflexivity|].
  cbn [map]. now rewrite to_N_byte_of, IH.
Qed.

Lemma bytes_of_text (s : text) :
  map Byte.to_N (encode s) = flat_map encode_char s.
Proof.
  unfold encode. apply map_to_N_byte_of.
  induction s as [|c s IH]; [constructor|].
  cbn [flat_map]. apply Forall_app. split; [apply encode_char_bytes|exact IH].
Qed.

(** The decoder reads back the character the encoder wrote, whatever
    follows. *)
Lemma decode_encode_char (c : char) (rest : list N) :
  is_scalar c = true ->
  decode_from None (encode_char c ++ rest) = c :: decode_from None rest.
Proof.
  unfold is_scalar, encode_char. intros V.
  destruct (c <? 128) eqn:E1.
  { apply N.ltb_lt in E1. cbn [app decode_from]. unfold lead.
    replace (c <=? 127) with true by (symmetry; apply N.leb_le; lia).
    reflexivity. }
  apply N.ltb_ge in E1.
  destruct (c <? 2048) eqn:E2.
  { apply N.ltb_lt in E2. cbn [app decode_from]. unfold lead.
    replace (192 + c / 64 <=? 127) with false
      by (symmetry; apply N.leb_gt; lia).
    replace (194 <=? 192 + c / 64) with true
      by (symmetry; apply N.leb_le; lia).
    replace (192 + c / 64 <=? 223) with true
      by (symmetry; apply N.leb_le; lia).
    cbn [andb lo hi acc remaining].
    replace (128 <=? 128 + c mod 64) with true
      by (symmetry; apply N.leb_le; lia).
    replace (128 + c mod 64 <=? 191) with true
      by (symmetry; apply N.leb_le; lia).
    cbn [andb app]. f_equal. lia. }
  apply N.ltb_ge in E2.
  assert (S : (c < 55296 \/ 57343 < c) /\ c < 1114112).
  { apply orb_true_iff in V as [V|V].
    - apply N.ltb_lt in V. lia.
    - apply andb_true_iff in V as [V1 V2].
      apply N.ltb_lt in V1. apply N.ltb_lt in V2. lia. }
  destruct S as [S1 S2].
  replace (((55296 <=? c) && (c <=? 57343)) || (1114111 <? c)) with false.
  2:{ symmetry. apply orb_false_iff. split.
      - apply andb_false_iff. destruct S1; [left|right]; apply N.leb_gt; lia.
      - apply N.ltb_ge. lia. }
  destruct (c <? 65536) eqn:E4.
  { apply N.ltb_lt in E4. cbn [app decode_from]. unfold lead.
    replace (224 + c / 4096 <=? 127) with false
      by (symmetry; apply N.leb_gt; lia).
    replace (194 <=? 224 + c / 4096) with true
      by (symmetry; apply N.leb_le; lia).
    replace (224 + c / 4096 <=? 223) with false
      by (symmetry; apply N.leb_gt; lia).
    replace (224 <=? 224 + c / 4096) with true
      by (symmetry; apply N.leb_le; lia).
    replace (224 + c / 4096 <=? 239) with true
      by (symmetry; apply N.leb_le; lia).
    cbn [andb lo hi acc remaining].
    assert (L : (if 224 + c / 4096 =? 224 then 160 else 128)
                <= 128 + (c / 64) mod 64).
    { destruct (N.eqb_spec (224 + c / 4096) 224); lia. }
    assert (U : 128 + (c / 64) mod 64
                <= (if 224 + c / 4096 =? 237 then 159 else 191)).
    { destruct (N.eqb_spec (224 + c / 4096) 237); lia. }
    apply N.leb_le in L. apply N.leb_le in U. rewrite L, U.
    cbn [andb lo hi acc remaining].
    replace (128 <=? 128 + c mod 64) with true
      by (symmetry; apply N.leb_le; lia).
    replace (128 + c mod 64 <=? 191) with true
      by (symmetry; apply N.leb_le; lia).
    cbn [andb app]. f_equal. lia. }
  apply N.ltb_ge in E4. cbn [app decode_from]. unfold lead.
  replace (240 + c / 262144 <=? 127) with false
    by (symmetry; apply N.leb_gt; lia).
  replace (194 <=? 240 + c / 262144) with true
    by (symmetry; apply N.leb_le; lia).
  replace (240 + c / 262144 <=? 223) with false
    by (symmetry; apply N.leb_gt; lia).
  replace (224 <=? 240 + c / 262144) with true
    by (symmetry; apply N.leb_le; lia).
  replace (240 + c / 262144 <=? 239) with false
    by (symmetry; apply N.leb_gt; lia).
  replace (240 <=? 240 + c / 262144) with true
    by (symmetry; apply N.leb_le; lia).
  replace (240 + c / 262144 <=? 244) with true
    by (symmetry; apply N.leb_le; lia).
  cbn [andb lo hi acc remaining].
  assert (L : (if 240 + c / 262144 =? 240 then 144 else 128)
              <= 128 + (c / 4096) mod 64).
  { destruct (N.eqb_spec (240 + c / 262144) 240); lia. }
  assert (U : 128 + (c / 4096) mod 64
              <= (if 240 + c / 262144 =? 244 then 143 else 191)).
  { destruct (N.eqb_spec (240 + c / 262144) 244); lia. }
  apply N.leb_le in L. apply N.leb_le in U. rewrite L, U.
  cbn [andb lo hi acc remaining].
  replace (128 <=? 128 + (c / 64) mod 64) with true
    by (symmetry; apply N.leb_le; lia).
  replace (128 + (c / 64) mod 64 <=? 191) with true
    by (symmetry; apply N.leb_le; lia).
  cbn [andb lo hi acc remaining].
  replace (128 <=? 128 + c mod 64) with true
    by (symmetry; apply N.leb_le; lia).
  replace (128 + c mod 64 <=? 191) with true
    by (symmetry; apply N.leb_le; lia).
  cbn [andb app]. f_equal. lia.
Qed.

Lemma decode_encode (s : text) :
  forallb is_scalar s = true -> decode (encode s) = s.
Proof.
  unfold decode. rewrite bytes_of_text.
  induction s as [|c s IH]; [reflexivity|].
  cbn [forallb flat_map]. intros H. apply andb_true_iff in H as [Hc Hs].
  now rewrite decode_encode_char, IH.
Qed.

(** A text of Unicode scalar values survives being written to a file and
    read back; so a library file that is such a text in UTF-8 is written
    to the output byte for byte by a build without minification. *)
Theorem text_files_survive_the_round_trip (o : options) (file : name)
    (s : text) :
  forallb is_scalar s = true ->
  decode (encode s) = s /\
  (minify o = false ->
   encode (lib_content o file (decode (encode s))) = encode s).
Proof.
  intros H. split; [now apply decode_encode|].
  intros M. unfold lib_content. rewrite M. cbn [andb].
  now rewrite decode_encode.
Qed.

(** The statement for a script with characters of two, three and four
    bytes. *)
Lemma text_files_witness :
  decode (encode (lit "sdk();" ++ [233; 8364; 128512]))
  = lit "sdk();" ++ [233; 8364; 128512] /\
  encode (lib_content plain_build_options (lit "sdk.js")
            (decode (encode (lit "sdk();" ++ [233; 8364; 128512]))))
  = encode (lit "sdk();" ++ [233; 8364; 128512]).
Proof.
  destruct (text_files_survive_the_round_trip plain_build_options
              (lit "sdk.js") (lit "sdk();" ++ [233; 8364; 128512]) eq_refl)
    as [R L].
  split; [exact R|]. now apply L.
Defined.

#[local] Ltac Zify.zify_post_hook ::= idtac.

End Utf8Facts.
(* ================================================================== *)
(** * Writing and reading JSON *)
(* ================================================================== *)

Module JsonFacts.

Import Text Path Utf8 FS Cmd Json Project Vocabulary TreeSpec JsonSpec.
Import TextFacts FSFacts CmdFacts.

#[local] Ltac Zify.zify_post_hook ::= Z.to_euclidean_division_equations.

(** ** Strings *)

Lemma hex_value_hex_digit (n : N) : n < 16 -> hex_value (hex_digit n) = Some n.
Proof.
  intros H. unfold hex_value, hex_digit.
  destruct (n <? 10) eqn:E.
  - apply N.ltb_lt in E.
    replace ((48 <=? 48 + n) && (48 + n <=? 57)) with true.
    + f_equal. lia.
    + symmetry. apply andb_true_iff. split; apply N.leb_le; lia.
  - apply N.ltb_ge in E.
    replace ((48 <=? 87 + n) && (87 + n <=? 57)) with false.
    + replace ((97 <=? 87 + n) && (87 + n <=? 102)) with true.
      * f_equal. lia.
      * symmetry. apply andb_true_iff. split; apply N.leb_le; lia.
    + symmetry. apply andb_false_iff. right. apply N.leb_gt. lia.
Qed.

(** The reader takes back one character as the writer escaped it. *)
Lemma read_string_escape_char (c : char) (s : text) (str rest : text) :
  read_string s = Some (str, rest) ->
  read_string (escape_char c ++ s) = Some (c :: str, rest).
Proof.
  intros H. unfold escape_char.
  destruct (N.eqb_spec c 34) as [->|N34].
  { cbn [lit app map list_ascii_of_string read_string]. cbn. now rewrite H. }
  destruct (N.eqb_spec c 92) as [->|N92].
  { cbn. now rewrite H. }
  destruct (N.eqb_spec c 8) as [->|N8]; [cbn; now rewrite H|].
  destruct (N.eqb_spec c 12) as [->|N12]; [cbn; now rewrite H|].
  destruct (N.eqb_spec c 10) as [->|N10]; [cbn; now rewrite H|].
  destruct (N.eqb_spec c 13) as [->|N13]; [cbn; now rewrite H|].
  destruct (N.eqb_spec c 9) as [->|N9]; [cbn; now rewrite H|].
  destruct ((c <? 32) || ((55296 <=? c) && (c <=? 57343))) eqn:E.
  - assert (B : c < 65536).
    { apply orb_true_iff in E as [E|E].
      - apply N.ltb_lt in E. lia.
      - apply andb_true_iff in E as [_ E]. apply N.leb_le in E. lia. }
    change (lit "\u") with [92; 117]. cbn [app read_string].
    change (92 =? 34) with false. change (92 <? 32) with false.
    change (92 =? 92) with true. change (117 =? 117) with true. cbv iota.
    rewrite !hex_value_hex_digit by lia. rewrite H.
    do 2 f_equal. f_equal. lia.
  - apply orb_false_iff in E as [E _]. cbn [app read_string].
    rewrite (proj2 (N.eqb_neq c 34) N34), E, (proj2 (N.eqb_neq c 92) N92).
    now rewrite H.
Qed.

Lemma read_string_quote (s rest : text) :
  read_string (flat_map escape_char s ++ 34 :: rest) = Some (s, rest).
Proof.
  induction s as [|c s IH]; [reflexivity|].
  cbn [flat_map]. rewrite <- app_assoc.
  now apply read_string_escape_char.
Qed.

(** ** Numbers *)

Lemma read_digits_uint (d : Decimal.uint) (acc : Z) (rest : text) :
  number_safe rest ->
  read_digits acc (lit (NilEmpty.string_of_uint d) ++ rest)
  = (horner d acc, rest).
Proof.
  intros Hr. revert acc.
  induction d as [|d IH|d IH|d IH|d IH|d IH|d IH|d IH|d IH|d IH|d IH];
    intros acc;
    try (cbn [NilEmpty.string_of_uint horner]; unfold lit; cbn;
         rewrite <- (IH _); f_equal; lia).
  cbn [NilEmpty.string_of_uint horner]. cbn [lit list_ascii_of_string map app].
  destruct rest as [|c rest]; [reflexivity|].
  cbn [read_digits]. destruct Hr as [Hd _]. now rewrite Hd.
Qed.

Lemma horner_pos (d : Decimal.uint) (acc : positive) :
  horner d (Z.pos acc) = Z.pos (Pos.of_uint_acc d acc).
Proof.
  revert acc.
  induction d as [|d IH|d IH|d IH|d IH|d IH|d IH|d IH|d IH|d IH|d IH];
    intros acc; cbn [horner Pos.of_uint_acc]; [reflexivity|..];
    rewrite <- IH; f_equal; lia.
Qed.

Lemma horner_value (d : Decimal.uint) : horner d 0 = Z.of_N (Pos.of_uint d).
Proof.
  induction d as [|d IH|d IH|d IH|d IH|d IH|d IH|d IH|d IH|d IH|d IH];
    cbn [horner Pos.of_uint]; [reflexivity|exact IH|..];
    cbn [Z.mul Z.add Z.of_N]; apply horner_pos.
Qed.

(** The digits of a positive number: there is a first one, and it is not
    a zero. *)
Lemma to_uint_head (p : positive) :
  exists c r,
    lit (NilEmpty.string_of_uint (Pos.to_uint p)) = c :: r /\
    is_digit c = true /\ c <> 48.
Proof.
  pose proof (DecimalPos.Unsigned.to_of (Pos.to_uint p)) as N.
  rewrite DecimalPos.Unsigned.of_to in N. cbn [N.to_uint] in N.
  pose proof (DecimalPos.Unsigned.to_uint_nonzero p) as Z0.
  pose proof (DecimalFacts.nzhead_nonzero (Pos.to_uint p)) as NZ.
  assert (E : Decimal.nzhead (Pos.to_uint p) = Pos.to_uint p).
  { unfold Decimal.unorm in N.
    destruct (Decimal.nzhead (Pos.to_uint p)) eqn:H; try (symmetry; exact N).
    exfalso. apply Z0. exact N. }
  rewrite E in NZ.
  pose proof (DecimalPos.Unsigned.to_uint_nonnil p) as NN.
  destruct (Pos.to_uint p) as [|d|d|d|d|d|d|d|d|d|d];
    [contradiction|now destruct (NZ d)|..];
    cbn [NilEmpty.string_of_uint]; unfold lit;
    cbn [list_ascii_of_string map]; eexists _, _;
    (split; [reflexivity|]); (split; [reflexivity|discriminate]).
Qed.

Lemma string_of_to_uint (p : positive) :
  NilZero.string_of_uint (Pos.to_uint p)
  = NilEmpty.string_of_uint (Pos.to_uint p).
Proof.
  pose proof (DecimalPos.Unsigned.to_uint_nonnil p) as NN.
  unfold NilZero.string_of_uint. now destruct (Pos.to_uint p).
Qed.

Lemma read_number_digits (z : Z) (rest : text) :
  number_safe rest -> read_number (digits z ++ rest) = Some (z, rest).
Proof.
  intros Hr. unfold digits, read_number.
  assert (More : match rest with
                 | d :: _ => (d =? 46) || (d =? 101) || (d =? 69)
                 | [] => false
                 end = false).
  { destruct rest as [|d rest]; [reflexivity|].
    destruct Hr as (_ & A & B & C).
    apply N.eqb_neq in A. apply N.eqb_neq in B. apply N.eqb_neq in C.
    now rewrite A, B, C. }
  destruct z as [|p|p].
  - change (lit (NilZero.string_of_int (Z.to_int 0))) with [48].
    cbn [app]. change (48 =? 45) with false. cbv iota.
    change (is_digit 48) with true. cbv iota.
    change (48 =? 48) with true. cbn [read_digits andb].
    change (is_digit 48) with true. cbv iota.
    destruct rest as [|d rest]; [reflexivity|].
    destruct Hr as [Hd _]. cbn [read_digits]. rewrite Hd.
    cbn [orb]. now rewrite More.
  - cbn [Z.to_int NilZero.string_of_int]. rewrite string_of_to_uint.
    destruct (to_uint_head p) as (c & r & E & D & NZ).
    pose proof (read_digits_uint (Pos.to_uint p) 0 rest Hr) as R.
    rewrite E in *. cbn [app] in *.
    assert (C45 : (c =? 45) = false)
      by (apply N.eqb_neq; intros ->; discriminate).
    rewrite C45, D, R.
    replace (c =? 48) with false by (symmetry; now apply N.eqb_neq).
    cbn [andb orb]. rewrite More.
    rewrite horner_value, DecimalPos.Unsigned.of_to. reflexivity.
  - cbn [Z.to_int NilZero.string_of_int]. rewrite string_of_to_uint.
    destruct (to_uint_head p) as (c & r & E & D & NZ).
    pose proof (read_digits_uint (Pos.to_uint p) 0 rest Hr) as R.
    change (lit (String "-" (NilEmpty.string_of_uint (Pos.to_uint p))))
      with (45 :: lit (NilEmpty.string_of_uint (Pos.to_uint p))).
    rewrite E in *. cbn [app] in *.
    change (45 =? 45) with true. cbv iota.
    rewrite D, R.
    replace (c =? 48) with false by (symmetry; now apply N.eqb_neq).
    cbn [andb orb]. rewrite More.
    rewrite horner_value, DecimalPos.Unsigned.of_to. reflexivity.
Qed.

Lemma digits_head (z : Z) :
  exists c r, digits z = c :: r /\ (is_digit c = true \/ c = 45).
Proof.
  unfold digits. destruct z as [|p|p].
  - eexists _, _. split; [reflexivity|]. now left.
  - cbn [Z.to_int NilZero.string_of_int]. rewrite string_of_to_uint.
    destruct (to_uint_head p) as (c & r & E & D & _).
    exists c, r. split; [exact E|now left].
  - eexists 45, _. split; [|now right].
    cbn [Z.to_int NilZero.string_of_int]. reflexivity.
Qed.

(** ** Values *)

Lemma json_induction (P : json -> Prop) :
  P JNull -> (forall b, P (JBool b)) -> (forall z, P (JNum z)) ->
  (forall s, P (JStr s)) ->
  (forall xs, Forall P xs -> P (JArr xs)) ->
  (forall ms, Forall (fun kv => P (snd kv)) ms -> P (JObj ms)) ->
  forall j, P j.
Proof.
  intros Hn Hb Hz Hs Ha Ho. fix IH 1. intros [|b|z|s|xs|ms].
  - exact Hn.
  - apply Hb.
  - apply Hz.
  - apply Hs.
  - apply Ha. induction xs as [|x xs IHxs]; constructor; [apply IH|exact IHxs].
  - apply Ho. induction ms as [|[k v] ms IHms]; constructor;
      [apply IH|exact IHms].
Qed.

Lemma skip_space_blank (ws s : text) :
  blank ws -> solid_head s -> skip_space (ws ++ s) = s.
Proof.
  unfold blank. intros B H. induction ws as [|c ws IH].
  - destruct s as [|c s]; [reflexivity|]. cbn [app skip_space].
    cbn [solid_head] in H. now rewrite H.
  - cbn [forallb] in B. apply andb_true_iff in B as [Bc B].
    cbn [app skip_space]. rewrite Bc. now apply IH.
Qed.

Lemma blank_app (a b : text) : blank a -> blank b -> blank (a ++ b).
Proof. unfold blank. intros A B. now rewrite forallb_app, A, B. Qed.

Lemma blank_inner (indent : text) : blank indent -> blank (indent ++ lit "  ").
Proof. intros B. now apply blank_app. Qed.

Lemma read_value_eq (fuel : nat) (s : text) :
  read_value (S fuel) s
  = let s := skip_space s in
    if starts_with (lit "null") s then Some (JNull, skipn 4 s)
    else if starts_with (lit "true") s then Some (JBool true, skipn 4 s)
    else if starts_with (lit "false") s then Some (JBool false, skipn 5 s)
    else
      match s with
      | [] => None
      | c :: s' =>
          if c =? 34 then
            match read_string s' with
            | Some (str, rest) => Some (JStr str, rest)
            | None => None
            end
          else if c =? 91 then
            match skip_space s' with
            | d :: rest =>
                if d =? 93 then Some (JArr [], rest)
                else
                  match read_items fuel s' with
                  | Some (xs, rest') => Some (JArr xs, rest')
                  | None => None
                  end
            | [] => None
            end
          else if c =? 123 then
            match skip_space s' with
            | d :: rest =>
                if d =? 125 then Some (JObj [], rest)
                else
                  match read_members fuel [] s' with
                  | Some (ms, rest') => Some (JObj ms, rest')
                  | None => None
                  end
            | [] => None
            end
          else
            match read_number s with
            | Some (z, rest) => Some (JNum z, rest)
            | None => None
            end
      end.
Proof. reflexivity. Qed.

Lemma read_items_eq (fuel : nat) (s : text) :
  read_items (S fuel) s
  = match read_value fuel s with
    | Some (x, rest) =>
        match skip_space rest with
        | c :: rest' =>
            if c =? 44 then
              match read_items fuel rest' with
              | Some (xs, rest'') => Some (x :: xs, rest'')
              | None => None
              end
            else if c =? 93 then Some ([x], rest')
            else None
        | [] => None
        end
    | None => None
    end.
Proof. reflexivity. Qed.

Lemma read_members_eq (fuel : nat) (acc : list (text * json)) (s : text) :
  read_members (S fuel) acc s
  = match skip_space s with
    | q :: s1 =>
        if q =? 34 then
          match read_string s1 with
          | Some (k, s2) =>
              match skip_space s2 with
              | colon :: s3 =>
                  if colon =? 58 then
                    match read_value fuel s3 with
                    | Some (v, s4) =>
                        let acc' := set_member k v acc in
                        match skip_space s4 with
                        | c :: s5 =>
                            if c =? 44 then read_members fuel acc' s5
                            else if c =? 125 then Some (acc', s5)
                            else None
                        | [] => None
                        end
                    | None => None
                    end
                  else None
              | [] => None
              end
          | None => None
          end
        else None
    | [] => None
    end.
Proof. reflexivity. Qed.



Lemma join_cons (sep p q : text) (ps : list text) :
  join sep (p :: q :: ps) = p ++ sep ++ join sep (q :: ps).
Proof. reflexivity. Qed.

Lemma starts_with_other (p : text) (x c : char) (s : text) :
  x <> c -> starts_with (x :: p) (c :: s) = false.
Proof.
  intros H. cbn [starts_with]. apply N.eqb_neq in H. now rewrite H.
Qed.

(** What a value is written as begins with a character that is neither
    white space nor a closing bracket. *)
Lemma stringify_head (indent : text) (j : json) :
  exists c r,
    stringify_at indent j = c :: r /\
    is_json_space c = false /\ c <> 93 /\ c <> 125 /\ c < 128.
Proof.
  destruct j as [|[|]|z|s|[|x xs]|[|kv ms]];
    try (eexists _, _; split; [reflexivity|];
         repeat split; discriminate || reflexivity).
  destruct (digits_head z) as (c & r & E & [D| ->]).
  - exists c, r. split; [exact E|].
    unfold is_digit in D. apply andb_true_iff in D as [D1 D2].
    apply N.leb_le in D1. apply N.leb_le in D2.
    unfold is_json_space.
    repeat split; try lia.
    repeat (apply orb_false_iff; split); apply N.eqb_neq; lia.
  - exists 45, r. split; [exact E|]. repeat split; discriminate || reflexivity.
Qed.

Lemma solid_head_stringify (indent : text) (j : json) (rest : text) :
  solid_head (stringify_at indent j ++ rest).
Proof.
  destruct (stringify_head indent j) as (c & r & -> & H & _). exact H.
Qed.

Section Reading.

Variables (indent rest0 : text).
Hypothesis indent_blank : blank indent.

Let inner := indent ++ lit "  ".

Lemma read_items_back (x : json) (xs : list json) :
  Forall reads_back (x :: xs) ->
  forallb plain_keys (x :: xs) = true ->
  forall fuel ws,
    blank ws ->
    (list_sum (map (fun x => S (weight x)) (x :: xs)) <= fuel)%nat ->
    read_items fuel
      (ws ++ join (lit "," ++ [10])
               (map (fun x => inner ++ stringify_at inner x) (x :: xs))
          ++ [10] ++ indent ++ 93 :: rest0)
    = Some (x :: xs, rest0).
Proof.
  revert x. induction xs as [|y xs IH]; intros x F K fuel ws B W.
  - inversion F as [|? ? Px _]; subst.
    cbn [forallb] in K. apply andb_true_iff in K as [Kx _].
    cbn [map list_sum fold_right] in W.
    destruct fuel as [|fuel]; [lia|]. rewrite read_items_eq.
    cbn [map join]. rewrite <- !app_assoc.
    rewrite (app_assoc ws inner).
    rewrite (Px Kx fuel (ws ++ inner) inner);
      [|apply blank_app; [exact B|now apply blank_inner]
       |now apply blank_inner|repeat split; discriminate|lia].
    change ([10] ++ indent ++ 93 :: rest0)
      with (([10] ++ indent) ++ 93 :: rest0).
    rewrite skip_space_blank;
      [|apply blank_app; [reflexivity|exact indent_blank]|reflexivity].
    reflexivity.
  - inversion F as [|? ? Px F']; subst.
    cbn [forallb] in K. apply andb_true_iff in K as [Kx K'].
    cbn [map list_sum fold_right] in W.
    destruct fuel as [|fuel]; [lia|]. rewrite read_items_eq.
    cbn [map]. rewrite join_cons. rewrite <- !app_assoc.
    rewrite (app_assoc ws inner).
    rewrite (Px Kx fuel (ws ++ inner) inner);
      [|apply blank_app; [exact B|now apply blank_inner]
       |now apply blank_inner|repeat split; discriminate|lia].
    match goal with
    | |- context [skip_space (lit "," ++ ?T)] =>
        change (skip_space (lit "," ++ T)) with (44 :: T)
    end.
    change (44 =? 44) with true. cbv iota.
    assert (W' : (list_sum (map (fun x => S (weight x)) (y :: xs))
                  <= fuel)%nat) by (cbn [map list_sum fold_right]; lia).
    pose proof (IH y F' K' fuel [10] eq_refl W') as R.
    cbn [map] in R. rewrite R. reflexivity.
Qed.


Lemma set_member_new (k : text) (v : json) (acc : list (text * json)) :
  existsb (teqb k) (map fst acc) = false ->
  set_member k v acc = acc ++ [(k, v)].
Proof.
  induction acc as [|[k' v'] acc IH]; [reflexivity|].
  cbn [map fst existsb set_member app]. intros H.
  apply orb_false_iff in H as [Hk H].
  destruct (teqb k' k) eqn:E.
  - apply teqb_eq in E. subst k'. now rewrite teqb_refl in Hk.
  - now rewrite IH.
Qed.

Lemma distinct_middle (a : list text) (k : text) (b : list text) :
  TreeSpec.distinct (a ++ k :: b) = true -> existsb (teqb k) a = false.
Proof.
  induction a as [|x a IH]; [reflexivity|].
  cbn [app TreeSpec.distinct existsb]. intros H.
  apply andb_true_iff in H as [Hx H].
  rewrite (IH H), orb_false_r.
  destruct (teqb k x) eqn:E; [|reflexivity].
  apply teqb_eq in E. subst x.
  rewrite existsb_app in Hx. cbn [existsb] in Hx.
  rewrite teqb_refl in Hx. cbn [orb] in Hx.
  now rewrite orb_true_r in Hx.
Qed.

Lemma read_members_back (acc : list (text * json)) (kv : text * json)
    (ms : list (text * json)) :
  Forall (fun kv => reads_back (snd kv)) (kv :: ms) ->
  forallb (fun kv => plain_keys (snd kv)) (kv :: ms) = true ->
  TreeSpec.distinct (map fst (acc ++ kv :: ms)) = true ->
  forall fuel ws,
    blank ws ->
    (list_sum (map (fun kv => S (weight (snd kv))) (kv :: ms)) <= fuel)%nat ->
    read_members fuel acc
      (ws ++ join (lit "," ++ [10])
               (map (fun kv =>
                       match kv with
                       | (k, v) =>
                           inner ++ quote k ++ lit ": "
                           ++ stringify_at inner v
                       end) (kv :: ms))
          ++ [10] ++ indent ++ 125 :: rest0)
    = Some (acc ++ kv :: ms, rest0).
Proof.
  revert acc kv. induction ms as [|kv' ms IH];
    intros acc [k v] F K D fuel ws B W.
  - inversion F as [|? ? Pv _]; subst. cbn [snd] in Pv.
    cbn [forallb snd] in K. apply andb_true_iff in K as [Kv _].
    cbn [map list_sum fold_right snd] in W.
    destruct fuel as [|fuel]; [lia|]. rewrite read_members_eq.
    cbn [map join]. unfold quote. rewrite <- !app_assoc.
    rewrite (app_assoc ws inner).
    cbn [app]. rewrite skip_space_blank;
      [|apply blank_app; [exact B|now apply blank_inner]|reflexivity].
    change (34 =? 34) with true. cbv iota.
    rewrite <- app_assoc. cbn [app]. rewrite read_string_quote.
    match goal with
    | |- context [skip_space (lit ": " ++ ?T)] =>
        change (skip_space (lit ": " ++ T)) with (58 :: [32] ++ T)
    end.
    change (58 =? 58) with true. cbv iota.
    rewrite (Pv Kv fuel [32] inner);
      [|reflexivity|now apply blank_inner|repeat split; discriminate|lia].
    change (10 :: indent ++ 125 :: rest0)
      with (([10] ++ indent) ++ 125 :: rest0).
    rewrite skip_space_blank;
      [|apply blank_app; [reflexivity|exact indent_blank]|reflexivity].
    change (125 =? 44) with false. change (125 =? 125) with true. cbv iota zeta.
    rewrite set_member_new; [reflexivity|].
    rewrite map_app in D. cbn [map fst] in D. now apply distinct_middle in D.
  - inversion F as [|? ? Pv F']; subst. cbn [snd] in Pv.
    cbn [forallb snd] in K. apply andb_true_iff in K as [Kv K'].
    cbn [map list_sum fold_right snd] in W.
    destruct fuel as [|fuel]; [lia|]. rewrite read_members_eq.
    cbn [map]. rewrite join_cons. unfold quote at 1. rewrite <- !app_assoc.
    rewrite (app_assoc ws inner).
    cbn [app]. rewrite skip_space_blank;
      [|apply blank_app; [exact B|now apply blank_inner]|reflexivity].
    change (34 =? 34) with true. cbv iota.
    rewrite <- app_assoc. cbn [app]. rewrite read_string_quote.
    match goal with
    | |- context [skip_space (lit ": " ++ ?T)] =>
        change (skip_space (lit ": " ++ T)) with (58 :: [32] ++ T)
    end.
    change (58 =? 58) with true. cbv iota.
    rewrite (Pv Kv fuel [32] inner);
      [|reflexivity|now apply blank_inner|repeat split; discriminate|lia].
    match goal with
    | |- context [skip_space (lit "," ++ ?T)] =>
        change (skip_space (lit "," ++ T)) with (44 :: T)
    end.
    change (44 =? 44) with true. cbv iota zeta.
    rewrite set_member_new;
      [|rewrite map_app in D; cbn [map fst] in D;
        now apply distinct_middle in D].
    assert (W' : (list_sum (map (fun kv => S (weight (snd kv))) (kv' :: ms))
                  <= fuel)%nat) by (cbn [map list_sum fold_right]; lia).
    assert (D' : TreeSpec.distinct (map fst ((acc ++ [(k, v)]) ++ kv' :: ms))
                 = true) by (now rewrite <- app_assoc).
    pose proof (IH (acc ++ [(k, v)]) kv' F' K' D' fuel [10] eq_refl W') as R.
    cbn [map] in R. rewrite <- app_assoc in R. cbn [app] in R.
    cbn [app]. rewrite R. reflexivity.
Qed.

End Reading.

Lemma stringify_array (indent : text) (x : json) (xs : list json)
    (rest : text) :
  stringify_at indent (JArr (x :: xs)) ++ rest
  = 91 :: [10]
    ++ join (lit "," ++ [10])
         (map (fun x => (indent ++ lit "  ")
                        ++ stringify_at (indent ++ lit "  ") x) (x :: xs))
    ++ [10] ++ indent ++ 93 :: rest.
Proof.
  cbn [stringify_at]. change (lit "[") with [91]. change (lit "]") with [93].
  rewrite <- !app_assoc. cbn [app]. rewrite <- ?app_assoc. reflexivity.
Qed.

Lemma stringify_object (indent : text) (k : text) (v : json)
    (ms : list (text * json)) (rest : text) :
  stringify_at indent (JObj ((k, v) :: ms)) ++ rest
  = 123 :: [10]
    ++ join (lit "," ++ [10])
         (map (fun kv =>
                 match kv with
                 | (k, v) =>
                     (indent ++ lit "  ") ++ quote k ++ lit ": "
                     ++ stringify_at (indent ++ lit "  ") v
                 end) ((k, v) :: ms))
    ++ [10] ++ indent ++ 125 :: rest.
Proof.
  cbn [stringify_at]. change (lit "{") with [123]. change (lit "}") with [125].
  rewrite <- !app_assoc. cbn [app]. rewrite <- ?app_assoc. reflexivity.
Qed.

Lemma join_first (sep p : text) (ps : list text) (T : text) :
  exists T', join sep (p :: ps) ++ T = p ++ T'.
Proof.
  destruct ps as [|q ps].
  - now exists T.
  - exists (sep ++ join sep (q :: ps) ++ T).
    rewrite join_cons. now rewrite <- !app_assoc.
Qed.

Lemma literal_rest (c : char) (s : text) :
  c <> 110 -> c <> 116 -> c <> 102 ->
  starts_with (lit "null") (c :: s) = false /\
  starts_with (lit "true") (c :: s) = false /\
  starts_with (lit "false") (c :: s) = false.
Proof.
  intros A B C.
  change (lit "null") with (110 :: lit "ull").
  change (lit "true") with (116 :: lit "rue").
  change (lit "false") with (102 :: lit "alse").
  repeat split; apply starts_with_other; congruence.
Qed.

(** Whatever is written can be read back, whatever white space stands
    before it, with enough fuel. *)
Lemma read_value_stringify (j : json) : reads_back j.
Proof.
  induction j as [|b|z|s|xs IH|ms IH] using json_induction;
    intros K fuel ws indent rest B Bi N W;
    (destruct fuel as [|fuel]; [cbn [weight] in W; lia|]);
    rewrite read_value_eq; cbv zeta.
  - rewrite skip_space_blank by (exact B || reflexivity). reflexivity.
  - destruct b; rewrite skip_space_blank by (exact B || reflexivity);
      reflexivity.
  - pose proof (solid_head_stringify indent (JNum z) rest) as H.
    rewrite skip_space_blank by (exact B || exact H).
    cbn [stringify_at] in *.
    destruct (digits_head z) as (c & r & E & Hc).
    assert (C : c <> 110 /\ c <> 116 /\ c <> 102 /\ c <> 34 /\ c <> 91
                /\ c <> 123).
    { destruct Hc as [D| ->]; [|repeat split; discriminate].
      unfold is_digit in D. apply andb_true_iff in D as [D1 D2].
      apply N.leb_le in D1. apply N.leb_le in D2. lia. }
    destruct C as (C1 & C2 & C3 & C4 & C5 & C6).
    rewrite read_number_digits by exact N. rewrite E. cbn [app].
    destruct (literal_rest c (r ++ rest) C1 C2 C3) as (-> & -> & ->).
    apply N.eqb_neq in C4. apply N.eqb_neq in C5. apply N.eqb_neq in C6.
    now rewrite C4, C5, C6.
  - cbn [stringify_at]. unfold quote. cbn [app].
    rewrite skip_space_blank by (exact B || reflexivity).
    destruct (literal_rest 34 ((flat_map escape_char s ++ [34]) ++ rest))
      as (-> & -> & ->); try discriminate.
    change (34 =? 34) with true. cbv iota.
    rewrite <- app_assoc. cbn [app]. now rewrite read_string_quote.
  - destruct xs as [|x xs].
    + cbn [stringify_at]. rewrite skip_space_blank by (exact B || reflexivity).
      reflexivity.
    + cbn [plain_keys] in K. cbn [weight] in W.
      pose proof (read_items_back indent rest Bi x xs IH K fuel [10]
                    eq_refl) as R.
      rewrite (stringify_array indent x xs rest).
      set (J := join (lit "," ++ [10])
                  (map (fun x => (indent ++ lit "  ")
                                 ++ stringify_at (indent ++ lit "  ") x)
                     (x :: xs))) in *.
      rewrite skip_space_blank by (exact B || reflexivity).
      destruct (literal_rest 91 ([10] ++ J ++ [10] ++ indent ++ 93 :: rest))
        as (-> & -> & ->); try discriminate.
      change (91 =? 34) with false. change (91 =? 91) with true. cbv iota.
      rewrite R by lia.
      destruct (join_first (lit "," ++ [10])
                  ((indent ++ lit "  ") ++ stringify_at (indent ++ lit "  ") x)
                  (map (fun x => (indent ++ lit "  ")
                                 ++ stringify_at (indent ++ lit "  ") x) xs)
                  ([10] ++ indent ++ 93 :: rest)) as (T & E).
      change (join (lit "," ++ [10])
                (((indent ++ lit "  ") ++ stringify_at (indent ++ lit "  ") x)
                 :: map (fun x => (indent ++ lit "  ")
                                  ++ stringify_at (indent ++ lit "  ") x) xs))
        with J in E.
      rewrite E. rewrite <- app_assoc, (app_assoc [10]).
      destruct (stringify_head (indent ++ lit "  ") x)
        as (c & r & -> & Hs & H93 & _).
      rewrite skip_space_blank;
        [|apply blank_app; [reflexivity|now apply blank_inner]|exact Hs].
      cbn [app]. apply N.eqb_neq in H93. now rewrite H93.
  - destruct ms as [|[k v] ms].
    + cbn [stringify_at]. rewrite skip_space_blank by (exact B || reflexivity).
      reflexivity.
    + cbn [plain_keys] in K. apply andb_true_iff in K as [D K].
      cbn [weight] in W.
      pose proof (read_members_back indent rest Bi [] (k, v) ms IH K D
                    fuel [10] eq_refl) as R.
      rewrite (stringify_object indent k v ms rest).
      set (J := join (lit "," ++ [10])
                  (map (fun kv =>
                          match kv with
                          | (k, v) =>
                              (indent ++ lit "  ") ++ quote k ++ lit ": "
                              ++ stringify_at (indent ++ lit "  ") v
                          end) ((k, v) :: ms))) in *.
      rewrite skip_space_blank by (exact B || reflexivity).
      destruct (literal_rest 123 ([10] ++ J ++ [10] ++ indent ++ 125 :: rest))
        as (-> & -> & ->); try discriminate.
      change (123 =? 34) with false. change (123 =? 91) with false.
      change (123 =? 123) with true. cbv iota.
      rewrite R by lia.
      destruct (join_first (lit "," ++ [10])
                  ((indent ++ lit "  ") ++ quote k ++ lit ": "
                   ++ stringify_at (indent ++ lit "  ") v)
                  (map (fun kv =>
                          match kv with
                          | (k, v) =>
                              (indent ++ lit "  ") ++ quote k ++ lit ": "
                              ++ stringify_at (indent ++ lit "  ") v
                          end) ms)
                  ([10] ++ indent ++ 125 :: rest)) as (T & E).
      change (join (lit "," ++ [10])
                (((indent ++ lit "  ") ++ quote k ++ lit ": "
                  ++ stringify_at (indent ++ lit "  ") v)
                 :: map (fun kv =>
                           match kv with
                           | (k, v) =>
                               (indent ++ lit "  ") ++ quote k ++ lit ": "
                               ++ stringify_at (indent ++ lit "  ") v
                           end) ms))
        with J in E.
      rewrite E. rewrite <- app_assoc, (app_assoc [10]).
      unfold quote at 1. cbn [app].
      match goal with
      | |- context [skip_space (10 :: (indent ++ lit "  ") ++ 34 :: ?X)] =>
          change (10 :: (indent ++ lit "  ") ++ 34 :: X)
            with (([10] ++ indent ++ lit "  ") ++ 34 :: X)
      end.
      rewrite skip_space_blank;
        [|apply blank_app; [reflexivity|now apply blank_inner]|reflexivity].
      reflexivity.
Qed.

Lemma length_join (sep : text) (ps : list text) :
  (list_sum (map (@List.length N) ps) <= List.length (join sep ps))%nat.
Proof.
  induction ps as [|p ps IH]; [cbn; lia|].
  destruct ps as [|q ps].
  - cbn. lia.
  - rewrite join_cons. cbn [map list_sum fold_right] in *.
    rewrite !List.length_app. lia.
Qed.

Lemma weight_le_length (j : json) :
  forall indent, (weight j <= List.length (stringify_at indent j))%nat.
Proof.
  induction j as [|b|z|s|xs IH|ms IH] using json_induction; intros indent.
  - cbn. lia.
  - destruct b; cbn; lia.
  - cbn [weight stringify_at]. destruct (digits_head z) as (c & r & -> & _).
    cbn [List.length]. lia.
  - cbn [weight stringify_at]. unfold quote. cbn [List.length]. lia.
  - destruct xs as [|x xs]; [cbn; lia|].
    pose proof (stringify_array indent x xs []) as E.
    rewrite List.app_nil_r in E. rewrite E. cbn [weight].
    set (g := fun x => (indent ++ lit "  ") ++ stringify_at (indent ++ lit "  ") x).
    pose proof (length_join (lit "," ++ [10]) (map g (x :: xs))) as L.
    assert (S : (list_sum (map (fun x => S (weight x)) (x :: xs))
                 <= list_sum (map (@List.length N) (map g (x :: xs))))%nat).
    { clear E L. induction IH as [|y ys Hy Hys IHys]; [cbn; lia|].
      cbn [map list_sum fold_right] in *. unfold g at 1.
      rewrite !List.length_app. specialize (Hy (indent ++ lit "  ")).
      change (List.length (lit "  ")) with 2%nat.
      unfold list_sum in *. lia. }
    cbn [List.length]. rewrite !List.length_app. lia.
  - destruct ms as [|[k v] ms]; [cbn; lia|].
    pose proof (stringify_object indent k v ms []) as E.
    rewrite List.app_nil_r in E. rewrite E. cbn [weight].
    set (g := fun kv : text * json =>
                match kv with
                | (k, v) =>
                    (indent ++ lit "  ") ++ quote k ++ lit ": "
                    ++ stringify_at (indent ++ lit "  ") v
                end).
    pose proof (length_join (lit "," ++ [10]) (map g ((k, v) :: ms))) as L.
    assert (S : (list_sum (map (fun kv => S (weight (snd kv))) ((k, v) :: ms))
                 <= list_sum (map (@List.length N) (map g ((k, v) :: ms))))%nat).
    { clear E L. induction IH as [|[k' v'] ys Hy Hys IHys]; [cbn; lia|].
      cbn [map list_sum fold_right snd] in *. unfold g at 1. cbv beta iota.
      rewrite !List.length_app. specialize (Hy (indent ++ lit "  ")).
      change (List.length (lit "  ")) with 2%nat.
      unfold list_sum in *. lia. }
    cbn [List.length]. rewrite !List.length_app. lia.
Qed.

(** [JSON.parse] reads back what [JSON.stringify] wrote. *)
Lemma parse_stringify (j : json) :
  plain_keys j = true -> parse (stringify j) = Some j.
Proof.
  intros K. unfold parse, stringify.
  pose proof (weight_le_length j []) as W.
  assert (R : read_value (S (List.length (stringify_at [] j ++ [10])))
                ([] ++ stringify_at [] j ++ [10]) = Some (j, [10])).
  { apply (read_value_stringify j K); try reflexivity.
    - repeat split; discriminate.
    - rewrite List.length_app. lia. }
  cbn [app] in R. rewrite R. reflexivity.
Qed.

#[local] Ltac Zify.zify_post_hook ::= idtac.

End JsonFacts.

(* ================================================================== *)
(** * The manifest helpers *)
(* ================================================================== *)

Module HelpersFacts.

Import Text Path Utf8 FS Cmd Json Project Vocabulary.
Import TreeSpec Utf8Spec JsonSpec Helpers.
Import TextFacts FSFacts CmdFacts BuildFacts Utf8Facts JsonFacts Samples.
Local Open Scope cmd_scope.

Lemma lit_scalar (s : string) : forallb is_scalar (lit s) = true.
Proof.
  unfold lit. induction s as [|a s IH]; [reflexivity|].
  cbn [list_ascii_of_string map forallb]. rewrite IH, andb_true_r.
  pose proof (N_ascii_bounded a) as B. unfold is_scalar.
  replace (N_of_ascii a <? 55296) with true; [reflexivity|].
  symmetry. apply N.ltb_lt. lia.
Qed.

Lemma small_scalar (c : char) : c < 128 -> is_scalar c = true.
Proof.
  intros H. unfold is_scalar.
  replace (c <? 55296) with true; [reflexivity|].
  symmetry. apply N.ltb_lt. lia.
Qed.

Lemma hex_digit_scalar (n : N) : n < 16 -> is_scalar (hex_digit n) = true.
Proof.
  intros H. apply small_scalar. unfold hex_digit. destruct (n <? 10); lia.
Qed.

#[local] Ltac Zify.zify_post_hook ::= Z.to_euclidean_division_equations.

(** What a character is escaped as is made of scalar values. *)
Lemma escape_char_scalar (c : char) :
  c < 1114112 -> forallb is_scalar (escape_char c) = true.
Proof.
  intros H. unfold escape_char.
  destruct (c =? 34); [reflexivity|].
  destruct (c =? 92); [reflexivity|].
  destruct (c =? 8); [reflexivity|].
  destruct (c =? 12); [reflexivity|].
  destruct (c =? 10); [reflexivity|].
  destruct (c =? 13); [reflexivity|].
  destruct (c =? 9); [reflexivity|].
  destruct ((c <? 32) || ((55296 <=? c) && (c <=? 57343))) eqn:E.
  - assert (B : c < 65536).
    { apply orb_true_iff in E as [E|E].
      - apply N.ltb_lt in E. lia.
      - apply andb_true_iff in E as [_ E]. apply N.leb_le in E. lia. }
    change (lit "\u") with [92; 117]. cbn [app forallb].
    rewrite !hex_digit_scalar by lia. reflexivity.
  - apply orb_false_iff in E as [_ E]. cbn [forallb]. rewrite andb_true_r.
    unfold is_scalar.
    destruct (c <? 55296) eqn:L; [reflexivity|]. cbn [orb].
    apply N.ltb_ge in L.
    apply andb_false_iff in E as [E|E].
    + apply N.leb_gt in E. lia.
    + apply N.leb_gt in E.
      apply andb_true_iff. split; apply N.ltb_lt; lia.
Qed.

#[local] Ltac Zify.zify_post_hook ::= idtac.

Lemma quote_scalar (s : text) :
  forallb (fun c => c <? 1114112) s = true ->
  forallb is_scalar (quote s) = true.
Proof.
  intros H. unfold quote.
  assert (E : forallb is_scalar (flat_map escape_char s) = true).
  { induction s as [|c s IH]; [reflexivity|].
    cbn [forallb flat_map] in *. apply andb_true_iff in H as [Hc Hs].
    rewrite forallb_app, IH by exact Hs.
    rewrite escape_char_scalar; [reflexivity|]. now apply N.ltb_lt. }
  cbn [forallb]. rewrite forallb_app, E. reflexivity.
Qed.

Lemma join_scalar (sep : text) (ps : list text) :
  forallb is_scalar sep = true ->
  Forall (fun p => forallb is_scalar p = true) ps ->
  forallb is_scalar (join sep ps) = true.
Proof.
  intros Hs H. induction H as [|p ps Hp Hps IH]; [reflexivity|].
  destruct ps as [|q ps]; [exact Hp|].
  rewrite join_cons, !forallb_app, Hp, Hs, IH. reflexivity.
Qed.

Lemma stringify_scalar (j : json) :
  code_points j = true ->
  forall indent,
    forallb is_scalar indent = true ->
    forallb is_scalar (stringify_at indent j) = true.
Proof.
  induction j as [|b|z|s|xs IH|ms IH] using json_induction;
    intros C indent I.
  - reflexivity.
  - now destruct b.
  - apply lit_scalar.
  - now apply quote_scalar.
  - destruct xs as [|x xs]; [reflexivity|].
    pose proof (stringify_array indent x xs []) as E.
    rewrite app_nil_r in E. rewrite E. clear E.
    match goal with
    | |- forallb _ (_ :: [10] ++ ?J ++ _) = true =>
        assert (HJ : forallb is_scalar J = true); [|
          change (91 :: [10] ++ J ++ [10] ++ indent ++ [93])
            with ([91; 10] ++ J ++ [10] ++ indent ++ [93]);
          rewrite !forallb_app, HJ, I; reflexivity]
    end.
    apply join_scalar; [reflexivity|].
    cbn [code_points] in C. revert C.
    induction IH as [|y ys Hy Hys IHys]; intros C; [constructor|].
    cbn [forallb] in C. apply andb_true_iff in C as [Cy C].
    cbn [map]. constructor; [|now apply IHys].
    rewrite forallb_app, forallb_app, I. cbn [andb].
    rewrite lit_scalar. cbn [andb].
    apply Hy; [exact Cy|]. now rewrite forallb_app, I, lit_scalar.
  - destruct ms as [|[k v] ms]; [reflexivity|].
    pose proof (stringify_object indent k v ms []) as E.
    rewrite app_nil_r in E. rewrite E. clear E.
    match goal with
    | |- forallb _ (_ :: [10] ++ ?J ++ _) = true =>
        assert (HJ : forallb is_scalar J = true); [|
          change (123 :: [10] ++ J ++ [10] ++ indent ++ [125])
            with ([123; 10] ++ J ++ [10] ++ indent ++ [125]);
          rewrite !forallb_app, HJ, I; reflexivity]
    end.
    apply join_scalar; [reflexivity|].
    cbn [code_points] in C. revert C.
    induction IH as [|[k' v'] ys Hy Hys IHys]; intros C; [constructor|].
    cbn [forallb fst snd] in C, Hy.
    apply andb_true_iff in C as [Cy C]. apply andb_true_iff in Cy as [Ck Cv].
    cbn [map]. constructor; [|now apply IHys].
    rewrite !forallb_app, I, lit_scalar, (quote_scalar k' Ck), lit_scalar.
    cbn [andb].
    apply Hy; [exact Cv|]. now rewrite forallb_app, I, lit_scalar.
Qed.

Lemma stringify_text_scalar (j : json) :
  code_points j = true -> forallb is_scalar (stringify j) = true.
Proof.
  intros C. unfold stringify. rewrite forallb_app.
  now rewrite (stringify_scalar j C []).
Qed.

Lemma readJson_written (p : path) (j : json) (w : world) :
  plain_keys j = true -> code_points j = true ->
  lookup p (disk w) = Some (File (encode (stringify j))) ->
  readJson p w = (Some j, logged w [ReadFile p]).
Proof.
  intros K C L. unfold readJson, readFileUtf8. rewrite !bind_assoc.
  rewrite (run_readFile _ _ _ _ L). rewrite run_ret. cbv beta zeta.
  rewrite (decode_encode _ (stringify_text_scalar j C)).
  assert (H : match stringify j with
              | c :: r => if c =? 65279 then r else stringify j
              | [] => stringify j
              end = stringify j).
  { unfold stringify.
    destruct (stringify_head [] j) as (c & r & -> & _ & _ & _ & B).
    cbn [app]. replace (c =? 65279) with false; [reflexivity|].
    symmetry. apply N.eqb_neq. lia. }
  rewrite H, (parse_stringify j K). reflexivity.
Qed.



(** Without a manifest, [loadManifest] throws and leaves the disk as it
    was. *)
Lemma loadManifest_without_manifest (dir : path) (d : option node) :
  present (dir ++ [lit "manifest.json"]) d = false ->
  result_of (loadManifest dir) d = None /\
  disk_after (loadManifest dir) d = d.
Proof.
  intros H. unfold result_of, disk_after, Cmd.run, loadManifest.
  rewrite run_pathExists. cbn [disk logged]. rewrite H. split; reflexivity.
Qed.
(* END *)

End HelpersFacts.

(* ================================================================== *)
(** * Plugin names *)
(* ================================================================== *)

Module NameFacts.

Import Text Helpers NameSpec.

Lemma hyphenate_shape (s : text) (b : bool) :
  hyphens_single true (hyphenate b s) = true /\
  (b = true -> head_alnum (hyphenate b s) = true).
Proof.
  revert b. induction s as [|c s IH]; intros b; [now split|].
  cbn [hyphenate]. destruct (is_alnum c) eqn:A.
  - destruct (IH false) as [H _]. cbn [hyphens_single head_alnum].
    rewrite A. now split.
  - destruct (IH true) as [H K]. destruct b.
    + split; [exact H|]. intros _. now apply K.
    + split; [|discriminate]. cbn [hyphens_single].
      change (is_alnum 45) with false. cbv iota.
      change (45 =? 45) with true. rewrite H, andb_true_r. cbn [andb].
      specialize (K eq_refl). unfold head_alnum in K.
      destruct (hyphenate true s); [reflexivity|exact K].
Qed.

Lemma hyphens_single_tail (c : char) (r : text) :
  hyphens_single true (c :: r) = true ->
  hyphens_single true r = true /\ (c = 45 -> head_alnum r = true).
Proof.
  cbn [hyphens_single]. destruct (is_alnum c) eqn:A.
  - intros H. split; [exact H|]. intros ->. discriminate A.
  - intros H. apply andb_true_iff in H as [H K].
    apply andb_true_iff in H as [_ H]. split; [exact K|]. intros _.
    unfold head_alnum. destruct r; [reflexivity|exact H].
Qed.

Lemma hyphens_single_snoc (l : text) :
  hyphens_single true (l ++ [45]) = true -> hyphens_single false l = true.
Proof.
  induction l as [|c l IH]; [reflexivity|].
  cbn [app hyphens_single]. destruct (is_alnum c) eqn:A; [exact IH|].
  intros H. apply andb_true_iff in H as [H K].
  apply andb_true_iff in H as [E H]. rewrite E, (IH K), andb_true_r.
  cbn [andb]. destruct l as [|d l]; [discriminate H|exact H].
Qed.

Lemma hyphens_single_last (l : text) (c : char) :
  c <> 45 ->
  hyphens_single true (l ++ [c]) = true ->
  hyphens_single false (l ++ [c]) = true.
Proof.
  intros Hn. induction l as [|d l IH].
  - cbn [app hyphens_single]. destruct (is_alnum c); [reflexivity|].
    intros H. apply andb_true_iff in H as [H _].
    apply andb_true_iff in H as [H _]. apply N.eqb_eq in H. contradiction.
  - cbn [app hyphens_single]. destruct (is_alnum d) eqn:A; [exact IH|].
    intros H. apply andb_true_iff in H as [H K].
    apply andb_true_iff in H as [E H]. rewrite E, (IH K), andb_true_r.
    cbn [andb]. destruct l as [|e l]; exact H.
Qed.

Lemma head_alnum_snoc (l : text) (c : char) :
  l <> [] -> head_alnum (l ++ [c]) = true -> head_alnum l = true.
Proof. destruct l; [contradiction|]. intros _ H. exact H. Qed.

(** Without its last hyphen, a text whose hyphens stand alone is a slug. *)
Lemma strip_end_slug (s : text) :
  hyphens_single true s = true -> head_alnum s = true ->
  slug (match rev s with
        | c :: r => if c =? 45 then rev r else s
        | [] => s
        end) = true.
Proof.
  intros H A. destruct (rev s) as [|c r] eqn:E.
  - apply (f_equal (@rev N)) in E. rewrite rev_involutive in E. now subst s.
  - apply (f_equal (@rev N)) in E. rewrite rev_involutive in E.
    cbn [rev] in E. subst s. destruct (c =? 45) eqn:C.
    + apply N.eqb_eq in C. subst c. unfold slug.
      rewrite (hyphens_single_snoc _ H), andb_true_r.
      destruct (rev r) as [|d l]; [reflexivity|exact A].
    + apply N.eqb_neq in C. unfold slug.
      rewrite (hyphens_single_last _ _ C H), andb_true_r. exact A.
Qed.

Lemma strip_hyphens_slug (s : text) :
  hyphens_single true s = true -> slug (strip_hyphens s) = true.
Proof.
  intros H. unfold strip_hyphens. destruct s as [|c r]; [reflexivity|].
  destruct (hyphens_single_tail c r H) as [Hr Hc].
  destruct (c =? 45) eqn:C.
  - apply N.eqb_eq in C. apply strip_end_slug; [exact Hr|now apply Hc].
  - apply strip_end_slug; [exact H|]. cbn [head_alnum].
    cbn [hyphens_single] in H. destruct (is_alnum c); [reflexivity|].
    rewrite C in H. discriminate H.
Qed.

Lemma alnum_is_lower (c : char) :
  is_alnum c || (c =? 45) = true ->
  (c =? 8490) = false /\ (c =? 304) = false /\ lower c = c.
Proof.
  unfold is_alnum, lower. intros H.
  destruct (N.eqb_spec c 8490) as [->|_]; [discriminate H|].
  destruct (N.eqb_spec c 304) as [->|_]; [discriminate H|].
  repeat split.
  destruct (N.leb_spec 65 c); destruct (N.leb_spec c 90); try reflexivity.
  cbn [andb]. exfalso.
  destruct (N.leb_spec 97 c); [lia|].
  destruct (N.leb_spec 48 c); destruct (N.leb_spec c 57);
    destruct (N.eqb_spec c 45); cbn in H; try discriminate H; lia.
Qed.

Lemma hyphens_single_chars (b : bool) (s : text) :
  hyphens_single b s = true ->
  forallb (fun c => is_alnum c || (c =? 45)) s = true.
Proof.
  induction s as [|c s IH]; [reflexivity|].
  cbn [hyphens_single forallb]. destruct (is_alnum c); [exact IH|].
  intros H. apply andb_true_iff in H as [H K].
  apply andb_true_iff in H as [E _]. now rewrite E, (IH K).
Qed.

Lemma toLowerCase_plain (s : text) :
  forallb (fun c => is_alnum c || (c =? 45)) s = true ->
  Package.toLowerCase s = s.
Proof.
  unfold Package.toLowerCase. induction s as [|c s IH]; [reflexivity|].
  cbn [forallb flat_map]. intros H. apply andb_true_iff in H as [H K].
  destruct (alnum_is_lower c H) as (-> & -> & ->). now rewrite (IH K).
Qed.

Lemma hyphenate_slug (s : text) (b : bool) :
  hyphens_single false s = true ->
  (b = true -> head_alnum s = true) ->
  hyphenate b s = s.
Proof.
  revert b. induction s as [|c s IH]; intros b H K; [reflexivity|].
  cbn [hyphenate]. cbn [hyphens_single] in H.
  destruct (is_alnum c) eqn:A.
  - f_equal. apply IH; [exact H|discriminate].
  - destruct b; [specialize (K eq_refl); cbn in K; congruence|].
    apply andb_true_iff in H as [H L].
    apply andb_true_iff in H as [E H]. apply N.eqb_eq in E. subst c.
    f_equal. apply IH; [exact L|]. intros _.
    destruct s; [discriminate H|exact H].
Qed.

Lemma slug_last (l : text) (c : char) :
  hyphens_single false (l ++ [c]) = true -> (c =? 45) = false.
Proof.
  induction l as [|d l IH].
  - cbn [app hyphens_single]. destruct (N.eqb_spec c 45) as [->|]; [|reflexivity].
    change (is_alnum 45) with false. cbn. discriminate.
  - cbn [app hyphens_single]. destruct (is_alnum d); [exact IH|].
    intros H. apply andb_true_iff in H as [_ H]. now apply IH.
Qed.

Lemma strip_hyphens_slug_fixed (s : text) :
  slug s = true -> strip_hyphens s = s.
Proof.
  unfold slug, strip_hyphens. intros H. apply andb_true_iff in H as [A H].
  assert (E : match s with
              | c :: r => if c =? 45 then r else s
              | [] => s
              end = s).
  { destruct s as [|c r]; [reflexivity|].
    destruct (N.eqb_spec c 45) as [->|]; [discriminate A|reflexivity]. }
  rewrite E. destruct (rev s) as [|c r] eqn:R; [reflexivity|].
  apply (f_equal (@rev N)) in R. rewrite rev_involutive in R. cbn [rev] in R.
  rewrite R in H. now rewrite (slug_last _ _ H).
Qed.

Lemma sanitizePluginName_fixed (s : text) :
  slug s = true -> sanitizePluginName s = s.
Proof.
  intros H. unfold sanitizePluginName.
  pose proof H as H'. unfold slug in H'. apply andb_true_iff in H' as [A S].
  rewrite (toLowerCase_plain s (hyphens_single_chars _ _ S)).
  rewrite (hyphenate_slug s false S) by discriminate.
  now apply strip_hyphens_slug_fixed.
Qed.

Lemma hyphenate_nil (s : text) (b : bool) :
  hyphenate b s = [] \/ hyphenate b s = [45] <->
  forallb (fun c => negb (is_alnum c)) s = true.
Proof.
  revert b. induction s as [|c s IH]; intros b; [cbn; tauto|].
  cbn [hyphenate forallb]. destruct (is_alnum c) eqn:A; cbn [negb andb].
  - split; [intros [H|H]; [discriminate H|]|discriminate].
    exfalso. inversion H; subst. discriminate A.
  - destruct b.
    + apply IH.
    + rewrite <- (IH true). split.
      * intros [H|H]; [discriminate H|]. inversion H. now left.
      * intros [H|H]; [right; now rewrite H|].
        exfalso. pose proof (proj2 (hyphenate_shape s true) eq_refl) as K.
        rewrite H in K. discriminate K.
Qed.

(** The name [sanitizePluginName] returns is a slug: lower-case letters
    and digits in groups joined by single hyphens, with no hyphen at
    either end.  Slugs are the names it leaves as they are, so sanitising
    twice changes nothing more; and the result is empty exactly when the
    lower-cased name holds no letter and no digit. *)
Theorem sanitizePluginName_gives_a_slug (name : text) :
  slug (sanitizePluginName name) = true /\
  sanitizePluginName (sanitizePluginName name) = sanitizePluginName name /\
  (sanitizePluginName name = [] <->
   forallb (fun c => negb (is_alnum c)) (Package.toLowerCase name) = true).
Proof.
  assert (S : slug (sanitizePluginName name) = true).
  { apply strip_hyphens_slug, hyphenate_shape. }
  split; [exact S|]. split; [now apply sanitizePluginName_fixed|].
  rewrite <- (hyphenate_nil _ false). unfold sanitizePluginName.
  set (h := hyphenate false (Package.toLowerCase name)).
  pose proof (proj1 (hyphenate_shape (Package.toLowerCase name) false)) as L.
  fold h in L. split.
  - unfold strip_hyphens. destruct h as [|c r]; [now left|].
    destruct (N.eqb_spec c 45) as [->|Hn].
    + destruct (rev r) as [|d l] eqn:R.
      * apply (f_equal (@rev N)) in R. rewrite rev_involutive in R.
        subst r. now right.
      * destruct (d =? 45) eqn:D; [|intros ->; discriminate R].
        intros E. apply (f_equal (@rev N)) in E. rewrite rev_involutive in E.
        subst l. apply (f_equal (@rev N)) in R. rewrite rev_involutive in R.
        cbn in R. apply N.eqb_eq in D. subst d r.
        cbn in L. discriminate L.
    + destruct (rev (c :: r)) as [|d l] eqn:R.
      * apply (f_equal (@rev N)) in R. rewrite rev_involutive in R.
        discriminate R.
      * destruct (d =? 45) eqn:D; [|discriminate].
        intros E. apply (f_equal (@rev N)) in E. rewrite rev_involutive in E.
        subst l. apply (f_equal (@rev N)) in R. rewrite rev_involutive in R.
        cbn in R. inversion R. apply N.eqb_eq in D. congruence.
  - intros [->| ->]; reflexivity.
Qed.

End NameFacts.

(* ================================================================== *)
(** * The development server: what every request gets *)
(* ================================================================== *)

Module ServerFacts.

Import Text Path Utf8 FS Cmd DevServer Vocabulary ServerSpec.
Import TextFacts FSFacts CmdFacts DevServerFacts Samples.
Local Open Scope cmd_scope.

(** ** Splitting and joining *)

Lemma split_not_nil (sep : char) (x : text) : split sep x <> [].
Proof.
  destruct x as [|c x]; [discriminate|]. cbn [split].
  destruct (c =? sep); [discriminate|]. destruct (split sep x); discriminate.
Qed.

Lemma split_glue (sep : char) (x y : text) :
  split sep (x ++ sep :: y) = split sep x ++ split sep y.
Proof.
  induction x as [|c x IH].
  - cbn [app split]. now rewrite N.eqb_refl.
  - cbn [app split]. rewrite IH. destruct (c =? sep); [reflexivity|].
    pose proof (split_not_nil sep x).
    destruct (split sep x); [contradiction|reflexivity].
Qed.

Lemma split_segment_free (sep : char) (x : text) :
  Forall (fun seg => forallb (fun c => negb (c =? sep)) seg = true)
         (split sep x).
Proof.
  induction x as [|c x IH]; [repeat constructor|].
  cbn [split]. destruct (c =? sep) eqn:E; [now constructor|].
  destruct (split sep x) as [|seg segs].
  - repeat constructor. cbn. now rewrite E.
  - inversion IH; subst. constructor; [|assumption].
    cbn [forallb]. now rewrite E.
Qed.

Lemma split_free (sep : char) (x : text) :
  forallb (fun c => negb (c =? sep)) x = true -> split sep x = [x].
Proof.
  induction x as [|c x IH]; [reflexivity|].
  cbn [forallb split]. intros H. apply andb_true_iff in H as [H K].
  apply negb_true_iff in H. now rewrite H, (IH K).
Qed.

Lemma split_join (sep : char) (segs : list text) :
  segs <> [] ->
  Forall (fun seg => forallb (fun c => negb (c =? sep)) seg = true) segs ->
  split sep (join [sep] segs) = segs.
Proof.
  intros Hn F. induction F as [|p ps Hp Hps IH]; [contradiction|].
  destruct ps as [|q ps]; [now apply split_free|].
  change (join [sep] (p :: q :: ps)) with (p ++ sep :: join [sep] (q :: ps)).
  rewrite split_glue, (split_free _ _ Hp). cbn [app]. f_equal.
  apply IH. discriminate.
Qed.


(** ** Normalising a path that does not climb *)












(** ** What the handler answers *)







Lemma index_stays : climbs (lit "index.html") = false.
Proof. reflexivity. Qed.



End ServerFacts.

(* ================================================================== *)
(** * The manifest of the output *)
(* ================================================================== *)

Module ManifestFacts.

Import Text Path Utf8 FS Cmd Json Project Build Bundle Vocabulary BuildSpec.
Import TreeSpec Utf8Spec JsonSpec Helpers.
Import TextFacts FSFacts CmdFacts BuildFacts Utf8Facts JsonFacts TreeFacts
  HelpersFacts Samples.
Local Open Scope cmd_scope.

(** ** Setting a member *)








(** ** The end of a build *)

Lemma writeFile_outcome (p : path) (data : bytes) (w : world) :
  writeFile p data w = (None, logged w [WriteFile p]) \/
  (writable p (disk w) /\
   writeFile p data w
   = (Some tt, moved w (with_file p data (disk w)) [WriteFile p])).
Proof.
  unfold writeFile, bind, emit, get_disk, put_disk, throw, writable.
  cbn [disk log]. unfold logged, moved, with_file.
  destruct p as [|n r] eqn:P; [now left|]. rewrite <- P.
  destruct (lookup (parent p) (disk w)) as [[x|es]|] eqn:L; try now left.
  destruct (lookup p (disk w)) as [[x|es']|] eqn:T; try now left.
  - right. split; [|reflexivity].
    split; [subst p; discriminate|]. split; [now exists es|]. discriminate.
  - right. split; [|reflexivity].
    split; [subst p; discriminate|]. split; [now exists es|]. discriminate.
Qed.






End ManifestFacts.

(* ================================================================== *)
(** * The scaffolding command: where it writes and what it leaves *)
(* ================================================================== *)

Module CreateFacts.

Import Text Path Utf8 FS Cmd Json Project Vocabulary.
Import TreeSpec Utf8Spec JsonSpec Helpers ServerSpec Create CreateSpec.
Import TextFacts FSFacts CmdFacts BuildFacts Utf8Facts JsonFacts HelpersFacts
  ServerFacts ManifestFacts Samples.
Local Open Scope cmd_scope.

(** ** The directory of the new project *)

Lemma name_char_bound (c : char) :
  Package.is_name_char c = true ->
  c <> slash /\ c <> dot /\ (c <? 1114112) = true.
Proof.
  unfold Package.is_name_char, slash, dot. intros H.
  repeat split; try (intros ->; discriminate H).
  apply N.ltb_lt.
  repeat (apply orb_true_iff in H as [H|H]).
  - apply andb_true_iff in H as [_ H]. apply N.leb_le in H. lia.
  - apply andb_true_iff in H as [_ H]. apply N.leb_le in H. lia.
  - apply N.eqb_eq in H. lia.
  - apply N.eqb_eq in H. lia.
Qed.

Lemma sanitizedName_chars (pluginName : text) :
  forallb Package.is_name_char (sanitizedName pluginName) = true.
Proof.
  unfold sanitizedName.
  induction (Package.toLowerCase pluginName) as [|c s IH]; [reflexivity|].
  cbn [flat_map]. rewrite forallb_app, IH, andb_true_r.
  destruct (Package.is_name_char c) eqn:E; [cbn; now rewrite E|].
  now destruct (65535 <? c).
Qed.

Lemma toLowerCase_not_nil (s : text) : s <> [] -> Package.toLowerCase s <> [].
Proof.
  destruct s as [|c s]; [contradiction|]. intros _.
  unfold Package.toLowerCase. cbn [flat_map].
  destruct (c =? 8490); [discriminate|]. destruct (c =? 304); discriminate.
Qed.

Lemma sanitizedName_not_nil (pluginName : text) :
  pluginName <> [] -> sanitizedName pluginName <> [].
Proof.
  intros H. apply toLowerCase_not_nil in H. unfold sanitizedName.
  destruct (Package.toLowerCase pluginName) as [|c s]; [contradiction|].
  cbn [flat_map]. destruct (Package.is_name_char c); [discriminate|].
  destruct (65535 <? c); discriminate.
Qed.

Lemma name_is_plain (s : text) :
  s <> [] -> forallb Package.is_name_char s = true -> plain_segment s = true.
Proof.
  intros Hn H. unfold plain_segment, kept.
  assert (F : forallb (fun c => negb (c =? slash)) s = true).
  { clear Hn. induction s as [|c s IH]; [reflexivity|].
    cbn [forallb] in *. apply andb_true_iff in H as [H K].
    rewrite (IH K), andb_true_r. apply negb_true_iff, N.eqb_neq.
    now apply name_char_bound. }
  rewrite F, andb_true_r.
  destruct s as [|c s]; [contradiction|].
  cbn [forallb] in H. apply andb_true_iff in H as [H _].
  destruct (name_char_bound c H) as (_ & Hd & _).
  assert (E : (c =? dot) = false) by now apply N.eqb_neq.
  cbn [teqb]. unfold dot in *. now rewrite E.
Qed.

Lemma normalize_segments_snoc (above : bool) (segs stack : list text)
    (b : text) :
  plain_segment b = true ->
  normalize_segments above stack (segs ++ [b])
  = normalize_segments above stack segs ++ [b].
Proof.
  intros P. unfold plain_segment in P. apply andb_true_iff in P as [P _].
  apply andb_true_iff in P as [K D]. unfold kept in K.
  apply negb_true_iff in K. apply negb_true_iff in D.
  revert stack. induction segs as [|seg segs IH]; intros stack.
  - cbn [app normalize_segments]. now rewrite K, D.
  - cbn [app normalize_segments].
    destruct (teqb seg [] || teqb seg [dot]); [apply IH|].
    destruct (teqb seg [dot; dot]).
    + destruct stack as [|top stack']; [destruct above; apply IH|].
      destruct (teqb top [dot; dot]); apply IH.
    + apply IH.
Qed.

Lemma normalize_segments_whole (above : bool) (segs stack : list text) :
  Forall (fun seg => forallb (fun c => negb (c =? slash)) seg = true) segs ->
  Forall whole stack ->
  Forall whole (normalize_segments above stack segs).
Proof.
  intros F. revert stack. induction F as [|seg segs Hs _ IH]; intros stack S.
  - cbn. now apply Forall_rev.
  - cbn [normalize_segments].
    destruct (teqb seg [] || teqb seg [dot]) eqn:E; [now apply IH|].
    assert (W : whole seg).
    { split; [|exact Hs]. intros ->. discriminate E. }
    destruct (teqb seg [dot; dot]).
    + destruct stack as [|top stack'].
      * destruct above; apply IH; repeat constructor; apply W.
      * inversion S; subst.
        destruct (teqb top [dot; dot]); apply IH; [|assumption].
        now constructor.
    + apply IH. now constructor.
Qed.

Lemma components_rooted (segs : list text) :
  Forall whole segs -> components (slash :: join [slash] segs) = segs.
Proof.
  intros W. unfold components. cbn [split]. rewrite N.eqb_refl.
  cbn [filter]. change (negb (teqb [] [])) with false. cbv iota.
  destruct segs as [|s segs]; [reflexivity|].
  rewrite split_join.
  - induction W as [|x xs [Hx _] _ IH]; [reflexivity|].
    cbn [filter]. destruct x; [contradiction|]. cbn [teqb negb].
    now rewrite IH.
  - discriminate.
  - eapply Forall_impl; [|exact W]. now intros x [_ Hx].
Qed.

(** The directory the project is made in is a direct child of the directory
    chosen, under a name of lower-case letters, digits, hyphens and
    underscores: whatever the plugin is called, the path does not lead
    elsewhere. *)
Theorem new_project_is_a_child_of_the_chosen_directory (cwd dir : text)
    (pluginName : text) :
  pluginName <> [] ->
  forallb Package.is_name_char (sanitizedName pluginName) = true /\
  sanitizedName pluginName <> [] /\
  components (resolve2 cwd dir (sanitizedName pluginName))
  = components (Path.resolve cwd dir) ++ [sanitizedName pluginName].
Proof.
  intros Hn.
  pose proof (sanitizedName_chars pluginName) as C.
  pose proof (sanitizedName_not_nil pluginName Hn) as Ne.
  split; [exact C|]. split; [exact Ne|].
  pose proof (name_is_plain _ Ne C) as P.
  set (b := sanitizedName pluginName) in *.
  assert (A : is_absolute b = false).
  { destruct b as [|c s]; [reflexivity|]. cbn [forallb] in C.
    apply andb_true_iff in C as [C _]. cbn [is_absolute].
    apply N.eqb_neq. now apply name_char_bound. }
  assert (Fb : forallb (fun c => negb (c =? slash)) b = true).
  { unfold plain_segment in P. now apply andb_true_iff in P as [_ P]. }
  unfold resolve2, Path.resolve. rewrite A.
  set (full := if is_absolute dir then dir else cwd ++ slash :: dir).
  assert (E : (if is_absolute dir then dir ++ slash :: b
               else cwd ++ slash :: dir ++ slash :: b)
              = full ++ slash :: b).
  { unfold full. destruct (is_absolute dir); [reflexivity|].
    now rewrite <- app_assoc. }
  rewrite E, split_glue, (split_free _ _ Fb), normalize_segments_snoc
    by exact P.
  assert (W : Forall whole (normalize_segments false [] (split slash full))).
  { apply normalize_segments_whole; [apply split_segment_free|constructor]. }
  rewrite !components_rooted; [reflexivity|exact W|].
  apply Forall_app. split; [exact W|]. repeat constructor; assumption.
Qed.

(** The statement for a name that tries to leave the directory. *)
Lemma new_project_witness :
  components (resolve2 (lit "/home/dev") (lit "plugins") (lit "---etc-x"))
  = [lit "home"; lit "dev"; lit "plugins"; lit "---etc-x"].
Proof.
  exact (proj2 (proj2 (new_project_is_a_child_of_the_chosen_directory
                         (lit "/home/dev") (lit "plugins") (lit "../ETC/x")
                         ltac:(discriminate)))).
Defined.

(** ** What a command leaves alone *)

Lemma prefix_cases (q p r r' : path) :
  q ++ r' = p ++ r -> is_prefix q p = true \/ is_prefix p q = true.
Proof.
  revert p. induction q as [|n q IH]; intros p H; [now left|].
  destruct p as [|m p]; [now right|].
  cbn [app] in H. inversion H; subst. cbn [is_prefix]. rewrite teqb_refl.
  now apply IH.
Qed.

Lemma beside_below (p r q : path) : beside p q -> beside (p ++ r) q.
Proof.
  intros [H K]. split.
  - destruct (is_prefix (p ++ r) q) eqn:E; [|reflexivity].
    apply is_prefix_split in E as (r' & ->).
    now rewrite <- app_assoc, is_prefix_app in H.
  - destruct (is_prefix q (p ++ r)) eqn:E; [|reflexivity].
    apply is_prefix_split in E as (r' & E). symmetry in E.
    apply prefix_cases in E as [E|E]; congruence.
Qed.

Lemma is_prefix_same_start (p a b : path) :
  is_prefix (p ++ a) (p ++ b) = is_prefix a b.
Proof.
  induction p as [|n p IH]; [reflexivity|].
  cbn [app is_prefix]. now rewrite teqb_refl.
Qed.

Lemma beside_same_start (p a b : path) :
  is_prefix a b = false -> is_prefix b a = false ->
  beside (p ++ a) (p ++ b).
Proof. intros H K. split; now rewrite is_prefix_same_start. Qed.

Lemma lookup_chain (p q : path) :
  is_prefix q p = false -> lookup q (Some (chain p)) = None.
Proof.
  revert q. induction p as [|n p IH]; intros q H.
  - destruct q as [|m q]; [discriminate|]. cbn. apply TreeFacts.lookup_nothing.
  - destruct q as [|m q]; [discriminate|].
    cbn [chain fold_right lookup assoc]. fold (chain p).
    destruct (teqb n m) eqn:E; [|apply TreeFacts.lookup_nothing].
    apply teqb_eq in E. subst m. cbn [is_prefix] in H.
    rewrite teqb_refl in H. now apply IH.
Qed.

(** [mkdir -p] changes what is found on the way to its directory only. *)
Lemma lookup_mkdirp_off (p q : path) (d : option node) (y : node) :
  mkdirp p d = Some y -> is_prefix q p = false ->
  lookup q (Some y) = lookup q d.
Proof.
  revert q d y. induction p as [|n p IH]; intros q d y Hm Hq.
  - destruct q as [|m q]; [discriminate|].
    destruct d as [[x|es]|]; cbn in Hm; inversion Hm; subst y;
      [reflexivity|].
    cbn. apply TreeFacts.lookup_nothing.
  - destruct q as [|m q]; [discriminate|].
    destruct d as [[x|es]|].
    + discriminate.
    + rewrite mkdirp_cons in Hm.
      destruct (mkdirp p (assoc n es)) as [c|] eqn:E; [|discriminate].
      inversion Hm; subst y. cbn [lookup].
      destruct (teqb m n) eqn:T.
      * apply teqb_eq in T. subst m. rewrite assoc_upsert_same.
        cbn [is_prefix] in Hq. rewrite teqb_refl in Hq.
        now apply (IH q (assoc n es)).
      * rewrite assoc_upsert_other; [reflexivity|].
        intros ->. now rewrite teqb_refl in T.
    + rewrite mkdirp_none in Hm. injection Hm as <-.
      exact (lookup_chain (n :: p) (m :: q) Hq).
Qed.

Lemma frames_reads_only {A} (p : path) (m : M A) :
  reads_only m -> frames p m.
Proof. intros H w q _. now rewrite H. Qed.

Lemma frames_bind {A B} (p : path) (m : M A) (k : A -> M B) :
  frames p m -> (forall a, frames p (k a)) -> frames p (bind m k).
Proof.
  intros Hm Hk w q Hq. unfold bind. specialize (Hm w q Hq).
  destruct (m w) as [[a|] w1]; cbn in *; [|exact Hm].
  now rewrite (Hk a w1 q Hq).
Qed.

Lemma frames_try_catch {A} (p : path) (m h : M A) :
  frames p m -> frames p h -> frames p (try_catch m h).
Proof.
  intros Hm Hh w q Hq. unfold try_catch. specialize (Hm w q Hq).
  destruct (m w) as [[a|] w1]; cbn in *; [exact Hm|].
  now rewrite (Hh w1 q Hq).
Qed.

Lemma frames_below {A} (p r : path) (m : M A) :
  frames (p ++ r) m -> frames p m.
Proof. intros H w q Hq. apply H. now apply beside_below. Qed.

Lemma frames_remove (p : path) : frames p (remove p).
Proof.
  intros w q [H K]. unfold remove, bind, emit, get_disk, put_disk.
  cbn [snd disk]. now apply lookup_update_unrelated.
Qed.

Lemma frames_ensureDir (p : path) : frames p (ensureDir p).
Proof.
  intros w q [H K]. unfold ensureDir, bind, emit, get_disk, put_disk, throw.
  cbn [disk]. destruct (mkdirp p (disk w)) as [y|] eqn:E; cbn [snd disk];
    [|reflexivity].
  exact (lookup_mkdirp_off _ _ _ _ E K).
Qed.

Lemma frames_writeFile (p : path) (data : bytes) :
  frames p (writeFile p data).
Proof.
  intros w q [H K].
  destruct (writeFile_outcome p data w) as [E|[_ E]]; rewrite E;
    cbn [snd disk logged moved]; [reflexivity|].
  now apply lookup_update_unrelated.
Qed.

Lemma is_prefix_parent (q p : path) :
  is_prefix q p = false -> is_prefix q (parent p) = false.
Proof.
  intros H. destruct (is_prefix q (parent p)) eqn:E; [|reflexivity].
  apply is_prefix_split in E as (r & E).
  destruct p as [|n p'] using rev_ind; [destruct q; discriminate|].
  clear IHp'. rewrite parent_snoc in E. subst p'.
  now rewrite <- app_assoc, is_prefix_app in H.
Qed.

Lemma frames_copy (src dst : path) : frames dst (copy src dst).
Proof.
  intros w q [H K]. unfold copy, bind, emit, get_disk, put_disk, throw, ret.
  cbn [disk]. destruct (lookup src (disk w)) as [s|]; [|reflexivity].
  destruct (is_prefix src dst); [reflexivity|].
  destruct (mkdirp (parent dst) (disk w)) as [y|] eqn:E; [|reflexivity].
  destruct (copy_node s (lookup dst (Some y))) as [ok c].
  assert (L : lookup q (update dst (fun _ => c) (Some y)) = lookup q (disk w)).
  { rewrite lookup_update_unrelated by assumption.
    apply (lookup_mkdirp_off _ _ _ _ E). now apply is_prefix_parent. }
  destruct ok; exact L.
Qed.

Lemma frames_write_files (gen : generators) (dirname pluginName template : text)
    (targetDir : path) :
  frames targetDir (write_files gen dirname pluginName template targetDir).
Proof.
  unfold write_files, writeJson, writeFileText.
  do 5 (apply frames_bind;
        [eapply frames_below; apply frames_writeFile|intros _]).
  apply frames_bind; [|intros _; apply frames_bind; [|intros _]].
  3: apply frames_bind;
       [eapply frames_below; apply frames_writeFile|intros _].
  - apply frames_bind; [apply frames_reads_only, reads_only_pathExists|].
    intros [|]; [eapply frames_below; apply frames_copy
                |eapply frames_below; apply frames_writeFile].
  - destruct (teqb template (lit "payment"));
      [eapply frames_below; apply frames_writeFile|].
    destruct (teqb template (lit "report"));
      [eapply frames_below; apply frames_writeFile|].
    apply frames_reads_only, reads_only_ret.
  - apply frames_reads_only, reads_only_print.
Qed.

(** Making a project changes nothing beside the directory of the project,
    whether it succeeds, is cancelled or fails on the way, and whether or
    not an existing directory is overwritten. *)
Theorem create_changes_the_new_directory_only (gen : generators)
    (cwd dirname : text) (overwrite : bool) (pluginName : text)
    (o : options) (d : option node) (q : path) :
  beside (components (resolve2 cwd (directory o) (sanitizedName pluginName)))
         q ->
  lookup q (disk_after (createCommand gen cwd dirname overwrite pluginName o)
              d)
  = lookup q d.
Proof.
  intros H. unfold disk_after, Cmd.run.
  set (targetDir := components (resolve2 cwd (directory o)
                                  (sanitizedName pluginName))) in *.
  assert (F : frames targetDir
                (createCommand gen cwd dirname overwrite pluginName o)).
  { unfold createCommand. fold targetDir.
    apply frames_try_catch; [|apply frames_reads_only, reads_only_print].
    destruct (teqb (Minify.trim pluginName) []);
      [apply frames_reads_only, reads_only_print|].
    apply frames_bind; [apply frames_reads_only, reads_only_pathExists|].
    intros found.
    destruct (found && negb overwrite);
      [apply frames_reads_only, reads_only_print|].
    apply frames_bind.
    { destruct found; [apply frames_remove
                      |apply frames_reads_only, reads_only_ret]. }
    intros _. apply frames_bind; [apply frames_ensureDir|]. intros _.
    do 4 (apply frames_bind;
          [eapply frames_below; apply frames_ensureDir|intros _]).
    apply frames_write_files. }
  exact (F _ q H).
Qed.

(** The statement for a note beside the new project. *)
Lemma create_frame_witness :
  lookup [lit "home"; lit "dev"; lit "notes.txt"]
    (disk_after (createCommand sample_generators (lit "/home/dev")
                   (lit "/opt/cli/src/commands") true (lit "Demo")
                   {| template := None; directory := lit "." |})
       workspace)
  = lookup [lit "home"; lit "dev"; lit "notes.txt"] workspace.
Proof.
  apply create_changes_the_new_directory_only. split; reflexivity.
Defined.

(** ** What a successful run leaves *)

Lemma keeps_reads_only {A} (p : path) (m : M A) : reads_only m -> keeps p m.
Proof. intros H w. now rewrite H. Qed.

Lemma keeps_bind {A B} (p : path) (m : M A) (k : A -> M B) :
  keeps p m -> (forall a, keeps p (k a)) -> keeps p (bind m k).
Proof.
  intros Hm Hk w. unfold bind. specialize (Hm w).
  destruct (m w) as [[a|] w1]; cbn in *; [|exact Hm].
  now rewrite (Hk a w1).
Qed.

Lemma keeps_try_catch {A} (p : path) (m h : M A) :
  keeps p m -> keeps p h -> keeps p (try_catch m h).
Proof.
  intros Hm Hh w. unfold try_catch. specialize (Hm w).
  destruct (m w) as [[a|] w1]; cbn in *; [exact Hm|].
  now rewrite (Hh w1).
Qed.

Lemma keeps_frames {A} (t p : path) (m : M A) :
  frames t m -> beside t p -> keeps p m.
Proof. intros F B w. now apply F. Qed.

Lemma skip_step {A} (m : M A) (k : A -> M unit) (h : M unit)
    (line : message) (p : path) (data : bytes) (dflt : message) :
  never_ends_with line h ->
  (forall a w1,
      last (lines (log (snd (try_catch (k a) h w1)))) dflt = line ->
      lookup p (disk (snd (try_catch (k a) h w1))) = Some (File data)) ->
  forall w,
    last (lines (log (snd (try_catch (bind m k) h w)))) dflt = line ->
    lookup p (disk (snd (try_catch (bind m k) h w))) = Some (File data).
Proof.
  intros Hh Hk w. destruct (m w) as [[a|] w1] eqn:E.
  - rewrite (try_catch_bind_ok _ _ _ _ _ _ E). apply Hk.
  - rewrite (try_catch_bind_throw _ _ _ _ _ E). intros L.
    now apply Hh in L.
Qed.

Lemma write_step (p : path) (data : bytes) (k : unit -> M unit) (h : M unit)
    (line : message) (dflt : message) :
  never_ends_with line h ->
  (forall u, keeps p (try_catch (k u) h)) ->
  forall w,
    last (lines (log (snd (try_catch (bind (writeFile p data) k) h w)))) dflt
    = line ->
    lookup p (disk (snd (try_catch (bind (writeFile p data) k) h w)))
    = Some (File data).
Proof.
  intros Hh Hk w. destruct (writeFile_outcome p data w) as [E|[W E]].
  - rewrite (try_catch_bind_throw _ _ _ _ _ E). intros L.
    now apply Hh in L.
  - rewrite (try_catch_bind_ok _ _ _ _ _ _ E). intros _.
    rewrite Hk. cbn [disk moved].
    now apply BundleFacts.lookup_written.
Qed.

Ltac keeps_tac :=
  repeat first
    [ apply keeps_try_catch
    | eapply keeps_frames;
        [apply frames_writeFile|apply beside_same_start; reflexivity]
    | eapply keeps_frames;
        [apply frames_copy|apply beside_same_start; reflexivity]
    | apply keeps_reads_only;
        first [apply reads_only_print|apply reads_only_ret
              |apply reads_only_pathExists|assumption]
    | match goal with
      | |- keeps _ (if ?c then _ else _) => destruct c
      end
    | apply keeps_bind; [|intros ?] ].

(** The files of a run of [write_files] that ends with the report of
    success. *)
Lemma write_files_ok (gen : generators) (dirname pluginName template : text)
    (targetDir : path) (h : M unit) (dflt : message) (w : world) :
  never_ends_with (created pluginName) h ->
  reads_only h ->
  last (lines (log (snd (try_catch
                           (write_files gen dirname pluginName template
                              targetDir) h w)))) dflt
  = created pluginName ->
  let after := disk (snd (try_catch
                            (write_files gen dirname pluginName template
                               targetDir) h w)) in
  holds (targetDir ++ [lit "manifest.json"])
    (stringify (manifest pluginName (sanitizedName pluginName) template))
    after /\
  holds (targetDir ++ [lit "index.html"])
    (generateHtmlTemplate gen pluginName template) after /\
  holds (targetDir ++ [lit "styles.css"])
    (generateCssTemplate gen template) after /\
  holds (targetDir ++ [lit "main.js"])
    (generateJsTemplate gen pluginName template) after /\
  holds (targetDir ++ [lit "lib"; lit "pos-sdk.js"])
    (generateSdkBridge gen) after /\
  holds (targetDir ++ [lit "README.md"])
    (generateReadme gen pluginName template) after.
Proof.
  intros Hh Hr L after. subst after.
  unfold holds, write_files, writeJson, writeFileText in *.
  repeat split; revert L; revert w.
  - apply write_step; [exact Hh|]. intros _. keeps_tac.
  - apply skip_step; [exact Hh|]. intros _.
    apply write_step; [exact Hh|]. intros _. keeps_tac.
  - do 2 (apply skip_step; [exact Hh|]; intros _).
    apply write_step; [exact Hh|]. intros _. keeps_tac.
  - do 3 (apply skip_step; [exact Hh|]; intros _).
    apply write_step; [exact Hh|]. intros _. keeps_tac.
  - do 4 (apply skip_step; [exact Hh|]; intros _).
    apply write_step; [exact Hh|]. intros _. keeps_tac.
  - do 7 (apply skip_step; [exact Hh|]; intros _).
    apply write_step; [exact Hh|]. intros _. keeps_tac.
Qed.

Lemma failure_is_not_success (pluginName stage : text) :
  never_ends_with (created pluginName) (print (Failed stage)).
Proof.
  intros w dflt. unfold print, emit. cbn [snd log]. rewrite lines_app.
  cbn [lines flat_map app]. rewrite last_last. discriminate.
Qed.

Lemma printed_last (m : message) (h : M unit) (w : world) (dflt : message) :
  last (lines (log (snd (try_catch (print m) h w)))) dflt = m.
Proof.
  unfold try_catch, print, emit. cbn [snd log]. rewrite lines_app.
  cbn [lines flat_map app]. apply last_last.
Qed.

Lemma notice_is_not_success (pluginName : text) (s : string) :
  hd 0 (lit s) <> 10 -> Info (lit s) <> created pluginName.
Proof.
  intros H E. unfold created in E. injection E as E.
  apply (f_equal (hd 0)) in E. cbn [app hd] in E. contradiction.
Qed.

(** A run of the command that ends with the report of success has come to
    the writing of the files. *)
Lemma create_reaches_the_files (gen : generators) (cwd dirname : text)
    (overwrite : bool) (pluginName : text) (o : options) (d : option node)
    (dflt : message) :
  let targetDir :=
    components (resolve2 cwd (directory o) (sanitizedName pluginName)) in
  let failed := print (Failed (lit "Failed to create plugin")) in
  last (lines_after (createCommand gen cwd dirname overwrite pluginName o) d)
       dflt
  = created pluginName ->
  exists w0,
    disk_after (createCommand gen cwd dirname overwrite pluginName o) d
    = disk (snd (try_catch
                   (write_files gen dirname pluginName (template_of o)
                      targetDir) failed w0)) /\
    last (lines (log (snd (try_catch
                             (write_files gen dirname pluginName
                                (template_of o) targetDir) failed w0)))) dflt
    = created pluginName.
Proof.
  intros targetDir failed.
  unfold lines_after, log_after, disk_after, Cmd.run, createCommand.
  fold targetDir. fold failed.
  pose proof (failure_is_not_success pluginName
                (lit "Failed to create plugin")) as Hf. fold failed in Hf.
  destruct (teqb (Minify.trim pluginName) []).
  { rewrite printed_last. intros E.
    now apply notice_is_not_success in E. }
  rewrite (try_catch_bind_ok _ _ _ _ _ _ (pathExists_eq _ _)).
  destruct (present targetDir _ && negb overwrite).
  { rewrite printed_last. intros E.
    now apply notice_is_not_success in E. }
  match goal with
  | |- context [try_catch (bind ?m _) _ ?w] =>
      assert (R : exists w1, m w = (Some tt, w1))
  end.
  { destruct (present targetDir _); eexists; reflexivity. }
  destruct R as (w1 & R). rewrite (try_catch_bind_ok _ _ _ _ _ _ R).
  clear R. revert w1.
  do 5 (let v := fresh "v" in
        let v' := fresh "v" in
        let E := fresh "E" in
        intros v;
        match goal with
        | |- context [try_catch (bind ?m _) _ v] =>
            destruct (m v) as [[[]|] v'] eqn:E;
            [rewrite (try_catch_bind_ok _ _ _ _ _ _ E)
            |rewrite (try_catch_bind_throw _ _ _ _ _ E);
             intros L; now apply Hf in L]
        end; clear E; revert v'; clear v).
  intros w0 L. exists w0. split; [reflexivity|exact L].
Qed.

Lemma lit_scalar_bound (s : string) :
  forallb (fun c => c <? 1114112) (lit s) = true.
Proof.
  unfold lit. induction s as [|a s IH]; [reflexivity|].
  cbn [list_ascii_of_string map forallb]. rewrite IH, andb_true_r.
  pose proof (N_ascii_bounded a) as B. apply N.ltb_lt. lia.
Qed.

Lemma code_points_manifest (pluginName template : text) :
  forallb (fun c => c <? 1114112) pluginName = true ->
  forallb (fun c => c <? 1114112) template = true ->
  code_points (manifest pluginName (sanitizedName pluginName) template)
  = true.
Proof.
  intros Hp Ht.
  assert (Hs : forallb (fun c => c <? 1114112) (sanitizedName pluginName)
               = true).
  { pose proof (sanitizedName_chars pluginName) as C.
    induction (sanitizedName pluginName) as [|c s IH]; [reflexivity|].
    cbn [forallb] in *. apply andb_true_iff in C as [C K].
    rewrite (IH K), andb_true_r. now apply name_char_bound. }
  unfold manifest. cbn [code_points forallb fst snd].
  rewrite forallb_app, Hp, Hs, Ht, !lit_scalar_bound. reflexivity.
Qed.

Lemma plain_keys_manifest (pluginName name template : text) :
  plain_keys (manifest pluginName name template) = true.
Proof. reflexivity. Qed.

(** When the command ends with the report of success, the project
    directory holds the manifest of the new plugin, which [loadManifest]
    returns with the plugin's name and the sanitised name as its id, and
    the generated page, style sheet, script, bridge and documentation, each
    as its generator returned it. *)
Theorem created_project_holds_what_was_generated (gen : generators)
    (cwd dirname : text) (overwrite : bool) (pluginName : text)
    (o : options) (d : option node) :
  forallb (fun c => c <? 1114112) pluginName = true ->
  forallb (fun c => c <? 1114112) (template_of o) = true ->
  last (lines_after (createCommand gen cwd dirname overwrite pluginName o) d)
       ManifestNotFound
  = created pluginName ->
  let targetDir :=
    components (resolve2 cwd (directory o) (sanitizedName pluginName)) in
  let template := template_of o in
  let after :=
    disk_after (createCommand gen cwd dirname overwrite pluginName o) d in
  result_of (loadManifest targetDir) after
  = Some (manifest pluginName (sanitizedName pluginName) template) /\
  holds (targetDir ++ [lit "index.html"])
    (generateHtmlTemplate gen pluginName template) after /\
  holds (targetDir ++ [lit "styles.css"])
    (generateCssTemplate gen template) after /\
  holds (targetDir ++ [lit "main.js"])
    (generateJsTemplate gen pluginName template) after /\
  holds (targetDir ++ [lit "lib"; lit "pos-sdk.js"])
    (generateSdkBridge gen) after /\
  holds (targetDir ++ [lit "README.md"])
    (generateReadme gen pluginName template) after.
Proof.
  intros Hp Ht L targetDir template after.
  destruct (create_reaches_the_files gen cwd dirname overwrite pluginName o d
              ManifestNotFound L) as (w0 & Ed & Lw).
  fold targetDir in Ed, Lw. fold template in Ed, Lw.
  destruct (write_files_ok gen dirname pluginName template targetDir _
              ManifestNotFound w0
              (failure_is_not_success pluginName _)
              (reads_only_print _) Lw) as (Hm & Hrest).
  unfold after. rewrite Ed. split; [|exact Hrest].
  unfold holds in Hm. unfold result_of, Cmd.run, loadManifest.
  rewrite run_pathExists. cbn [disk logged]. unfold present. rewrite Hm.
  cbn [negb]. rewrite (readJson_written _ _ _ (plain_keys_manifest _ _ _)
                         (code_points_manifest _ _ Hp Ht));
    [reflexivity|exact Hm].
Qed.

(** The statement for a plugin made in the working directory. *)
Lemma created_project_witness :
  result_of (loadManifest [lit "home"; lit "dev"; lit "my-shop"])
    (disk_after (createCommand sample_generators (lit "/home/dev")
                   (lit "/opt/cli/src/commands") false (lit "My Shop")
                   {| template := None; directory := lit "." |})
       workspace)
  = Some (manifest (lit "My Shop") (lit "my-shop") (lit "basic")).
Proof.
  exact (proj1 (created_project_holds_what_was_generated sample_generators
                  (lit "/home/dev") (lit "/opt/cli/src/commands") false
                  (lit "My Shop")
                  {| template := None; directory := lit "." |} workspace
                  eq_refl eq_refl eq_refl)).
Defined.

End CreateFacts.
